(** * Epsilon heap: allocator, TLAB sizing, GC request coalescing,
      sliding mark-compact and the net.shipilev.Magic primitives

    A shallow embedding of
      - src/hotspot/share/gc/epsilon/epsilonHeap.cpp
      - src/hotspot/share/prims/shipilevMagic.cpp
    Pointers of type [HeapWord*] and [oop] are word indices in [Z] with
    [0] as [nullptr]; quantities of type [size_t] are in [Z] with the
    64-bit wrap-around written out where the code computes them. *)

From stdpp Require Import gmap strings list fin_maps fin_sets sorting.
From Stdlib Require Import ZArith Lia.

Local Open Scope Z_scope.

(** ** Machine integers *)

Definition size_t_modulus : Z := 2 ^ 64.
Definition SIZE_MAX : Z := size_t_modulus - 1.

(** Conversion of a mathematical integer to [size_t]. *)
Definition to_size_t (z : Z) : Z := z mod size_t_modulus.

Definition size_t_add (a b : Z) : Z := to_size_t (a + b).
Definition size_t_sub (a b : Z) : Z := to_size_t (a - b).
Definition size_t_mul (a b : Z) : Z := to_size_t (a * b).

(** [MAX2] and [MIN2] of utilities/globalDefinitions.hpp. *)
Definition MAX2 (a b : Z) : Z := if a >? b then a else b.
Definition MIN2 (a b : Z) : Z := if a <? b then a else b.

(** [clamp(value, min, max)] is [MIN2(MAX2(value, min), max)]. *)
Definition clamp (value lo hi : Z) : Z := MIN2 (MAX2 value lo) hi.

(** [align_up(size, alignment)]: the least multiple of [alignment] that is
    no less than [size]. *)
Definition align_up (size alignment : Z) : Z :=
  (size + (alignment - 1)) / alignment * alignment.

(** ** VM flags and platform constants read by the heap

    [EpsilonTLABElasticity] is a [double]; the product
    [(size_t) (ergo_tlab * EpsilonTLABElasticity)] is kept as the function
    [elastic_scale] of the ergonomic size. [os_vm_page_size] is
    [os::vm_page_size()], in bytes. *)
Record Globals : Type := {
  HeapWordSize : Z;
  MinObjAlignment : Z;
  os_vm_page_size : Z;
  EpsilonMinHeapExpand : Z;
  EpsilonElasticTLAB : bool;
  EpsilonElasticTLABDecay : bool;
  elastic_scale : Z → Z;
  EpsilonSlidingGC : bool;
  EpsilonImplicitGC : bool;
  EpsilonVerify : bool;
  EpsilonUncommit : bool
}.

(** ** Contiguous space and virtual space *)

(** [ContiguousSpace]: [bottom <= top <= end], all of type [HeapWord*]. *)
Record ContiguousSpace : Type := {
  cs_bottom : Z;
  cs_top : Z;
  cs_end : Z
}.

(** [VirtualSpace]: byte addresses; [low, high) is committed and
    [low_boundary, high_boundary) is reserved. *)
Record VirtualSpace : Type := {
  vs_low_boundary : Z;
  vs_high_boundary : Z;
  vs_low : Z;
  vs_high : Z
}.

Definition reserved_size (vs : VirtualSpace) : Z :=
  vs_high_boundary vs - vs_low_boundary vs.
Definition committed_size (vs : VirtualSpace) : Z :=
  vs_high vs - vs_low vs.
Definition uncommitted_size (vs : VirtualSpace) : Z :=
  reserved_size vs - committed_size vs.

(** Modelled from the spec: [VirtualSpace::expand_by] (memory/virtualspace.cpp
    is not part of the sources at hand) commits [bytes] more at the current
    frontier and returns false when the reservation is exhausted. *)
Definition expand_by (bytes : Z) (vs : VirtualSpace) : bool * VirtualSpace :=
  if uncommitted_size vs <? bytes then (false, vs)
  else (true, {| vs_low_boundary := vs_low_boundary vs;
                 vs_high_boundary := vs_high_boundary vs;
                 vs_low := vs_low vs;
                 vs_high := vs_high vs + bytes |}).

(** Modelled from the spec: [VirtualSpace::shrink_by] uncommits at the tail
    of the committed range, in whole pages: the committed high end becomes
    the one asked for, [high - bytes], rounded up to the page size, and it
    never moves up. *)
Definition shrink_by (page_size bytes : Z) (vs : VirtualSpace)
  : VirtualSpace :=
  if committed_size vs <? bytes then vs
  else {| vs_low_boundary := vs_low_boundary vs;
          vs_high_boundary := vs_high_boundary vs;
          vs_low := vs_low vs;
          vs_high :=
            MIN2 (vs_high vs) (align_up (vs_high vs - bytes) page_size) |}.

(** Modelled from the spec: [ContiguousSpace::par_allocate(n)] advances
    [top] by [n] words if [top + n <= end], and returns null otherwise.
    This is the view of one thread; [None] is [nullptr]. *)
Definition par_allocate (size : Z) (sp : ContiguousSpace)
  : option Z * ContiguousSpace :=
  if size <=? cs_end sp - cs_top sp
  then (Some (cs_top sp),
        {| cs_bottom := cs_bottom sp; cs_top := cs_top sp + size;
           cs_end := cs_end sp |})
  else (None, sp).

Definition set_end (e : Z) (sp : ContiguousSpace) : ContiguousSpace :=
  {| cs_bottom := cs_bottom sp; cs_top := cs_top sp; cs_end := e |}.

Definition set_top (t : Z) (sp : ContiguousSpace) : ContiguousSpace :=
  {| cs_bottom := cs_bottom sp; cs_top := t; cs_end := cs_end sp |}.

(** ** The allocator (EpsilonHeap::allocate_work) *)

(** The part of [EpsilonHeap] the allocation path reads and writes. *)
Record AllocState : Type := {
  a_space : ContiguousSpace;
  a_virtual_space : VirtualSpace;
  a_last_counter_update : Z;
  a_last_heap_print : Z;
  a_step_counter_update : Z;
  a_step_heap_print : Z;
  a_counter_updates : nat;
  a_heap_prints : nat
}.

Definition set_alloc_space (sp : ContiguousSpace) (vs : VirtualSpace)
    (h : AllocState) : AllocState :=
  {| a_space := sp; a_virtual_space := vs;
     a_last_counter_update := a_last_counter_update h;
     a_last_heap_print := a_last_heap_print h;
     a_step_counter_update := a_step_counter_update h;
     a_step_heap_print := a_step_heap_print h;
     a_counter_updates := a_counter_updates h;
     a_heap_prints := a_heap_prints h |}.

(** Modelled from the spec: [max_capacity()], [capacity()] and [used()]
    (epsilonHeap.hpp is not part of the sources at hand) are the reserved,
    the committed and the used bytes. *)
Definition max_capacity (h : AllocState) : Z :=
  reserved_size (a_virtual_space h).
Definition capacity (h : AllocState) : Z :=
  committed_size (a_virtual_space h).
Definition used (g : Globals) (h : AllocState) : Z :=
  (cs_top (a_space h) - cs_bottom (a_space h)) * HeapWordSize g.

(** What the block under [Heap_lock] decides once both [par_allocate]
    attempts have failed (epsilonHeap.cpp, lines 167-188). *)
Inductive ExpandDecision : Type :=
  | ExpandBy (bytes : Z)
  | NoSpaceLeft.

Definition expand_decision (g : Globals) (size : Z) (h : AllocState)
  : ExpandDecision :=
  let size_in_bytes := size_t_mul size (HeapWordSize g) in
  let uncommitted_space := size_t_sub (max_capacity h) (capacity h) in
  let unused_space := size_t_sub (max_capacity h) (used g h) in
  let want_space := MAX2 size_in_bytes (EpsilonMinHeapExpand g) in
  if want_space <? uncommitted_space then ExpandBy want_space
  else if size_in_bytes <? unused_space then ExpandBy uncommitted_space
  else NoSpaceLeft.

(** The expansion and the [set_end] that follows it; [None] is the
    [return nullptr] of the last branch. The result of [expand_by] is only
    asserted by the code, so it is dropped here as well. The cast of the
    byte address [high()] to [HeapWord*] divides by the word size. *)
Definition expand_and_set_end (g : Globals) (size : Z) (h : AllocState)
  : option AllocState :=
  match expand_decision g size h with
  | ExpandBy bytes =>
      let vs := snd (expand_by bytes (a_virtual_space h)) in
      Some (set_alloc_space
              (set_end (vs_high vs / HeapWordSize g) (a_space h)) vs h)
  | NoSpaceLeft => None
  end.

(** Counter and occupancy-line updates after a successful allocation. The
    compare-and-exchange of one thread on its own always succeeds. *)
Definition update_counters_after (g : Globals) (verbose : bool)
    (h : AllocState) : AllocState :=
  let u := used g h in
  let h1 :=
    if verbose &&
       (a_step_counter_update h <=? size_t_sub u (a_last_counter_update h))
    then {| a_space := a_space h; a_virtual_space := a_virtual_space h;
            a_last_counter_update := u;
            a_last_heap_print := a_last_heap_print h;
            a_step_counter_update := a_step_counter_update h;
            a_step_heap_print := a_step_heap_print h;
            a_counter_updates := S (a_counter_updates h);
            a_heap_prints := a_heap_prints h |}
    else h in
  if verbose &&
     (a_step_heap_print h1 <=? size_t_sub u (a_last_heap_print h1))
  then {| a_space := a_space h1; a_virtual_space := a_virtual_space h1;
          a_last_counter_update := a_last_counter_update h1;
          a_last_heap_print := u;
          a_step_counter_update := a_step_counter_update h1;
          a_step_heap_print := a_step_heap_print h1;
          a_counter_updates := a_counter_updates h1;
          a_heap_prints := S (a_heap_prints h1) |}
  else h1.

(** Outcome of a call that may loop: the loop of [allocate_work] is run
    with a bound on its iterations. *)
Inductive Run (A : Type) : Type :=
  | Returned (a : A)
  | OutOfFuel.
Arguments Returned {A} a.
Arguments OutOfFuel {A}.

(** [EpsilonHeap::allocate_work(size, verbose)]. *)
Fixpoint allocate_work (fuel : nat) (g : Globals) (size : Z) (verbose : bool)
    (h : AllocState) : Run (option Z * AllocState) :=
  match fuel with
  | O => OutOfFuel
  | S fuel' =>
      match par_allocate size (a_space h) with
      | (Some res, sp) =>
          Returned (Some res,
                    update_counters_after g verbose
                      (set_alloc_space sp (a_virtual_space h) h))
      | (None, _) =>
          (* under Heap_lock *)
          match par_allocate size (a_space h) with
          | (Some res, sp) =>
              Returned (Some res,
                        update_counters_after g verbose
                          (set_alloc_space sp (a_virtual_space h) h))
          | (None, _) =>
              match expand_and_set_end g size h with
              | Some h' => allocate_work fuel' g size verbose h'
              | None => Returned (None, h)
              end
          end
      end
  end.

(** ** TLAB sizing (EpsilonHeap::allocate_new_tlab) *)

(** Modelled from the spec: [EpsilonThreadLocalData]
    (epsilonThreadLocalData.hpp is not part of the sources at hand) keeps
    the ergonomic size and the time of the last allocation per thread. *)
Record EpsilonThreadLocalData : Type := {
  ergo_tlab_size : Z;
  last_tlab_time : Z
}.

Definition set_ergo_tlab_size (v : Z) (t : EpsilonThreadLocalData)
  : EpsilonThreadLocalData :=
  {| ergo_tlab_size := v; last_tlab_time := last_tlab_time t |}.

Definition set_last_tlab_time (v : Z) (t : EpsilonThreadLocalData)
  : EpsilonThreadLocalData :=
  {| ergo_tlab_size := ergo_tlab_size t; last_tlab_time := v |}.

(** The locals of [allocate_new_tlab] after the elastic block
    (epsilonHeap.cpp, lines 222-252), together with the thread's data. *)
Record TlabLocals : Type := {
  tl_fits : bool;
  tl_size : Z;
  tl_ergo_tlab : Z;
  tl_time : Z;
  tl_thread : EpsilonThreadLocalData
}.

(** The decay check of lines 231-244: the ergonomic size in use, the time
    read, and the thread's data. [now] is [os::javaTimeNanos()]; both
    times are [int64_t] and the code asserts [last_time <= time]. *)
Definition tlab_decay (decay_time_ns now : Z) (ergo_tlab : Z)
    (t : EpsilonThreadLocalData) : Z * Z * EpsilonThreadLocalData :=
  let last_time := last_tlab_time t in
  let time := now in
  if negb (last_time =? 0) && (decay_time_ns <? time - last_time)
  then (0, time, set_ergo_tlab_size 0 t)
  else (ergo_tlab, time, t).

Definition tlab_locals (g : Globals) (decay_time_ns now : Z)
    (requested_size : Z) (t : EpsilonThreadLocalData) : TlabLocals :=
  if EpsilonElasticTLAB g then
    let ergo0 := ergo_tlab_size t in
    let '(ergo_tlab, time, t1) :=
      if EpsilonElasticTLABDecay g
      then tlab_decay decay_time_ns now ergo0 t
      else (ergo0, 0, t) in
    let fits := requested_size <=? ergo_tlab in
    {| tl_fits := fits;
       tl_size := if fits then requested_size
                  else to_size_t (elastic_scale g ergo_tlab);
       tl_ergo_tlab := ergo_tlab;
       tl_time := time;
       tl_thread := t1 |}
  else
    {| tl_fits := true; tl_size := requested_size;
       tl_ergo_tlab := requested_size; tl_time := 0; tl_thread := t |}.

(** The size handed to [allocate_or_collect_work]: clamped, then aligned. *)
Definition tlab_size (g : Globals) (max_tlab_size : Z) (min_size : Z)
    (l : TlabLocals) : Z :=
  align_up (clamp (tl_size l) min_size max_tlab_size) (MinObjAlignment g).

(** [EpsilonHeap::allocate_new_tlab(min_size, requested_size, actual_size)].
    The heap is any state [H] with its [allocate_or_collect_work]; the
    result is the address with [*actual_size], or [None] for [nullptr]. *)
Definition allocate_new_tlab {H : Type} (g : Globals)
    (max_tlab_size decay_time_ns now : Z)
    (allocate_or_collect_work : Z → H → option Z * H)
    (min_size requested_size : Z)
    (t : EpsilonThreadLocalData) (h : H)
  : option (Z * Z) * EpsilonThreadLocalData * H :=
  let l := tlab_locals g decay_time_ns now requested_size t in
  let size := tlab_size g max_tlab_size min_size l in
  match allocate_or_collect_work size h with
  | (Some res, h') =>
      let t1 := if EpsilonElasticTLABDecay g
                then set_last_tlab_time (tl_time l) (tl_thread l)
                else tl_thread l in
      let t2 := if EpsilonElasticTLAB g && negb (tl_fits l)
                then set_ergo_tlab_size size t1 else t1 in
      (Some (res, size), t2, h')
  | (None, h') =>
      let t1 := if EpsilonElasticTLAB g
                then set_ergo_tlab_size 0 (tl_thread l) else tl_thread l in
      (None, t1, h')
  end.

(** Modelled from the spec: the TLAB state of a thread
    (gc/epsilon/epsilonThreadLocalData.hpp is not part of the sources at
    hand) is owned by that thread, with no external mutation; a thread
    that has never allocated a TLAB has no ergonomic size yet, and 0 for
    the time of its last allocation. *)
Definition fresh_thread_data : EpsilonThreadLocalData :=
  {| ergo_tlab_size := 0; last_tlab_time := 0 |}.

(** The thread data [allocate_new_tlab] can find: only this function
    writes them, so they are those of a fresh thread, or what an earlier
    call has left. [os::javaTimeNanos()] is not 0. *)
Inductive thread_data_reachable (g : Globals)
  : EpsilonThreadLocalData → Prop :=
  | reachable_fresh : thread_data_reachable g fresh_thread_data
  | reachable_after_tlab (H : Type)
      (max_tlab_size decay_time_ns now : Z)
      (allocate_or_collect_work : Z → H → option Z * H)
      (min_size requested_size : Z) (t : EpsilonThreadLocalData) (h : H) :
      thread_data_reachable g t →
      now ≠ 0 →
      thread_data_reachable g
        (allocate_new_tlab g max_tlab_size decay_time_ns now
           allocate_or_collect_work min_size requested_size t h).1.2.

(** ** GC request coalescing (VM_EpsilonCollect::doit_prologue) *)

(** The static [_req_id] and whether [Heap_lock] is held by the VM
    operation. *)
Record CollectRequests : Type := {
  req_id : Z;
  heap_lock_held : bool
}.

(** [AtomicAccess::inc(&_req_id)] on a [size_t]. *)
Definition inc_req_id (s : CollectRequests) : CollectRequests :=
  {| req_id := size_t_add (req_id s) 1; heap_lock_held := heap_lock_held s |}.

Definition heap_lock_lock (s : CollectRequests) : CollectRequests :=
  {| req_id := req_id s; heap_lock_held := true |}.

Definition heap_lock_unlock (s : CollectRequests) : CollectRequests :=
  {| req_id := req_id s; heap_lock_held := false |}.

(** [VM_EpsilonCollect::doit_prologue()]. [id] is the request id loaded
    on entry; [s] is the state at the moment [Heap_lock] is acquired, which
    other requests may have advanced in between. *)
Definition doit_prologue (id : Z) (s : CollectRequests)
  : bool * CollectRequests :=
  let s1 := heap_lock_lock s in
  if id <? req_id s1
  then (false, heap_lock_unlock s1)
  else (true, inc_req_id s1).

(** [VM_EpsilonCollect::doit_epilogue()]. *)
Definition doit_epilogue (s : CollectRequests) : CollectRequests :=
  heap_lock_unlock s.

(** ** The pin lock (EpsilonHeap::pin_object, EpsilonHeap::unpin_object) *)

(** Modelled from the spec: the host's [GCLocker] (gc/shared/gcLocker.hpp is
    not part of the sources at hand) is a reader-style counter; [enter]
    increments it, [exit] decrements it, and it [is_active] while the
    counter is non-zero. *)
Record GCLocker : Type := {
  gcl_readers : Z
}.

Definition GCLocker_enter (l : GCLocker) : GCLocker :=
  {| gcl_readers := gcl_readers l + 1 |}.

Definition GCLocker_exit (l : GCLocker) : GCLocker :=
  {| gcl_readers := gcl_readers l - 1 |}.

Definition GCLocker_is_active (l : GCLocker) : bool :=
  negb (gcl_readers l =? 0).

(** [EpsilonHeap::pin_object(thread, obj)]. *)
Definition pin_object (g : Globals) (thread obj : Z) (l : GCLocker)
  : GCLocker :=
  if EpsilonSlidingGC g then GCLocker_enter l else l.

(** [EpsilonHeap::unpin_object(thread, obj)]. *)
Definition unpin_object (g : Globals) (thread obj : Z) (l : GCLocker)
  : GCLocker :=
  if EpsilonSlidingGC g then GCLocker_exit l else l.

(** ** net.shipilev.Magic: getReferencedObjects *)

(** The part of [InstanceKlass] the primitive reads: the number of
    nonstatic oop fields the class declares, and its superclass. *)
#[warnings="-register-all"]
Inductive InstanceKlass : Type :=
  | MkInstanceKlass (nonstatic_oop_field_count : Z)
                    (super : option InstanceKlass).

Definition nonstatic_oop_field_count (k : InstanceKlass) : Z :=
  match k with MkInstanceKlass c _ => c end.

Definition super (k : InstanceKlass) : option InstanceKlass :=
  match k with MkInstanceKlass _ s => s end.





(** ** The sliding mark-compact collector *)

(** Modelled from the spec: the mark word (oops/markWord.hpp is not part of
    the sources at hand) is either the default pattern that [init_mark]
    rebuilds from class metadata, a pattern that must be preserved (hash
    code, lock state), or the distinguished pattern that encodes a
    forwarding address. *)
Inductive markWord : Type :=
  | mark_prototype
  | mark_must_be_preserved (bits : Z)
  | mark_forwarded (forwardee : Z).

Definition must_be_preserved (m : markWord) : bool :=
  match m with mark_must_be_preserved _ => true | _ => false end.

(** [markWord::is_marked()]: the forwarding pattern. *)
Definition is_marked (m : markWord) : bool :=
  match m with mark_forwarded _ => true | _ => false end.

(** Modelled from the spec: an object as the object inspector shows it:
    [size()] in words, the mark word, and the reference slots that
    [oop_iterate] visits, in order. *)
Record oopDesc : Type := {
  o_size : Z;
  o_mark : markWord;
  o_fields : list Z
}.

Definition set_mark (m : markWord) (ob : oopDesc) : oopDesc :=
  {| o_size := o_size ob; o_mark := m; o_fields := o_fields ob |}.

Definition set_fields (fs : list Z) (ob : oopDesc) : oopDesc :=
  {| o_size := o_size ob; o_mark := o_mark ob; o_fields := fs |}.

(** Heap memory: the objects, keyed by the address they start at. *)
Abbreviation Memory := (gmap Z oopDesc).

Definition obj_size (mem : Memory) (obj : Z) : Z :=
  match mem !! obj with Some ob => o_size ob | None => 0 end.

Definition obj_mark (mem : Memory) (obj : Z) : markWord :=
  match mem !! obj with Some ob => o_mark ob | None => mark_prototype end.

Definition obj_fields (mem : Memory) (obj : Z) : list Z :=
  match mem !! obj with Some ob => o_fields ob | None => [] end.

(** [FullGCForwarding::forward_to], [is_forwarded], [forwardee]. *)
Definition forward_to (obj fwd : Z) (mem : Memory) : Memory :=
  alter (set_mark (mark_forwarded fwd)) obj mem.

Definition is_forwarded (mem : Memory) (obj : Z) : bool :=
  is_marked (obj_mark mem obj).

Definition forwardee (mem : Memory) (obj : Z) : Z :=
  match obj_mark mem obj with mark_forwarded f => f | _ => 0 end.

(** [oopDesc::init_mark()]. *)
Definition init_mark (obj : Z) (mem : Memory) : Memory :=
  alter (set_mark mark_prototype) obj mem.

(** [Copy::aligned_conjoint_words(from, to, count)]: the words of
    [to, to + count) become those of the object at [from]. Every other
    object that had a word in that range is overwritten, and is gone. *)
Definition aligned_conjoint_words (from to count : Z) (mem : Memory)
  : Memory :=
  let kept :=
    filter (λ kv : Z * oopDesc,
              kv.1 + o_size kv.2 ≤ to ∨ to + count ≤ kv.1) mem in
  match mem !! from with
  | Some ob => <[to := ob]> kept
  | None => kept
  end.

(** Modelled from the spec: [PreservedMarks] (gc/shared/preservedMarks.hpp is
    not part of the sources at hand), a stack of (object, mark) pairs. *)
Abbreviation PreservedMarks := (list (Z * markWord)).

Definition push_if_necessary (obj : Z) (m : markWord) (pm : PreservedMarks)
  : PreservedMarks :=
  if must_be_preserved m then (obj, m) :: pm else pm.

Definition adjust_during_full_gc (mem : Memory) (pm : PreservedMarks)
  : PreservedMarks :=
  map (λ e : Z * markWord,
         if is_forwarded mem e.1 then (forwardee mem e.1, e.2) else e) pm.

Definition restore (pm : PreservedMarks) (mem : Memory) : Memory :=
  foldl (λ m (e : Z * markWord), alter (set_mark e.2) e.1 m) mem pm.

(** The root slots the host enumerates, in the order [process_roots]
    visits them. *)
Record Roots : Type := {
  strong_oops : list Z;
  cld_oops : list Z;
  thread_oops : list Z;
  nmethod_oops : list Z;
  weak_oops : list Z
}.

Definition root_slots (r : Roots) : list Z :=
  strong_oops r ++ cld_oops r ++ thread_oops r ++ nmethod_oops r
  ++ weak_oops r.

(** [EpsilonHeap::process_roots(cl, update)] for a closure that only reads
    the slots. *)
Definition process_roots {A : Type} (do_oop : A → Z → A) (cl : A) (r : Roots)
  : A :=
  foldl do_oop cl (root_slots r).

(** [EpsilonHeap::process_roots(cl, update)] for a closure that stores to
    the slots. *)
Definition process_roots_update (do_oop : Z → Z) (r : Roots) : Roots :=
  {| strong_oops := map do_oop (strong_oops r);
     cld_oops := map do_oop (cld_oops r);
     thread_oops := map do_oop (thread_oops r);
     nmethod_oops := map do_oop (nmethod_oops r);
     weak_oops := map do_oop (weak_oops r) |}.

(** Modelled from the spec: [MarkBitMap::get_next_marked_addr(addr, limit)]
    (gc/shared/markBitMap.hpp is not part of the sources at hand): the first
    marked address in [addr, limit), or [limit]. *)
Fixpoint next_marked_from (n : nat) (bitmap : gset Z) (addr limit : Z) : Z :=
  match n with
  | O => limit
  | S n' =>
      if decide (addr ∈ bitmap) then addr
      else next_marked_from n' bitmap (addr + 1) limit
  end.

Definition get_next_marked_addr (bitmap : gset Z) (addr limit : Z) : Z :=
  next_marked_from (Z.to_nat (limit - addr)) bitmap addr limit.

(** The loop of [EpsilonHeap::walk_bitmap]. [addr] grows by at least one
    each time round, so [limit - bottom] rounds are enough. *)
Fixpoint walk_bitmap_loop {A : Type} (n : nat) (bitmap : gset Z)
    (do_object : Z → A → A) (addr limit : Z) (cl : A) : A :=
  match n with
  | O => cl
  | S n' =>
      if addr <? limit then
        let cl' := do_object addr cl in
        let addr1 := addr + 1 in
        let addr2 := if addr1 <? limit
                     then get_next_marked_addr bitmap addr1 limit
                     else addr1 in
        walk_bitmap_loop n' bitmap do_object addr2 limit cl'
      else cl
  end.

(** [EpsilonHeap::walk_bitmap(cl)]. *)
Definition walk_bitmap {A : Type} (sp : ContiguousSpace) (bitmap : gset Z)
    (do_object : Z → A → A) (cl : A) : A :=
  let limit := cs_top sp in
  let addr := get_next_marked_addr bitmap (cs_bottom sp) limit in
  walk_bitmap_loop (Z.to_nat (limit - cs_bottom sp)) bitmap do_object
    addr limit cl.

(** [EpsilonScanOopClosure]: the mark stack (top first) and the bitmap. *)
Module EpsilonScanOopClosure.

Record t : Type := {
  stack : list Z;
  bitmap : gset Z
}.

(** [do_oop_work(p)], given the value loaded from slot [p]. The
    stack-chunk transformation is the host's and leaves what is modelled
    here alone. *)
Definition do_oop_work (cl : t) (o : Z) : t :=
  if o =? 0 then cl
  else if decide (o ∈ bitmap cl) then cl
  else {| stack := o :: stack cl; bitmap := {[o]} ∪ bitmap cl |}.

(** [obj->oop_iterate(&cl)]. *)
Definition oop_iterate (mem : Memory) (obj : Z) (cl : t) : t :=
  foldl do_oop_work cl (obj_fields mem obj).

End EpsilonScanOopClosure.

(** [EpsilonCalcNewLocationObjectClosure]. *)
Module EpsilonCalcNewLocationObjectClosure.

Record t : Type := {
  compact_point : Z;
  preserved_marks : PreservedMarks;
  mem : Memory
}.

Definition do_object (obj : Z) (cl : t) : t :=
  if decide (obj ≠ compact_point cl) then
    let mark := obj_mark (mem cl) obj in
    let pm := push_if_necessary obj mark (preserved_marks cl) in
    let mem' := forward_to obj (compact_point cl) (mem cl) in
    {| compact_point := compact_point cl + obj_size mem' obj;
       preserved_marks := pm;
       mem := mem' |}
  else
    {| compact_point := compact_point cl + obj_size (mem cl) obj;
       preserved_marks := preserved_marks cl;
       mem := mem cl |}.

End EpsilonCalcNewLocationObjectClosure.

(** [EpsilonAdjustPointersOopClosure]. *)
Module EpsilonAdjustPointersOopClosure.

(** [do_oop_work(p)]: the value slot [p] holds afterwards, given the value
    [o] it held. *)
Definition do_oop_work (mem : Memory) (o : Z) : Z :=
  if o =? 0 then o
  else if is_forwarded mem o then forwardee mem o
  else o.

End EpsilonAdjustPointersOopClosure.

(** [EpsilonAdjustPointersObjectClosure]. The stores go to reference slots
    and the loads of [is_forwarded] and [forwardee] to mark words, so the
    slots of one object are all adjusted against the same marks. *)
Module EpsilonAdjustPointersObjectClosure.

Definition do_object (obj : Z) (mem : Memory) : Memory :=
  alter (λ ob, set_fields
                 (map (EpsilonAdjustPointersOopClosure.do_oop_work mem)
                      (o_fields ob)) ob) obj mem.

End EpsilonAdjustPointersObjectClosure.

(** [EpsilonMoveObjectsObjectClosure]. *)
Module EpsilonMoveObjectsObjectClosure.

Record t : Type := {
  moved : Z;
  mem : Memory
}.

Definition do_object (obj : Z) (cl : t) : t :=
  if is_forwarded (mem cl) obj then
    let fwd := forwardee (mem cl) obj in
    let mem1 :=
      aligned_conjoint_words obj fwd (obj_size (mem cl) obj) (mem cl) in
    {| moved := moved cl + 1; mem := init_mark fwd mem1 |}
  else cl.

End EpsilonMoveObjectsObjectClosure.

(** [EpsilonVerifyOopClosure]: as the scan closure, with three guarantees
    on each newly marked object; [ok] turns false when one of them
    fails, which ends the VM. *)
Module EpsilonVerifyOopClosure.

Record t : Type := {
  stack : list Z;
  bitmap : gset Z;
  ok : bool
}.

Definition do_oop_work (sp : ContiguousSpace) (mem : Memory) (cl : t)
    (o : Z) : t :=
  if o =? 0 then cl
  else if decide (o ∈ bitmap cl) then cl
  else
    let is_in := (cs_bottom sp <=? o) && (o <? cs_top sp) in
    let is_oop := bool_decide (is_Some (mem !! o)) in
    let mark_is_gone := negb (is_marked (obj_mark mem o)) in
    {| stack := o :: stack cl;
       bitmap := {[o]} ∪ bitmap cl;
       ok := ok cl && is_in && is_oop && mark_is_gone |}.

Definition oop_iterate (sp : ContiguousSpace) (mem : Memory) (obj : Z)
    (cl : t) : t :=
  foldl (do_oop_work sp mem) cl (obj_fields mem obj).

End EpsilonVerifyOopClosure.

(** The heap: [_space], [_virtual_space], the objects in memory, the
    host's roots, [_bitmap], the GC locker, and the warnings logged. *)
Record EpsilonHeap : Type := {
  h_space : ContiguousSpace;
  h_virtual_space : VirtualSpace;
  h_mem : Memory;
  h_roots : Roots;
  h_bitmap : gset Z;
  h_gc_locker : GCLocker;
  h_warnings : list string
}.

(** What the operating system answers during one cycle. *)
Record OsAnswers : Type := {
  commit_memory_ok : bool;
  uncommit_memory_ok : bool
}.

(** The statistics [entry_collect] gathers and logs. *)
Record GCStats : Type := {
  stat_reachable_roots : Z;
  stat_reachable_heap : Z;
  stat_moved : Z;
  stat_preserved_marks : Z
}.

(** Every reference slot there is: the roots and the slots of the objects
    in memory. The marking loops run at most once per slot. *)
Definition all_slots (mem : Memory) (r : Roots) : list Z :=
  root_slots r ++ (map_to_list mem ≫= λ kv : Z * oopDesc, o_fields kv.2).

Definition mark_fuel (mem : Memory) (r : Roots) : nat :=
  S (length (all_slots mem r)).

(** Step 1, the loop [while (!stack.is_empty())] of lines 740-744. *)
Fixpoint mark_loop (fuel : nat) (mem : Memory) (cl : EpsilonScanOopClosure.t)
    (reachable_heap : Z) {struct fuel}
  : Run (EpsilonScanOopClosure.t * Z) :=
  match EpsilonScanOopClosure.stack cl with
  | [] => Returned (cl, reachable_heap)
  | obj :: rest =>
      match fuel with
      | O => OutOfFuel
      | S fuel' =>
          mark_loop fuel' mem
            (EpsilonScanOopClosure.oop_iterate mem obj
               {| EpsilonScanOopClosure.stack := rest;
                  EpsilonScanOopClosure.bitmap :=
                    EpsilonScanOopClosure.bitmap cl |})
            (reachable_heap + 1)
      end
  end.

(** Step 1: seed the marking with the roots, then scan. The result is the
    bitmap with the two counts [stat_reachable_roots] and
    [stat_reachable_heap]. *)
Definition mark_phase (mem : Memory) (r : Roots) (bitmap0 : gset Z)
  : Run (gset Z * Z * Z) :=
  let cl0 := {| EpsilonScanOopClosure.stack := [];
                EpsilonScanOopClosure.bitmap := bitmap0 |} in
  let cl1 := process_roots EpsilonScanOopClosure.do_oop_work cl0 r in
  let reachable_roots := Z.of_nat (length (EpsilonScanOopClosure.stack cl1)) in
  match mark_loop (mark_fuel mem r) mem cl1 0 with
  | Returned (cl2, reachable_heap) =>
      Returned (EpsilonScanOopClosure.bitmap cl2, reachable_roots,
                reachable_heap)
  | OutOfFuel => OutOfFuel
  end.

(** Step 2: calculate new locations. *)
Definition calc_phase (sp : ContiguousSpace) (bitmap : gset Z) (mem : Memory)
  : EpsilonCalcNewLocationObjectClosure.t :=
  walk_bitmap sp bitmap EpsilonCalcNewLocationObjectClosure.do_object
    {| EpsilonCalcNewLocationObjectClosure.compact_point := cs_bottom sp;
       EpsilonCalcNewLocationObjectClosure.preserved_marks := [];
       EpsilonCalcNewLocationObjectClosure.mem := mem |}.

(** Step 3: adjust pointers, in the heap, in the roots and in the
    preserved marks. *)
Definition adjust_phase (sp : ContiguousSpace) (bitmap : gset Z)
    (mem : Memory) (r : Roots) (pm : PreservedMarks)
  : Memory * Roots * PreservedMarks :=
  let mem' :=
    walk_bitmap sp bitmap EpsilonAdjustPointersObjectClosure.do_object mem in
  let r' :=
    process_roots_update
      (EpsilonAdjustPointersOopClosure.do_oop_work mem') r in
  (mem', r', adjust_during_full_gc mem' pm).

(** Step 4: move objects. *)
Definition move_phase (sp : ContiguousSpace) (bitmap : gset Z) (mem : Memory)
  : EpsilonMoveObjectsObjectClosure.t :=
  walk_bitmap sp bitmap EpsilonMoveObjectsObjectClosure.do_object
    {| EpsilonMoveObjectsObjectClosure.moved := 0;
       EpsilonMoveObjectsObjectClosure.mem := mem |}.

(** Step 5, the loop of lines 849-853. *)
Fixpoint verify_loop (fuel : nat) (sp : ContiguousSpace) (mem : Memory)
    (cl : EpsilonVerifyOopClosure.t) (verified_heap : Z) {struct fuel}
  : Run (EpsilonVerifyOopClosure.t * Z) :=
  match EpsilonVerifyOopClosure.stack cl with
  | [] => Returned (cl, verified_heap)
  | obj :: rest =>
      match fuel with
      | O => OutOfFuel
      | S fuel' =>
          verify_loop fuel' sp mem
            (EpsilonVerifyOopClosure.oop_iterate sp mem obj
               {| EpsilonVerifyOopClosure.stack := rest;
                  EpsilonVerifyOopClosure.bitmap :=
                    EpsilonVerifyOopClosure.bitmap cl;
                  EpsilonVerifyOopClosure.ok :=
                    EpsilonVerifyOopClosure.ok cl |})
            (verified_heap + 1)
      end
  end.

(** Step 5, the block under [EpsilonVerify]: the bitmap after the second
    marking, and whether every guarantee held. *)
Definition verify_phase (sp : ContiguousSpace) (mem : Memory) (r : Roots)
    (reachable_roots reachable_heap : Z) : Run (gset Z * bool) :=
  let cl0 := {| EpsilonVerifyOopClosure.stack := [];
                EpsilonVerifyOopClosure.bitmap := ∅;
                EpsilonVerifyOopClosure.ok := true |} in
  let cl1 := process_roots (EpsilonVerifyOopClosure.do_oop_work sp mem) cl0 r in
  let verified_roots := Z.of_nat (length (EpsilonVerifyOopClosure.stack cl1)) in
  match verify_loop (mark_fuel mem r) sp mem cl1 0 with
  | Returned (cl2, verified_heap) =>
      Returned (EpsilonVerifyOopClosure.bitmap cl2,
                EpsilonVerifyOopClosure.ok cl2
                && (verified_roots =? reachable_roots)
                && (verified_heap =? reachable_heap))
  | OutOfFuel => OutOfFuel
  end.

(** How a call of [entry_collect] ends. *)
Inductive CollectOutcome : Type :=
  | SkippedLockerActive
  | BitmapCommitFailed
  | Completed (stats : GCStats)
  | GuaranteeFailed
  | Diverged.

Definition warn (msg : string) (h : EpsilonHeap) : EpsilonHeap :=
  {| h_space := h_space h; h_virtual_space := h_virtual_space h;
     h_mem := h_mem h; h_roots := h_roots h; h_bitmap := h_bitmap h;
     h_gc_locker := h_gc_locker h; h_warnings := h_warnings h ++ [msg] |}.

(** [EpsilonHeap::entry_collect(cause)]. A successful commit hands out
    zeroed pages, so the bitmap is clear when marking starts;
    [ensure_parsability] retires the TLABs and leaves the objects and
    [top] alone. *)
Definition entry_collect (g : Globals) (os : OsAnswers) (h : EpsilonHeap)
  : CollectOutcome * EpsilonHeap :=
  if GCLocker_is_active (h_gc_locker h) then (SkippedLockerActive, h)
  else if negb (commit_memory_ok os) then
    (BitmapCommitFailed,
     warn "Could not commit native memory for marking bitmap, GC failed" h)
  else
    let sp := h_space h in
    (* Step 1: Mark *)
    match mark_phase (h_mem h) (h_roots h) ∅ with
    | OutOfFuel => (Diverged, h)
    | Returned (bitmap, reachable_roots, reachable_heap) =>
        (* Step 2: Calculate new locations *)
        let calc := calc_phase sp bitmap (h_mem h) in
        let new_top := EpsilonCalcNewLocationObjectClosure.compact_point calc in
        let preserved_marks :=
          EpsilonCalcNewLocationObjectClosure.preserved_marks calc in
        let preserved := Z.of_nat (length preserved_marks) in
        (* Step 3: Adjust pointers *)
        let '(mem3, roots3, preserved_marks3) :=
          adjust_phase sp bitmap
            (EpsilonCalcNewLocationObjectClosure.mem calc) (h_roots h)
            preserved_marks in
        (* Step 4: Move objects *)
        let mv := move_phase sp bitmap mem3 in
        let sp4 := set_top new_top sp in
        (* Step 5: Epilogue *)
        let mem5 := restore preserved_marks3
                      (EpsilonMoveObjectsObjectClosure.mem mv) in
        let verified :=
          if EpsilonVerify g
          then verify_phase sp4 mem5 roots3 reachable_roots reachable_heap
          else Returned (bitmap, true) in
        match verified with
        | OutOfFuel => (Diverged, h)
        | Returned (bitmap5, guarantees) =>
            let warnings :=
              if uncommit_memory_ok os then h_warnings h
              else h_warnings h ++
                   ["Could not uncommit native memory for marking bitmap"] in
            let bitmap6 := if uncommit_memory_ok os then ∅ else bitmap5 in
            let vs6 :=
              if EpsilonUncommit g
              then shrink_by (os_vm_page_size g)
                     ((cs_end sp4 - new_top) * HeapWordSize g)
                     (h_virtual_space h)
              else h_virtual_space h in
            let sp6 :=
              if EpsilonUncommit g
              then set_end (vs_high vs6 / HeapWordSize g) sp4
              else sp4 in
            let h' := {| h_space := sp6; h_virtual_space := vs6;
                         h_mem := mem5; h_roots := roots3;
                         h_bitmap := bitmap6;
                         h_gc_locker := h_gc_locker h;
                         h_warnings := warnings |} in
            if guarantees
            then (Completed {| stat_reachable_roots := reachable_roots;
                               stat_reachable_heap := reachable_heap;
                               stat_moved :=
                                 EpsilonMoveObjectsObjectClosure.moved mv;
                               stat_preserved_marks := preserved |},
                  h')
            else (GuaranteeFailed, h')
        end
    end.

(** ** Heap set-up (EpsilonHeap::initialize) *)

(** The flags [initialize] reads beside those of [Globals], and what the
    host answers: [CollectedHeap::max_tlab_size()], the base address of
    the heap that [Universe::reserve_heap] reserved, and whether the
    bitmap was reserved. *)
Record HeapFlags : Type := {
  HeapAlignment : Z;
  InitialHeapSize : Z;
  MaxHeapSize : Z;
  EpsilonMaxTLABSize : Z;
  EpsilonUpdateCountersStep : Z;
  EpsilonPrintHeapSteps : Z;
  EpsilonTLABDecayTime : Z;
  CollectedHeap_max_tlab_size : Z;
  heap_rs_base : Z;
  bitmap_is_reserved : bool
}.

(** The fields [initialize] precomputes for the TLAB path. *)
Record TlabSettings : Type := {
  ts_max_tlab_size : Z;
  ts_decay_time_ns : Z
}.

Definition NANOSECS_PER_MILLISEC : Z := 1000000.

(** [align_object_size(size)]. *)
Definition align_object_size (g : Globals) (size : Z) : Z :=
  align_up size (MinObjAlignment g).

(** Modelled from the spec: [VirtualSpace::initialize(rs, committed_size)]
    takes the whole reservation and commits its first [committed_size]
    bytes. *)
Definition VirtualSpace_initialize (base size committed_size : Z)
  : VirtualSpace :=
  {| vs_low_boundary := base; vs_high_boundary := base + size;
     vs_low := base; vs_high := base + committed_size |}.

(** Modelled from the spec: [ContiguousSpace::initialize(mr, clear_space,
    mangle_space)] with [clear_space] set: the space is the region, and it
    is empty. *)
Definition ContiguousSpace_initialize (start_ end_ : Z) : ContiguousSpace :=
  {| cs_bottom := start_; cs_top := start_; cs_end := end_ |}.

(** [EpsilonHeap::initialize()]: the allocation state and the TLAB
    settings, or [None] for [vm_exit_during_initialization]. *)
Definition initialize (g : Globals) (f : HeapFlags)
  : option (AllocState * TlabSettings) :=
  let align := HeapAlignment f in
  let init_byte_size := align_up (InitialHeapSize f) align in
  let max_byte_size := align_up (MaxHeapSize f) align in
  let vs :=
    VirtualSpace_initialize (heap_rs_base f) max_byte_size init_byte_size in
  let sp :=
    ContiguousSpace_initialize (vs_low vs / HeapWordSize g)
      (vs_high vs / HeapWordSize g) in
  if EpsilonSlidingGC g && negb (bitmap_is_reserved f) then None
  else
    Some ({| a_space := sp; a_virtual_space := vs;
             a_last_counter_update := 0; a_last_heap_print := 0;
             a_step_counter_update :=
               MIN2 (max_byte_size / 16) (EpsilonUpdateCountersStep f);
             a_step_heap_print :=
               if EpsilonPrintHeapSteps f =? 0 then SIZE_MAX
               else max_byte_size / EpsilonPrintHeapSteps f;
             a_counter_updates := 0; a_heap_prints := 0 |},
          {| ts_max_tlab_size :=
               MIN2 (CollectedHeap_max_tlab_size f)
                 (align_object_size g
                    (EpsilonMaxTLABSize f / HeapWordSize g));
             ts_decay_time_ns :=
               EpsilonTLABDecayTime f * NANOSECS_PER_MILLISEC |}).

(** [EpsilonHeap::unsafe_max_tlab_alloc(thr)], in bytes. *)
Definition unsafe_max_tlab_alloc (g : Globals) (ts : TlabSettings) : Z :=
  size_t_mul (ts_max_tlab_size ts) (HeapWordSize g).

(** ** The heap as a whole: allocation, collection requests and
       collections on one state *)

(** The watermarks and steps of the allocation path, and how often the
    monitoring counters were updated and the occupancy line printed. *)
Record Monitoring : Type := {
  m_last_counter_update : Z;
  m_last_heap_print : Z;
  m_step_counter_update : Z;
  m_step_heap_print : Z;
  m_counter_updates : nat;
  m_heap_prints : nat
}.

Record VM : Type := {
  vm_heap : EpsilonHeap;
  vm_monitoring : Monitoring;
  vm_requests : CollectRequests
}.

Definition set_vm_heap (h : EpsilonHeap) (vm : VM) : VM :=
  {| vm_heap := h; vm_monitoring := vm_monitoring vm;
     vm_requests := vm_requests vm |}.

Definition set_vm_requests (r : CollectRequests) (vm : VM) : VM :=
  {| vm_heap := vm_heap vm; vm_monitoring := vm_monitoring vm;
     vm_requests := r |}.

(** What [allocate_work] reads of the heap. *)
Definition alloc_view (vm : VM) : AllocState :=
  {| a_space := h_space (vm_heap vm);
     a_virtual_space := h_virtual_space (vm_heap vm);
     a_last_counter_update := m_last_counter_update (vm_monitoring vm);
     a_last_heap_print := m_last_heap_print (vm_monitoring vm);
     a_step_counter_update := m_step_counter_update (vm_monitoring vm);
     a_step_heap_print := m_step_heap_print (vm_monitoring vm);
     a_counter_updates := m_counter_updates (vm_monitoring vm);
     a_heap_prints := m_heap_prints (vm_monitoring vm) |}.

(** What [allocate_work] writes to the heap. *)
Definition set_alloc_view (a : AllocState) (vm : VM) : VM :=
  {| vm_heap :=
       {| h_space := a_space a; h_virtual_space := a_virtual_space a;
          h_mem := h_mem (vm_heap vm); h_roots := h_roots (vm_heap vm);
          h_bitmap := h_bitmap (vm_heap vm);
          h_gc_locker := h_gc_locker (vm_heap vm);
          h_warnings := h_warnings (vm_heap vm) |};
     vm_monitoring :=
       {| m_last_counter_update := a_last_counter_update a;
          m_last_heap_print := a_last_heap_print a;
          m_step_counter_update := a_step_counter_update a;
          m_step_heap_print := a_step_heap_print a;
          m_counter_updates := a_counter_updates a;
          m_heap_prints := a_heap_prints a |};
     vm_requests := vm_requests vm |}.

(** [allocate_work(size, verbose)] on the whole heap. *)
Definition allocate_work_in (fuel : nat) (g : Globals) (size : Z)
    (verbose : bool) (vm : VM) : Run (option Z * VM) :=
  match allocate_work fuel g size verbose (alloc_view vm) with
  | Returned (res, a) => Returned (res, set_alloc_view a vm)
  | OutOfFuel => OutOfFuel
  end.

(** [EpsilonHeap::allocate_loaded_archive_space(size)]. *)
Definition allocate_loaded_archive_space (fuel : nat) (g : Globals)
    (size : Z) (vm : VM) : Run (option Z * VM) :=
  allocate_work_in fuel g size false vm.

(** [print_heap_info(used)]: one more occupancy line. *)
Definition print_heap_info (m : Monitoring) : Monitoring :=
  {| m_last_counter_update := m_last_counter_update m;
     m_last_heap_print := m_last_heap_print m;
     m_step_counter_update := m_step_counter_update m;
     m_step_heap_print := m_step_heap_print m;
     m_counter_updates := m_counter_updates m;
     m_heap_prints := S (m_heap_prints m) |}.

(** [entry_collect(cause)] on the whole heap. A cycle that gets to its
    end prints the occupancy line (epsilonHeap.cpp, line 885); one that
    returns early, or that a guarantee ends, does not. *)
Definition entry_collect_in (g : Globals) (os : OsAnswers) (vm : VM)
  : CollectOutcome * VM :=
  let '(outcome, h') := entry_collect g os (vm_heap vm) in
  (outcome,
   {| vm_heap := h';
      vm_monitoring :=
        match outcome with
        | Completed _ => print_heap_info (vm_monitoring vm)
        | _ => vm_monitoring vm
        end;
      vm_requests := vm_requests vm |}).

(** Modelled from the spec: [VMThread::execute(op)] (runtime/vmThread.cpp is
    not part of the sources at hand) runs [doit_prologue] in the requesting
    thread; if that returns true, [doit] runs at a safepoint and
    [doit_epilogue] follows; otherwise the operation is dropped. Here for
    [VM_EpsilonCollect], with [id] the request id the prologue loads on
    entry; the result tells how [entry_collect] ended, if it ran. *)
Definition VMThread_execute (g : Globals) (os : OsAnswers) (id : Z) (vm : VM)
  : option CollectOutcome * VM :=
  match doit_prologue id (vm_requests vm) with
  | (true, r) =>
      let '(outcome, vm1) := entry_collect_in g os (set_vm_requests r vm) in
      (Some outcome, set_vm_requests (doit_epilogue (vm_requests vm1)) vm1)
  | (false, r) => (None, set_vm_requests r vm)
  end.

(** [EpsilonHeap::vmentry_collect(cause)] with no other request in
    between: the prologue loads the current request id. *)
Definition vmentry_collect (g : Globals) (os : OsAnswers) (vm : VM)
  : option CollectOutcome * VM :=
  VMThread_execute g os (req_id (vm_requests vm)) vm.

(** Modelled from the spec: the default of the parameter [verbose] of
    [allocate_work] and [allocate_or_collect_work] (epsilonHeap.hpp is not
    part of the sources at hand). *)
Definition default_verbose : bool := true.

(** [EpsilonHeap::allocate_or_collect_work(size, verbose)]. The bracket of
    [GCLocker::block()] and [GCLocker::unblock()] keeps new critical
    sections out and leaves the reader counter alone. *)
Definition allocate_or_collect_work (fuel : nat) (g : Globals)
    (os : OsAnswers) (size : Z) (verbose : bool) (vm : VM)
  : Run (option Z * VM) :=
  match allocate_work_in fuel g size default_verbose vm with
  | Returned (None, vm1) =>
      if EpsilonSlidingGC g && EpsilonImplicitGC g then
        let vm2 := snd (vmentry_collect g os vm1) in
        allocate_work_in fuel g size verbose vm2
      else Returned (None, vm1)
  | r => r
  end.

(** [EpsilonHeap::mem_allocate(size)]. *)
Definition mem_allocate (fuel : nat) (g : Globals) (os : OsAnswers)
    (size : Z) (vm : VM) : Run (option Z * VM) :=
  allocate_or_collect_work fuel g os size default_verbose vm.

(** The causes [collect] tells apart. *)
Inductive GCCause : Type :=
  | _metadata_GC_threshold
  | _metadata_GC_clear_soft_refs
  | _other_cause.

(** [_monitoring_support->update_counters()]. *)
Definition update_counters (m : Monitoring) : Monitoring :=
  {| m_last_counter_update := m_last_counter_update m;
     m_last_heap_print := m_last_heap_print m;
     m_step_counter_update := m_step_counter_update m;
     m_step_heap_print := m_step_heap_print m;
     m_counter_updates := S (m_counter_updates m);
     m_heap_prints := m_heap_prints m |}.

(** [EpsilonHeap::collect(cause)]; [at_safepoint] is
    [SafepointSynchronize::is_at_safepoint()]. The metaspace resizing of
    the first two causes is the host's and leaves the heap alone. *)
Definition collect (g : Globals) (os : OsAnswers) (at_safepoint : bool)
    (cause : GCCause) (vm : VM) : VM :=
  let vm1 :=
    match cause with
    | _metadata_GC_threshold | _metadata_GC_clear_soft_refs => vm
    | _other_cause =>
        if EpsilonSlidingGC g then
          if at_safepoint
          then snd (entry_collect_in g os vm)
          else snd (vmentry_collect g os vm)
        else vm
    end in
  {| vm_heap := vm_heap vm1;
     vm_monitoring := update_counters (vm_monitoring vm1);
     vm_requests := vm_requests vm1 |}.

(** [EpsilonHeap::do_full_collection(clear_all_soft_refs)], with
    [gc_cause()] given. *)
Definition do_full_collection (g : Globals) (os : OsAnswers)
    (at_safepoint : bool) (gc_cause : GCCause) (vm : VM) : VM :=
  collect g os at_safepoint gc_cause vm.

(** * The vocabulary of the properties

    What the statements below are written in: the objects a walk visits,
    their layout, reachability, well-formed and compacted heaps, the
    invariants of the loops, and the heaps of the examples. *)

(** Flags with the sliding collector switched off. *)
Definition exact_fit_globals : Globals :=
  {| HeapWordSize := 8; MinObjAlignment := 1; os_vm_page_size := 4096;
     EpsilonMinHeapExpand := 1024;
     EpsilonElasticTLAB := true; EpsilonElasticTLABDecay := true;
     elastic_scale := λ e, e * 11 / 10;
     EpsilonSlidingGC := false; EpsilonImplicitGC := false;
     EpsilonVerify := false; EpsilonUncommit := false |}.

(** The heap of the exact-fit example: 4096 bytes reserved, 2048 committed
    and used; the request is for 256 words of 8 bytes. *)
Definition exact_fit_heap : AllocState :=
  {| a_space := {| cs_bottom := 100; cs_top := 356; cs_end := 356 |};
     a_virtual_space := {| vs_low_boundary := 800; vs_high_boundary := 4896;
                           vs_low := 800; vs_high := 2848 |};
     a_last_counter_update := 0; a_last_heap_print := 0;
     a_step_counter_update := 256; a_step_heap_print := 256;
     a_counter_updates := 0%nat; a_heap_prints := 0%nat |}.

(** The data of a thread after its first TLAB, allocated with
    [exact_fit_globals] at time 3000 from an allocator that bumps a
    pointer. *)
Definition busy_thread_data : EpsilonThreadLocalData :=
  let alloc := λ (size : Z) (top : Z), (Some top, top + size) in
  (allocate_new_tlab exact_fit_globals 1000 1000 3000 alloc 8 333
     fresh_thread_data 4000).1.2.

(** The claim as stated: every call changes the reader counter. *)
Definition pin_always_counts : Prop :=
  ∀ (g : Globals) (thread obj : Z) (l : GCLocker),
    gcl_readers (pin_object g thread obj l) = gcl_readers l + 1
    ∧ gcl_readers (unpin_object g thread obj l) = gcl_readers l - 1.

(** Flags with the sliding collector, implicit collections and
    verification switched on. *)
Definition sliding_globals : Globals :=
  {| HeapWordSize := 8; MinObjAlignment := 1; os_vm_page_size := 4096;
     EpsilonMinHeapExpand := 1024;
     EpsilonElasticTLAB := true; EpsilonElasticTLABDecay := true;
     elastic_scale := λ e, e * 11 / 10;
     EpsilonSlidingGC := true; EpsilonImplicitGC := true;
     EpsilonVerify := true; EpsilonUncommit := false |}.

(** The rule of the specification, with its non-strict comparisons:
    expand by [want] if [want <= uncommitted], else by the uncommitted
    remainder if [n * word <= unused], else give up. *)
Definition expand_decision_as_specified (g : Globals) (size : Z)
    (h : AllocState) : ExpandDecision :=
  let size_in_bytes := size * HeapWordSize g in
  let uncommitted := max_capacity h - capacity h in
  let unused := max_capacity h - used g h in
  let want := MAX2 size_in_bytes (EpsilonMinHeapExpand g) in
  if want <=? uncommitted then ExpandBy want
  else if size_in_bytes <=? unused then ExpandBy uncommitted
  else NoSpaceLeft.

(** The space sits on the virtual space: [bottom] is its low end and
    [end] its committed high end, [top] lies between them, and nothing
    is committed beyond the reservation. *)
Record alloc_wf (g : Globals) (h : AllocState) : Prop := {
  awf_word : 0 < HeapWordSize g;
  awf_low : vs_low (a_virtual_space h) = cs_bottom (a_space h) * HeapWordSize g;
  awf_low_boundary :
    vs_low_boundary (a_virtual_space h) = vs_low (a_virtual_space h);
  awf_high : vs_high (a_virtual_space h) = cs_end (a_space h) * HeapWordSize g;
  awf_top : cs_bottom (a_space h) ≤ cs_top (a_space h) ≤ cs_end (a_space h);
  awf_reserved :
    vs_high (a_virtual_space h) ≤ vs_high_boundary (a_virtual_space h);
  awf_fits : max_capacity h < size_t_modulus
}.

(** The referenced objects: the non-null values among the oop fields. *)
Definition referenced (fields : list Z) : list Z :=
  filter (λ o, o ≠ 0) fields.


(** Three objects of four words each; A at 100 is a root and refers to C
    at 108, whose mark word carries a hash code; B at 104 is garbage. *)
Definition three_object_memory : Memory :=
  <[100 := {| o_size := 4; o_mark := mark_prototype; o_fields := [108] |}]>
  (<[104 := {| o_size := 4; o_mark := mark_prototype; o_fields := [100] |}]>
  (<[108 := {| o_size := 4; o_mark := mark_must_be_preserved 7;
               o_fields := [100; 0] |}]> ∅)).

(** The heap of the three objects, with [readers] threads holding the pin
    lock. *)
Definition three_object_heap (readers : Z) : EpsilonHeap :=
  {| h_space := {| cs_bottom := 100; cs_top := 112; cs_end := 200 |};
     h_virtual_space := {| vs_low_boundary := 800; vs_high_boundary := 4000;
                           vs_low := 800; vs_high := 1600 |};
     h_mem := three_object_memory;
     h_roots := {| strong_oops := [100]; cld_oops := []; thread_oops := [0];
                   nmethod_oops := []; weak_oops := [] |};
     h_bitmap := ∅;
     h_gc_locker := {| gcl_readers := readers |};
     h_warnings := [] |}.

(** The marked addresses of [lo, hi), in increasing order. *)
Definition marked_in (bitmap : gset Z) (lo hi : Z) : list Z :=
  filter (λ a, a ∈ bitmap) (seqZ lo (hi - lo)).

(** The heap is parsable: an object that starts in [bottom, top) has a
    positive size and ends by [top], and two such objects do not
    overlap. *)
Record parsable (sp : ContiguousSpace) (mem : Memory) : Prop := {
  parsable_size : ∀ a ob,
    mem !! a = Some ob → cs_bottom sp ≤ a < cs_top sp →
    0 < o_size ob ∧ a + o_size ob ≤ cs_top sp;
  parsable_disjoint : ∀ a b oa ob,
    mem !! a = Some oa → mem !! b = Some ob →
    cs_bottom sp ≤ a → a < b → b < cs_top sp →
    a + o_size oa ≤ b
}.

(** The objects at the addresses [L] lie in [lo, hi), one after the
    other. *)
Fixpoint laid_out (mem : Memory) (lo hi : Z) (L : list Z) : Prop :=
  match L with
  | [] => lo ≤ hi
  | o :: L' =>
      lo ≤ o ∧ is_Some (mem !! o) ∧ 0 < obj_size mem o
      ∧ laid_out mem (o + obj_size mem o) hi L'
  end.

(** The words the objects at [L] take. *)
Definition total_size (mem : Memory) (L : list Z) : Z :=
  foldr (λ o s, obj_size mem o + s) 0 L.

(** The closure after the walk of step 2 over [L], started at [cl]. *)
Definition calc_walk (cl : EpsilonCalcNewLocationObjectClosure.t)
    (L : list Z) : EpsilonCalcNewLocationObjectClosure.t :=
  foldl (λ c o, EpsilonCalcNewLocationObjectClosure.do_object o c) cl L.

(** The objects reachable from the root slots through reference slots. *)
Inductive reachable (mem : Memory) (roots : list Z) : Z → Prop :=
  | reachable_root o :
      o ∈ roots → o ≠ 0 → reachable mem roots o
  | reachable_field o o' :
      reachable mem roots o → o' ∈ obj_fields mem o → o' ≠ 0 →
      reachable mem roots o'.

(** Every address a slot can hold. *)
Definition slot_values (mem : Memory) (roots : Roots) : gset Z :=
  list_to_set (all_slots mem roots).

(** What holds each time round the marking loop, [n] rounds in. *)
Record mark_inv (mem : Memory) (roots : Roots)
    (cl : EpsilonScanOopClosure.t) (n : Z) : Prop := {
  inv_nodup : NoDup (EpsilonScanOopClosure.stack cl);
  inv_stack_marked : ∀ o,
    o ∈ EpsilonScanOopClosure.stack cl → o ∈ EpsilonScanOopClosure.bitmap cl;
  inv_count :
    n + Z.of_nat (length (EpsilonScanOopClosure.stack cl))
    = Z.of_nat (size (EpsilonScanOopClosure.bitmap cl));
  inv_sound : ∀ o,
    o ∈ EpsilonScanOopClosure.bitmap cl →
    reachable mem (root_slots roots) o;
  inv_roots : ∀ o,
    o ∈ root_slots roots → o ≠ 0 → o ∈ EpsilonScanOopClosure.bitmap cl;
  inv_closed : ∀ o,
    o ∈ EpsilonScanOopClosure.bitmap cl →
    o ∉ EpsilonScanOopClosure.stack cl →
    ∀ f, f ∈ obj_fields mem o → f ≠ 0 →
         f ∈ EpsilonScanOopClosure.bitmap cl;
  inv_universe : EpsilonScanOopClosure.bitmap cl ⊆ slot_values mem roots
}.

(** The space of the three objects. *)
Definition three_object_space : ContiguousSpace :=
  {| cs_bottom := 100; cs_top := 112; cs_end := 200 |}.

(** After step 2, the marked objects [L] lie in [lo, hi) one after the
    other, and each is forwarded to the running compact point [cp] unless
    it is already there. *)
Fixpoint forwarded_layout (mem : Memory) (cp lo hi : Z) (L : list Z) : Prop :=
  match L with
  | [] => cp ≤ lo ≤ hi
  | o :: L' =>
      cp ≤ lo ≤ o
      ∧ ∃ ob, mem !! o = Some ob ∧ 0 < o_size ob
          ∧ (if decide (o = cp) then is_marked (o_mark ob) = false
             else o_mark ob = mark_forwarded cp)
          ∧ forwarded_layout mem (cp + o_size ob) (o + o_size ob) hi L'
  end.

(** Memories that agree on what lies at the addresses [L], up to the
    reference slots. *)
Definition same_headers (L : list Z) (mem mem' : Memory) : Prop :=
  ∀ a ob, a ∈ L → mem !! a = Some ob →
    ∃ ob', mem' !! a = Some ob' ∧ o_size ob' = o_size ob
           ∧ o_mark ob' = o_mark ob.

(** An object with its reference slots adjusted against the marks of
    [mem]. *)
Definition adjust_object (mem : Memory) (ob : oopDesc) : oopDesc :=
  set_fields
    (map (EpsilonAdjustPointersOopClosure.do_oop_work mem) (o_fields ob)) ob.

(** Memory after the walk of step 3 over [L]. *)
Definition adjust_walk (mem : Memory) (L : list Z) : Memory :=
  foldl (λ m o, EpsilonAdjustPointersObjectClosure.do_object o m) mem L.

(** The closure after the walk of step 4 over [L], started at [cl]. *)
Definition move_walk (cl : EpsilonMoveObjectsObjectClosure.t) (L : list Z)
  : EpsilonMoveObjectsObjectClosure.t :=
  foldl (λ c o, EpsilonMoveObjectsObjectClosure.do_object o c) cl L.

(** What lies at the compact point [cp] once the object [ob] from [o] has
    been moved there, or has stayed there. *)
Definition moved_object (o cp : Z) (ob : oopDesc) : oopDesc :=
  if decide (o = cp) then ob else set_mark mark_prototype ob.

(** The objects at [L] in [src] lie in [mem'] one after the other from
    [cp] on. *)
Fixpoint placed (mem' src : Memory) (cp : Z) (L : list Z) : Prop :=
  match L with
  | [] => True
  | o :: L' =>
      ∃ ob, src !! o = Some ob
            ∧ mem' !! cp = Some (moved_object o cp ob)
            ∧ placed mem' src (cp + o_size ob) L'
  end.

(** The objects at [L] in [mem] lie in [mem'] one after the other from
    [cp] on, with their reference slots mapped by [φ], which also tells
    where each of them now is. *)
Fixpoint slid (mem' mem : Memory) (φ : Z → Z) (cp : Z) (L : list Z) : Prop :=
  match L with
  | [] => True
  | o :: L' =>
      φ o = cp
      ∧ ∃ ob ob', mem !! o = Some ob ∧ mem' !! cp = Some ob'
          ∧ 0 < o_size ob ∧ o_size ob' = o_size ob
          ∧ o_fields ob' = map φ (o_fields ob)
          ∧ is_marked (o_mark ob') = false
          ∧ slid mem' mem φ (cp + o_size ob) L'
  end.

(** The objects at [L] tile [cp, hi), and none carries a forwarding
    pattern. *)
Fixpoint tight (mem : Memory) (cp hi : Z) (L : list Z) : Prop :=
  match L with
  | [] => cp = hi
  | o :: L' =>
      o = cp
      ∧ ∃ ob, mem !! o = Some ob ∧ 0 < o_size ob
          ∧ is_marked (o_mark ob) = false
          ∧ tight mem (cp + o_size ob) hi L'
  end.

(** A heap the collector can work on: [0 < bottom <= top], the heap is
    parsable, and what is reachable from the roots is an object of the
    space that carries no forwarding pattern. *)
Record heap_wf (sp : ContiguousSpace) (mem : Memory) (roots : Roots)
  : Prop := {
  wf_bottom : 0 < cs_bottom sp ≤ cs_top sp;
  wf_parsable : parsable sp mem;
  wf_reachable : ∀ o,
    reachable mem (root_slots roots) o →
    cs_bottom sp ≤ o < cs_top sp
    ∧ ∃ ob, mem !! o = Some ob ∧ is_marked (o_mark ob) = false
}.

(** A compacted heap: the reachable objects tile [bottom, top). *)
Definition compacted (sp : ContiguousSpace) (mem : Memory) (roots : Roots)
  : Prop :=
  0 < cs_bottom sp
  ∧ ∃ L, tight mem (cs_bottom sp) (cs_top sp) L
         ∧ ∀ o, reachable mem (root_slots roots) o ↔ o ∈ L.

(** The stack and the bitmap of the verifying closure, as a scanning
    closure. *)
Definition scan_view (v : EpsilonVerifyOopClosure.t)
  : EpsilonScanOopClosure.t :=
  {| EpsilonScanOopClosure.stack := EpsilonVerifyOopClosure.stack v;
     EpsilonScanOopClosure.bitmap := EpsilonVerifyOopClosure.bitmap v |}.

(** [cl'] is [cl] as the moved objects see it. *)
Definition moved_view (φ : Z → Z) (L : list Z)
    (cl cl' : EpsilonScanOopClosure.t) : Prop :=
  EpsilonScanOopClosure.stack cl' = map φ (EpsilonScanOopClosure.stack cl)
  ∧ (∀ o, o ∈ EpsilonScanOopClosure.bitmap cl → o ∈ L)
  ∧ ∀ o', o' ∈ EpsilonScanOopClosure.bitmap cl'
          ↔ ∃ o, o ∈ EpsilonScanOopClosure.bitmap cl ∧ o' = φ o.

(** An operating system that commits and uncommits as asked. *)
Definition os_all_fine : OsAnswers :=
  {| commit_memory_ok := true; uncommit_memory_ok := true |}.

(** *** The vocabulary of the further properties *)

(** What every allocation keeps: the space starts where the virtual space
    does, [end] is the committed high end in words, [top] lies between
    [bottom] and [end], and nothing is committed beyond the reservation.
    Unlike [alloc_wf] it does not ask the committed bytes to be whole
    words, which an expansion by [EpsilonMinHeapExpand] need not keep. *)
Record alloc_inv (g : Globals) (h : AllocState) : Prop := {
  ainv_word : 0 < HeapWordSize g;
  ainv_low : vs_low (a_virtual_space h) = cs_bottom (a_space h) * HeapWordSize g;
  ainv_low_boundary :
    vs_low_boundary (a_virtual_space h) = vs_low (a_virtual_space h);
  ainv_end :
    cs_end (a_space h) = vs_high (a_virtual_space h) / HeapWordSize g;
  ainv_top : cs_bottom (a_space h) ≤ cs_top (a_space h) ≤ cs_end (a_space h);
  ainv_reserved :
    vs_high (a_virtual_space h) ≤ vs_high_boundary (a_virtual_space h);
  ainv_fits : max_capacity h < size_t_modulus
}.

(** The words [a, a + n). *)
Definition block (a n : Z) : Z → Prop := λ w, a ≤ w < a + n.

(** The watermarks, steps and counts of an allocation state. *)
Definition monitoring_of (h : AllocState) : Monitoring :=
  {| m_last_counter_update := a_last_counter_update h;
     m_last_heap_print := a_last_heap_print h;
     m_step_counter_update := a_step_counter_update h;
     m_step_heap_print := a_step_heap_print h;
     m_counter_updates := a_counter_updates h;
     m_heap_prints := a_heap_prints h |}.

(** Collection requests served one after the other, each with the request
    id it loaded on entry. *)
Definition serve_requests (g : Globals) (os : OsAnswers) (ids : list Z)
    (vm : VM) : VM :=
  foldl (λ vm id, snd (VMThread_execute g os id vm)) vm ids.

(** A VM around the heap of the three objects. *)
Definition three_object_vm (readers : Z) : VM :=
  {| vm_heap := three_object_heap readers;
     vm_monitoring := monitoring_of exact_fit_heap;
     vm_requests := {| req_id := 4; heap_lock_held := false |} |}.

(** The objects of a heap that are reachable from its roots. *)
Definition live (h : EpsilonHeap) (o : Z) : Prop :=
  reachable (h_mem h) (root_slots (h_roots h)) o.

(** Where a cycle on the heap [h] sends the object at [o]: the forwarding
    steps 1 and 2 leave in the mark words, as step 3 reads it. *)
Definition new_address (h : EpsilonHeap) : Z → Z :=
  match mark_phase (h_mem h) (h_roots h) ∅ with
  | Returned (bitmap, _, _) =>
      EpsilonAdjustPointersOopClosure.do_oop_work
        (EpsilonCalcNewLocationObjectClosure.mem
           (calc_phase (h_space h) bitmap (h_mem h)))
  | OutOfFuel => λ o, o
  end.

(** The marks step 2 saves on its walk over [L], oldest first: those of
    the objects forwarded in [mem'] whose mark in [mem] must be
    preserved. *)
Definition saved_marks (mem mem' : Memory) (L : list Z) : PreservedMarks :=
  map (λ o, (o, obj_mark mem o))
    (filter (λ o, is_forwarded mem' o = true
                  ∧ must_be_preserved (obj_mark mem o) = true) L).

Definition set_gc_locker (l : GCLocker) (h : EpsilonHeap) : EpsilonHeap :=
  {| h_space := h_space h; h_virtual_space := h_virtual_space h;
     h_mem := h_mem h; h_roots := h_roots h; h_bitmap := h_bitmap h;
     h_gc_locker := l; h_warnings := h_warnings h |}.

(** The heap the cycle on the three objects leaves. *)
Definition three_object_heap_collected : EpsilonHeap :=
  snd (entry_collect sliding_globals os_all_fine (three_object_heap 0)).

(** Flags for a heap of 4 KB that may grow to 12 KB, reserved at byte
    address 8192. *)
Definition small_heap_flags : HeapFlags :=
  {| HeapAlignment := 4096; InitialHeapSize := 1000; MaxHeapSize := 10000;
     EpsilonMaxTLABSize := 4194304; EpsilonUpdateCountersStep := 1048576;
     EpsilonPrintHeapSteps := 20; EpsilonTLABDecayTime := 1000;
     CollectedHeap_max_tlab_size := 131072; heap_rs_base := 8192;
     bitmap_is_reserved := true |}.

(** * Properties *)

(** ** Machine integers *)

Lemma to_size_t_small z : 0 ≤ z < size_t_modulus → to_size_t z = z.
Proof. intros Hz. unfold to_size_t. by apply Z.mod_small. Qed.

Lemma MAX2_ge_l a b : a ≤ MAX2 a b.
Proof. unfold MAX2. destruct (Z.gtb_spec a b); lia. Qed.

Lemma MAX2_ge_r a b : b ≤ MAX2 a b.
Proof. unfold MAX2. destruct (Z.gtb_spec a b); lia. Qed.

(** ** The allocator *)

Section allocator.
Variable g : Globals.
Variable size : Z.
Variable h : AllocState.

(** Nothing wraps around: the request, and the three capacities, fit
    [size_t]; and [used <= committed <= reserved]. *)
Hypothesis size_fits : 0 ≤ size * HeapWordSize g < size_t_modulus.
Hypothesis reserved_fits : max_capacity h < size_t_modulus.
Hypothesis used_committed : 0 ≤ used g h ≤ capacity h.
Hypothesis committed_reserved : capacity h ≤ max_capacity h.

Lemma expand_decision_unfold :
  expand_decision g size h =
    let size_in_bytes := size * HeapWordSize g in
    let want_space := MAX2 size_in_bytes (EpsilonMinHeapExpand g) in
    if want_space <? max_capacity h - capacity h then ExpandBy want_space
    else if size_in_bytes <? max_capacity h - used g h
         then ExpandBy (max_capacity h - capacity h)
         else NoSpaceLeft.
Proof using size_fits reserved_fits used_committed committed_reserved.
  unfold expand_decision, size_t_mul, size_t_sub.
  rewrite !to_size_t_small by lia. reflexivity.
Qed.

(** The block under the lock gives up exactly when the request is no
    smaller than the unused space. *)
Lemma expand_decision_no_space_iff :
  expand_decision g size h = NoSpaceLeft ↔
  max_capacity h - used g h ≤ size * HeapWordSize g.
Proof using size_fits reserved_fits used_committed committed_reserved.
  rewrite expand_decision_unfold. cbv zeta.
  pose proof (MAX2_ge_l (size * HeapWordSize g) (EpsilonMinHeapExpand g)).
  destruct (Z.ltb_spec (MAX2 (size * HeapWordSize g) (EpsilonMinHeapExpand g))
              (max_capacity h - capacity h)).
  - split; [discriminate | lia].
  - destruct (Z.ltb_spec (size * HeapWordSize g) (max_capacity h - used g h)).
    + split; [discriminate | lia].
    + split; [lia | reflexivity].
Qed.

(** Away from the two boundaries the code does what the three-way rule
    with non-strict comparisons says. *)
Lemma expand_decision_bulk :
  MAX2 (size * HeapWordSize g) (EpsilonMinHeapExpand g)
    < max_capacity h - capacity h →
  expand_decision g size h =
    ExpandBy (MAX2 (size * HeapWordSize g) (EpsilonMinHeapExpand g)).
Proof using size_fits reserved_fits used_committed committed_reserved.
  intros Hlt. rewrite expand_decision_unfold. cbv zeta.
  destruct (Z.ltb_spec (MAX2 (size * HeapWordSize g) (EpsilonMinHeapExpand g))
              (max_capacity h - capacity h)); [reflexivity | lia].
Qed.

Lemma expand_decision_tail :
  max_capacity h - capacity h
    ≤ MAX2 (size * HeapWordSize g) (EpsilonMinHeapExpand g) →
  size * HeapWordSize g < max_capacity h - used g h →
  expand_decision g size h = ExpandBy (max_capacity h - capacity h).
Proof using size_fits reserved_fits used_committed committed_reserved.
  intros Hge Hlt. rewrite expand_decision_unfold. cbv zeta.
  destruct (Z.ltb_spec (MAX2 (size * HeapWordSize g) (EpsilonMinHeapExpand g))
              (max_capacity h - capacity h)); [lia |].
  destruct (Z.ltb_spec (size * HeapWordSize g) (max_capacity h - used g h));
    [reflexivity | lia].
Qed.

(** C1. A request that has failed the fast path and the retry under the
    lock, and whose size in bytes is exactly the unused space, gets
    [nullptr] from [allocate_work]: the comparison with the unused space
    is strict. The heap is left as it was. *)
Theorem allocate_work_exact_fit_returns_null (fuel : nat) (verbose : bool) :
  cs_end (a_space h) - cs_top (a_space h) < size →
  size * HeapWordSize g = max_capacity h - used g h →
  allocate_work (S fuel) g size verbose h = Returned (None, h).
Proof using size_fits reserved_fits used_committed committed_reserved.
  intros Hfast Hexact. simpl.
  unfold par_allocate.
  destruct (Z.leb_spec size (cs_end (a_space h) - cs_top (a_space h)));
    [lia |].
  unfold expand_and_set_end.
  assert (expand_decision g size h = NoSpaceLeft) as ->; [| reflexivity].
  apply expand_decision_no_space_iff. lia.
Qed.
End allocator.

Lemma allocate_work_exact_fit_witness :
  allocate_work 3 exact_fit_globals 256 true exact_fit_heap
  = Returned (None, exact_fit_heap).
Proof.
  apply (allocate_work_exact_fit_returns_null exact_fit_globals 256
           exact_fit_heap); vm_compute; try split; congruence.
Defined.

(** The same request is one the heap can serve: once the uncommitted
    remainder is committed, [par_allocate] succeeds and fills the space to
    its last word. *)
Lemma exact_fit_is_allocatable :
  let vs := snd (expand_by (uncommitted_size (a_virtual_space exact_fit_heap))
                   (a_virtual_space exact_fit_heap)) in
  let sp := set_end (vs_high vs / 8) (a_space exact_fit_heap) in
  par_allocate 256 sp
  = (Some 356, {| cs_bottom := 100; cs_top := 612; cs_end := 612 |}).
Proof. reflexivity. Qed.

Section allocator_rule.
Variable g : Globals.
Variable size : Z.
Variable h : AllocState.
Hypothesis size_fits : 0 ≤ size * HeapWordSize g < size_t_modulus.
Hypothesis reserved_fits : max_capacity h < size_t_modulus.
Hypothesis used_committed : 0 ≤ used g h ≤ capacity h.
Hypothesis committed_reserved : capacity h ≤ max_capacity h.

(** The code departs from the rule of the specification at one boundary
    only: a request of exactly the unused space. *)
Lemma expand_decision_departs_iff :
  expand_decision g size h ≠ expand_decision_as_specified g size h
  ↔ size * HeapWordSize g = max_capacity h - used g h.
Proof using size_fits reserved_fits used_committed committed_reserved.
  rewrite expand_decision_unfold by done.
  unfold expand_decision_as_specified. cbv zeta.
  pose proof (MAX2_ge_l (size * HeapWordSize g) (EpsilonMinHeapExpand g)).
  set (want := MAX2 (size * HeapWordSize g) (EpsilonMinHeapExpand g)) in *.
  destruct (Z.ltb_spec want (max_capacity h - capacity h));
    destruct (Z.leb_spec want (max_capacity h - capacity h));
    destruct (Z.ltb_spec (size * HeapWordSize g) (max_capacity h - used g h));
    destruct (Z.leb_spec (size * HeapWordSize g) (max_capacity h - used g h));
    try lia;
    (split; [intros Hne; try lia; exfalso; apply Hne; f_equal; lia
            | intros Heq; try lia; try discriminate]).
Qed.

End allocator_rule.

(** With one thread and a space that sits on its virtual space,
    [allocate_work] returns within two rounds of its loop: an expansion
    makes room for the retry. It returns [nullptr] exactly when the fast
    path fails and the request is no smaller than the unused space. *)
Lemma allocate_work_returns (g : Globals) (size : Z) (verbose : bool)
    (h : AllocState) (fuel : nat) :
  alloc_wf g h →
  0 ≤ size → size * HeapWordSize g < size_t_modulus →
  ∃ res h', allocate_work (S (S fuel)) g size verbose h = Returned (res, h')
    ∧ (res = None
       ↔ cs_end (a_space h) - cs_top (a_space h) < size
         ∧ max_capacity h - used g h ≤ size * HeapWordSize g).
Proof.
  intros [Hword Hlow Hlowb Hhigh Htop Hres Hfits] Hsize Hbytes.
  assert (0 ≤ size * HeapWordSize g) as Hnn by nia.
  assert (0 ≤ used g h ≤ capacity h) as Hused.
  { unfold used, capacity, committed_size. rewrite Hhigh, Hlow. nia. }
  assert (capacity h ≤ max_capacity h) as Hcap.
  { unfold capacity, max_capacity, committed_size, reserved_size. lia. }
  cbn [allocate_work]. unfold par_allocate.
  destruct (Z.leb_spec size (cs_end (a_space h) - cs_top (a_space h)))
    as [Hfast | Hslow].
  { eexists _, _. split; [reflexivity |]. split; [discriminate | lia]. }
  unfold expand_and_set_end.
  destruct (expand_decision g size h) as [bytes |] eqn:Hdecision.
  2:{ exists None, h. split; [reflexivity |].
      split; [| done]. intros _. split; [lia |].
      by apply (expand_decision_no_space_iff g size h). }
  assert (max_capacity h - used g h > size * HeapWordSize g) as Hroom.
  { destruct (Z.le_gt_cases (max_capacity h - used g h)
                (size * HeapWordSize g)) as [Hle |]; [| lia].
    apply (expand_decision_no_space_iff g size h) in Hle; try done; try lia.
    congruence. }
  assert (size * HeapWordSize g ≤ bytes ≤ uncommitted_size (a_virtual_space h)
          ∨ bytes = uncommitted_size (a_virtual_space h)) as Hbytes_range.
  { rewrite expand_decision_unfold in Hdecision by (done || lia).
    cbv zeta in Hdecision.
    pose proof (MAX2_ge_l (size * HeapWordSize g) (EpsilonMinHeapExpand g)).
    destruct (Z.ltb_spec (MAX2 (size * HeapWordSize g) (EpsilonMinHeapExpand g))
                (max_capacity h - capacity h)).
    - injection Hdecision as <-. left.
      unfold uncommitted_size, max_capacity, capacity in *. lia.
    - destruct (Z.ltb_spec (size * HeapWordSize g) (max_capacity h - used g h));
        [| discriminate].
      injection Hdecision as <-. right. reflexivity. }
  assert (bytes ≤ uncommitted_size (a_virtual_space h)) as Hle by lia.
  unfold expand_by.
  destruct (Z.ltb_spec (uncommitted_size (a_virtual_space h)) bytes); [lia |].
  cbn [snd vs_high set_alloc_space set_end a_space a_virtual_space
       cs_top cs_end cs_bottom].
  assert (size ≤ (vs_high (a_virtual_space h) + bytes) / HeapWordSize g
                 - cs_top (a_space h)) as Hfits_now.
  { enough (cs_top (a_space h) + size
            ≤ (vs_high (a_virtual_space h) + bytes) / HeapWordSize g) by lia.
    apply Z.div_le_lower_bound; [lia |].
    destruct Hbytes_range as [[Hwant _] | ->].
    - rewrite Hhigh. nia.
    - unfold uncommitted_size, reserved_size, committed_size.
      unfold max_capacity, used, reserved_size in Hroom.
      rewrite Hlowb, Hlow in *. nia. }
  destruct (Z.leb_spec size
              ((vs_high (a_virtual_space h) + bytes) / HeapWordSize g
               - cs_top (a_space h))); [| lia].
  eexists _, _. split; [reflexivity |].
  split; [discriminate |]. lia.
Qed.

Lemma allocate_work_returns_witness :
  ∃ h', allocate_work 2 exact_fit_globals 128 true exact_fit_heap
        = Returned (Some 356, h').
Proof.
  assert (alloc_wf exact_fit_globals exact_fit_heap) as Hwf.
  { constructor; vm_compute; try split; congruence. }
  destruct (allocate_work_returns exact_fit_globals 128 true exact_fit_heap
              0 Hwf ltac:(lia) ltac:(vm_compute; reflexivity))
    as (res & h' & Hrun & _).
  rewrite Hrun. vm_compute in Hrun. injection Hrun as <- _. eauto.
Defined.

(** ** TLAB sizing *)

(** The decay check as the code writes it. If the stored time of the
    last allocation is not 0 and more than the decay time has passed, the
    ergonomic size is reset to 0, in the thread's data and in the local
    the size of this allocation is computed from, so that
    [allocate_new_tlab] does what it would do for a thread whose
    ergonomic size is 0; if the stored time is 0, the check writes
    nothing. *)
Lemma decay_resets_ergo_when_allocated_before
    (g : Globals) (decay_time_ns now requested_size : Z)
    (t : EpsilonThreadLocalData) :
  EpsilonElasticTLAB g = true →
  EpsilonElasticTLABDecay g = true →
  let l := tlab_locals g decay_time_ns now requested_size t in
  (last_tlab_time t ≠ 0 → decay_time_ns < now - last_tlab_time t →
     tl_ergo_tlab l = 0
     ∧ ergo_tlab_size (tl_thread l) = 0
     ∧ tl_fits l = (requested_size <=? 0)
     ∧ tl_size l = (if requested_size <=? 0 then requested_size
                    else to_size_t (elastic_scale g 0))
     ∧ ∀ (H : Type) (allocate_or_collect_work : Z → H → option Z * H)
         (max_tlab_size min_size : Z) (h : H),
         allocate_new_tlab g max_tlab_size decay_time_ns now
           allocate_or_collect_work min_size requested_size t h
         = allocate_new_tlab g max_tlab_size decay_time_ns now
             allocate_or_collect_work min_size requested_size
             (set_ergo_tlab_size 0 t) h)
  ∧ (last_tlab_time t = 0 →
     tl_ergo_tlab l = ergo_tlab_size t ∧ tl_thread l = t).
Proof.
  intros Helastic Hdecay l. subst l.
  split.
  - intros Hlast Hold.
    assert (tlab_locals g decay_time_ns now requested_size t
            = tlab_locals g decay_time_ns now requested_size
                (set_ergo_tlab_size 0 t)) as Hsame.
    { unfold tlab_locals, tlab_decay. rewrite Helastic, Hdecay. simpl.
      destruct (Z.eqb_spec (last_tlab_time t) 0) as [| _]; [done |].
      destruct (Z.ltb_spec decay_time_ns (now - last_tlab_time t)); [| lia].
      reflexivity. }
    repeat split.
    5:{ intros H alloc max_tlab_size min_size h.
        unfold allocate_new_tlab. by rewrite <- Hsame. }
    all: unfold tlab_locals, tlab_decay; rewrite Helastic, Hdecay;
      destruct (Z.eqb_spec (last_tlab_time t) 0) as [| _]; [done |];
      destruct (Z.ltb_spec decay_time_ns (now - last_tlab_time t)); [| lia];
      reflexivity.
  - intros Hzero. unfold tlab_locals, tlab_decay.
    rewrite Helastic, Hdecay, Hzero. simpl. done.
Qed.

(** With elastic TLABs and decay enabled, a stored time of 0 comes with
    an ergonomic size of 0: the only store of a non-zero ergonomic size
    follows the store of the time of the allocation. *)
Lemma thread_data_reachable_never_allocated (g : Globals)
    (t : EpsilonThreadLocalData) :
  EpsilonElasticTLAB g = true →
  EpsilonElasticTLABDecay g = true →
  thread_data_reachable g t →
  last_tlab_time t = 0 → ergo_tlab_size t = 0.
Proof.
  intros Helastic Hdecay Hreach.
  destruct Hreach
    as [| H max_tlab_size decay_time_ns now alloc min_size requested_size
          t h _ Hnow]; [done |].
  unfold allocate_new_tlab. cbv zeta.
  rewrite Helastic, Hdecay. cbn [andb].
  destruct (alloc _ h) as [[res |] h']; cbn [fst snd].
  - assert (tl_time (tlab_locals g decay_time_ns now requested_size t) = now)
      as Htime.
    { unfold tlab_locals, tlab_decay. rewrite Helastic, Hdecay.
      by destruct (negb (last_tlab_time t =? 0)
                   && (decay_time_ns <? now - last_tlab_time t)). }
    destruct (negb (tl_fits _)); cbn [set_ergo_tlab_size set_last_tlab_time
                                      last_tlab_time ergo_tlab_size];
      rewrite Htime; lia.
  - done.
Qed.

(** C5. On every call of [allocate_new_tlab] with elastic TLABs and decay
    enabled, on the data of any thread the code can produce and for every
    stored time of the last allocation: if more than the decay time has
    passed since then, the ergonomic size is 0 before the size of this
    allocation is computed, in the thread's data and in the local the
    size is computed from, and [allocate_new_tlab] does what it would do
    for a thread whose ergonomic size is 0. The guard [last_time != 0] of
    the code only skips a store of 0 over 0: a thread that has never
    allocated has no ergonomic size to retract. *)
Theorem decay_resets_ergo_on_every_call
    (g : Globals) (decay_time_ns now requested_size : Z)
    (t : EpsilonThreadLocalData) :
  EpsilonElasticTLAB g = true →
  EpsilonElasticTLABDecay g = true →
  thread_data_reachable g t →
  decay_time_ns < now - last_tlab_time t →
  let l := tlab_locals g decay_time_ns now requested_size t in
  tl_ergo_tlab l = 0
  ∧ ergo_tlab_size (tl_thread l) = 0
  ∧ tl_fits l = (requested_size <=? 0)
  ∧ tl_size l = (if requested_size <=? 0 then requested_size
                 else to_size_t (elastic_scale g 0))
  ∧ ∀ (H : Type) (allocate_or_collect_work : Z → H → option Z * H)
      (max_tlab_size min_size : Z) (h : H),
      allocate_new_tlab g max_tlab_size decay_time_ns now
        allocate_or_collect_work min_size requested_size t h
      = allocate_new_tlab g max_tlab_size decay_time_ns now
          allocate_or_collect_work min_size requested_size
          (set_ergo_tlab_size 0 t) h.
Proof.
  intros Helastic Hdecay Hreach Hold l.
  destruct (decay_resets_ergo_when_allocated_before g decay_time_ns now
              requested_size t Helastic Hdecay) as [Hreset Hnever].
  fold l in Hreset, Hnever.
  destruct (Z.eq_dec (last_tlab_time t) 0) as [Hzero | Hlast];
    [| by apply Hreset].
  pose proof (thread_data_reachable_never_allocated g t Helastic Hdecay
                Hreach Hzero) as Hergo.
  destruct (Hnever Hzero) as [Hlocal Hthread].
  assert (set_ergo_tlab_size 0 t = t) as Hsame.
  { destruct t as [e lt]. simpl in Hergo. by subst e. }
  rewrite Hlocal, Hthread, Hergo.
  split; [done |]. split; [done |].
  assert (tl_fits l = (requested_size <=? 0)
          ∧ tl_size l = (if requested_size <=? 0 then requested_size
                         else to_size_t (elastic_scale g 0))) as [Hfits Hsize].
  { subst l. unfold tlab_locals, tlab_decay.
    rewrite Helastic, Hdecay, Hzero, Hergo. by simpl. }
  split; [exact Hfits |]. split; [exact Hsize |].
  intros H alloc max_tlab_size min_size h. by rewrite Hsame.
Qed.

Lemma busy_thread_data_reachable :
  thread_data_reachable exact_fit_globals busy_thread_data.
Proof.
  unfold busy_thread_data. cbv zeta.
  apply reachable_after_tlab; [| lia].
  apply reachable_fresh.
Qed.

Lemma decay_resets_ergo_witness :
  ergo_tlab_size busy_thread_data = 8
  ∧ last_tlab_time busy_thread_data = 3000
  ∧ let l := tlab_locals exact_fit_globals 1000 7000 50 busy_thread_data in
    tl_ergo_tlab l = 0 ∧ ergo_tlab_size (tl_thread l) = 0.
Proof.
  split; [reflexivity |]. split; [reflexivity |].
  intros l.
  destruct (decay_resets_ergo_on_every_call exact_fit_globals 1000 7000 50
              busy_thread_data eq_refl eq_refl busy_thread_data_reachable
              ltac:(vm_compute; reflexivity)) as (H1 & H2 & _).
  split; [exact H1 | exact H2].
Defined.

(** ** GC request coalescing *)

(** C3. [doit_prologue] returns false, with [Heap_lock] released and the
    request id untouched, exactly when the id loaded on entry is strictly
    less than the id read under the lock; otherwise it returns true with
    the lock held and the request id incremented by one (as a [size_t]). *)
Theorem doit_prologue_skips_iff_id_advanced (id : Z) (s : CollectRequests) :
  (fst (doit_prologue id s) = false ↔ id < req_id s)
  ∧ (id < req_id s →
       doit_prologue id s
       = (false, {| req_id := req_id s; heap_lock_held := false |}))
  ∧ (¬ id < req_id s →
       doit_prologue id s
       = (true, {| req_id := to_size_t (req_id s + 1);
                   heap_lock_held := true |})
       ∧ (0 ≤ req_id s < SIZE_MAX →
            req_id (snd (doit_prologue id s)) = req_id s + 1)).
Proof.
  unfold doit_prologue, heap_lock_lock, heap_lock_unlock, inc_req_id,
    size_t_add. simpl.
  destruct (Z.ltb_spec id (req_id s)) as [Hlt | Hge]; simpl.
  - split; [tauto |]. split; [reflexivity | lia].
  - split; [split; [discriminate | lia] |].
    split; [lia |]. intros _. split; [reflexivity |].
    intros Hrange. simpl. apply to_size_t_small.
    unfold SIZE_MAX in Hrange. lia.
Qed.

Lemma doit_prologue_witness :
  doit_prologue 3 {| req_id := 4; heap_lock_held := false |}
  = (false, {| req_id := 4; heap_lock_held := false |})
  ∧ doit_prologue 4 {| req_id := 4; heap_lock_held := false |}
    = (true, {| req_id := 5; heap_lock_held := true |}).
Proof.
  split.
  - apply (doit_prologue_skips_iff_id_advanced 3
             {| req_id := 4; heap_lock_held := false |}). simpl. lia.
  - apply (doit_prologue_skips_iff_id_advanced 4
             {| req_id := 4; heap_lock_held := false |}). simpl. lia.
Defined.

(** A request that loads the id and takes the lock with nothing in between
    is never skipped. *)
Lemma doit_prologue_uncontended (s : CollectRequests) :
  fst (doit_prologue (req_id s) s) = true.
Proof.
  unfold doit_prologue. simpl. by rewrite Z.ltb_irrefl.
Qed.

(** ** The pin lock *)

(** C8, as stated, fails when [EpsilonSlidingGC] is off: both calls are
    then empty. *)
Lemma pin_object_without_sliding_gc : ¬ pin_always_counts.
Proof.
  intros Hclaim.
  destruct (Hclaim exact_fit_globals 1 100 {| gcl_readers := 0 |})
    as [Hpin _].
  vm_compute in Hpin. discriminate.
Qed.

(** C8, amended. With [EpsilonSlidingGC] on, [pin_object] increments the
    reader counter of the GC locker and [unpin_object] decrements it; with
    [EpsilonSlidingGC] off, both leave the GC locker as it is. *)
Theorem pin_object_counts_under_sliding_gc
    (g : Globals) (thread obj : Z) (l : GCLocker) :
  (EpsilonSlidingGC g = true →
     gcl_readers (pin_object g thread obj l) = gcl_readers l + 1
     ∧ gcl_readers (unpin_object g thread obj l) = gcl_readers l - 1)
  ∧ (EpsilonSlidingGC g = false →
     pin_object g thread obj l = l ∧ unpin_object g thread obj l = l).
Proof.
  unfold pin_object, unpin_object.
  case_eq (EpsilonSlidingGC g); intros Hflag; split;
    try discriminate; intros _; split; reflexivity.
Qed.

Lemma pin_object_counts_witness :
  gcl_readers (pin_object sliding_globals 1 100 {| gcl_readers := 2 |}) = 3
  ∧ gcl_readers (unpin_object sliding_globals 1 100 {| gcl_readers := 2 |}) = 1.
Proof.
  apply (pin_object_counts_under_sliding_gc sliding_globals 1 100
           {| gcl_readers := 2 |}).
  reflexivity.
Defined.

(** Pinning and then unpinning restores the GC locker. *)
Lemma unpin_pin_object (g : Globals) (t1 t2 o1 o2 : Z) (l : GCLocker) :
  unpin_object g t2 o2 (pin_object g t1 o1 l) = l.
Proof.
  unfold pin_object, unpin_object, GCLocker_enter, GCLocker_exit.
  destruct (EpsilonSlidingGC g), l as [n]; simpl; f_equal; lia.
Qed.

(** ** net.shipilev.Magic: getReferencedObjects *)





(** ** Collections that do not start *)

(** C6. While the reader counter of the GC locker is not zero,
    [entry_collect] returns at once: the heap is what it was, with its
    bitmap, its objects, its roots, [top] and [end], and no phase has run. *)
Theorem entry_collect_skipped_while_pinned
    (g : Globals) (os : OsAnswers) (h : EpsilonHeap) :
  gcl_readers (h_gc_locker h) ≠ 0 →
  entry_collect g os h = (SkippedLockerActive, h).
Proof.
  intros Hpinned. unfold entry_collect, GCLocker_is_active.
  destruct (Z.eqb_spec (gcl_readers (h_gc_locker h)) 0); [done |].
  reflexivity.
Qed.

(** C7. When the bitmap memory cannot be committed, [entry_collect] logs
    the warning and returns before marking: the bitmap, the objects, the
    roots and the space are what they were. *)
Theorem entry_collect_abandoned_on_commit_failure
    (g : Globals) (os : OsAnswers) (h : EpsilonHeap) :
  gcl_readers (h_gc_locker h) = 0 →
  commit_memory_ok os = false →
  ∃ h', entry_collect g os h = (BitmapCommitFailed, h')
    ∧ h_warnings h' =
        h_warnings h
        ++ ["Could not commit native memory for marking bitmap, GC failed"]
    ∧ h_bitmap h' = h_bitmap h
    ∧ h_mem h' = h_mem h
    ∧ h_roots h' = h_roots h
    ∧ h_space h' = h_space h
    ∧ h_virtual_space h' = h_virtual_space h
    ∧ h_gc_locker h' = h_gc_locker h.
Proof.
  intros Hidle Hcommit. unfold entry_collect, GCLocker_is_active.
  rewrite Hidle, Hcommit. simpl.
  eexists. split; [reflexivity |]. simpl. repeat split.
Qed.

Lemma entry_collect_skipped_witness :
  entry_collect sliding_globals
    {| commit_memory_ok := true; uncommit_memory_ok := true |}
    (three_object_heap 1)
  = (SkippedLockerActive, three_object_heap 1).
Proof.
  apply (entry_collect_skipped_while_pinned sliding_globals
           {| commit_memory_ok := true; uncommit_memory_ok := true |}
           (three_object_heap 1)).
  simpl. lia.
Defined.

Lemma entry_collect_abandoned_witness :
  ∃ h', entry_collect sliding_globals
          {| commit_memory_ok := false; uncommit_memory_ok := true |}
          (three_object_heap 0) = (BitmapCommitFailed, h')
    ∧ h_mem h' = three_object_memory
    ∧ h_bitmap h' = ∅.
Proof.
  destruct (entry_collect_abandoned_on_commit_failure sliding_globals
              {| commit_memory_ok := false; uncommit_memory_ok := true |}
              (three_object_heap 0) eq_refl eq_refl)
    as (h' & Hrun & _ & Hbitmap & Hmem & _).
  exists h'. split; [exact Hrun |]. split; [exact Hmem | exact Hbitmap].
Defined.

(** ** Walking the bitmap *)

Lemma marked_in_nil bitmap lo hi : hi ≤ lo → marked_in bitmap lo hi = [].
Proof. intros Hle. unfold marked_in. rewrite seqZ_nil by lia. done. Qed.

Lemma marked_in_step bitmap lo hi :
  lo < hi →
  marked_in bitmap lo hi
  = if decide (lo ∈ bitmap) then lo :: marked_in bitmap (lo + 1) hi
    else marked_in bitmap (lo + 1) hi.
Proof.
  intros Hlt. unfold marked_in. rewrite seqZ_cons by lia.
  replace (Z.pred (hi - lo)) with (hi - (lo + 1)) by lia.
  replace (Z.succ lo) with (lo + 1) by lia.
  rewrite filter_cons. by case_decide.
Qed.

Lemma elem_of_marked_in bitmap lo hi a :
  a ∈ marked_in bitmap lo hi ↔ a ∈ bitmap ∧ lo ≤ a < hi.
Proof.
  unfold marked_in. rewrite list_elem_of_filter, elem_of_seqZ.
  split; intros [? ?]; split; auto; lia.
Qed.

(** The walk visits addresses in strictly increasing order. *)
Lemma marked_in_sorted bitmap lo hi :
  StronglySorted Z.lt (marked_in bitmap lo hi).
Proof.
  remember (Z.to_nat (hi - lo)) as n eqn:Hn.
  revert lo Hn. induction n as [| n IH]; intros lo Hn.
  - rewrite marked_in_nil by lia. constructor.
  - rewrite marked_in_step by lia.
    specialize (IH (lo + 1) ltac:(lia)).
    case_decide; [| done].
    constructor; [done |].
    apply Forall_forall. intros a Ha.
    apply elem_of_marked_in in Ha. lia.
Qed.

Lemma next_marked_from_spec (n : nat) bitmap addr limit :
  n = Z.to_nat (limit - addr) → addr ≤ limit →
  let r := next_marked_from n bitmap addr limit in
  addr ≤ r ≤ limit
  ∧ (r < limit → r ∈ bitmap)
  ∧ marked_in bitmap addr limit = marked_in bitmap r limit.
Proof.
  revert addr. induction n as [| n IH]; intros addr Hn Hle; simpl.
  - split; [lia |]. split; [lia |].
    rewrite !marked_in_nil by lia. done.
  - case_decide as Hmarked.
    + split; [lia |]. done.
    + destruct (IH (addr + 1) ltac:(lia) ltac:(lia)) as (Hr & Hin & Heq).
      split; [lia |]. split; [done |].
      rewrite marked_in_step by lia. by rewrite decide_False.
Qed.

Lemma get_next_marked_addr_spec bitmap addr limit :
  addr ≤ limit →
  let r := get_next_marked_addr bitmap addr limit in
  addr ≤ r ≤ limit
  ∧ (r < limit → r ∈ bitmap)
  ∧ marked_in bitmap addr limit = marked_in bitmap r limit.
Proof. intros Hle. by apply next_marked_from_spec. Qed.

Lemma walk_bitmap_loop_foldl {A : Type} (n : nat) bitmap
    (do_object : Z → A → A) addr limit cl :
  (limit - addr ≤ Z.of_nat n) →
  (addr < limit → addr ∈ bitmap) →
  walk_bitmap_loop n bitmap do_object addr limit cl
  = foldl (λ c o, do_object o c) cl (marked_in bitmap addr limit).
Proof.
  revert addr cl. induction n as [| n IH]; intros addr cl Hfuel Hmarked; simpl.
  - rewrite marked_in_nil by lia. done.
  - destruct (Z.ltb_spec addr limit) as [Hlt | Hge].
    2:{ rewrite marked_in_nil by lia. done. }
    rewrite (marked_in_step bitmap addr) by done.
    rewrite decide_True by auto. simpl.
    destruct (Z.ltb_spec (addr + 1) limit) as [Hlt1 | Hge1].
    + destruct (get_next_marked_addr_spec bitmap (addr + 1) limit)
        as (Hr & Hin & Heq); [lia |].
      rewrite Heq. apply IH; [lia | done].
    + rewrite IH by lia.
      rewrite !marked_in_nil by lia. done.
Qed.

(** [walk_bitmap] applies the closure to the marked addresses below [top],
    from [bottom] upwards; the bound on the rounds of its loop is never
    reached. *)
Lemma walk_bitmap_foldl {A : Type} sp bitmap (do_object : Z → A → A) cl :
  walk_bitmap sp bitmap do_object cl
  = foldl (λ c o, do_object o c) cl
      (marked_in bitmap (cs_bottom sp) (cs_top sp)).
Proof.
  unfold walk_bitmap.
  destruct (Z.le_gt_cases (cs_bottom sp) (cs_top sp)) as [Hle | Hgt].
  - destruct (get_next_marked_addr_spec bitmap (cs_bottom sp) (cs_top sp))
      as (Hr & Hin & Heq); [done |].
    rewrite Heq. apply walk_bitmap_loop_foldl; [lia | done].
  - replace (Z.to_nat (cs_top sp - cs_bottom sp)) with 0%nat by lia.
    rewrite marked_in_nil by lia. done.
Qed.

(** ** Step 2: the compact point slides *)

Lemma total_size_app mem L1 L2 :
  total_size mem (L1 ++ L2) = total_size mem L1 + total_size mem L2.
Proof.
  unfold total_size. induction L1 as [| o L1 IH]; simpl; [done |].
  rewrite IH. lia.
Qed.

Lemma laid_out_positive mem lo hi L :
  laid_out mem lo hi L → Forall (λ o, 0 < obj_size mem o) L.
Proof.
  revert lo. induction L as [| o L IH]; intros lo Hlay; simpl in *.
  - constructor.
  - destruct Hlay as (_ & _ & Hpos & Hrest). constructor; eauto.
Qed.

Lemma total_size_nonneg mem L :
  Forall (λ o, 0 < obj_size mem o) L → 0 ≤ total_size mem L.
Proof.
  unfold total_size. induction 1 as [| o L Hpos _ IH]; simpl; lia.
Qed.

Lemma total_size_take_lt mem L (i j : nat) :
  Forall (λ o, 0 < obj_size mem o) L →
  (i < j ≤ length L)%nat →
  total_size mem (take i L) < total_size mem (take j L).
Proof.
  intros Hpos. revert i j.
  induction Hpos as [| o L Ho Hpos IH]; intros i j Hij; simpl in *; [lia |].
  destruct j as [| j]; [lia |]. simpl.
  destruct i as [| i]; simpl.
  - pose proof (total_size_nonneg mem (take j L)
                  (Forall_take _ _ _ Hpos)) as Hnn.
    unfold total_size in *. simpl. lia.
  - specialize (IH i j ltac:(lia)). unfold total_size in *. simpl. lia.
Qed.

Lemma laid_out_bounds mem lo hi L :
  laid_out mem lo hi L →
  lo + total_size mem L ≤ hi
  ∧ ∀ o, o ∈ L → lo ≤ o ∧ o + obj_size mem o ≤ hi.
Proof.
  revert lo. induction L as [| o L IH]; intros lo Hlay; simpl in *.
  - split; [unfold total_size; simpl; lia |].
    intros o Ho. by apply elem_of_nil in Ho.
  - destruct Hlay as (Hlo & _ & Hpos & Hrest).
    pose proof (total_size_nonneg _ _ (laid_out_positive _ _ _ _ Hrest)) as Hnn.
    destruct (IH _ Hrest) as [Hsum Hall].
    split; [unfold total_size in *; simpl; lia |].
    intros o' Ho'. apply elem_of_cons in Ho' as [-> | Hin].
    + lia.
    + destruct (Hall _ Hin). lia.
Qed.

Lemma laid_out_weaken mem lo lo' hi L :
  lo' ≤ lo → laid_out mem lo hi L → laid_out mem lo' hi L.
Proof. destruct L; simpl; [lia | intros ? (? & ? & ? & ?); repeat split; auto; lia]. Qed.

Lemma laid_out_ext mem mem' lo hi L :
  (∀ a, obj_size mem' a = obj_size mem a) →
  (∀ a, is_Some (mem' !! a) ↔ is_Some (mem !! a)) →
  laid_out mem lo hi L → laid_out mem' lo hi L.
Proof.
  intros Hsize Hdom. revert lo.
  induction L as [| o L IH]; intros lo; simpl; [done |].
  intros (Hlo & Hsome & Hpos & Hrest).
  rewrite Hsize, Hdom. auto.
Qed.

Lemma total_size_ext mem mem' L :
  (∀ a, obj_size mem' a = obj_size mem a) →
  total_size mem' L = total_size mem L.
Proof.
  intros Hsize. unfold total_size.
  induction L as [| o L IH]; simpl; [done |]. by rewrite IH, Hsize.
Qed.

(** In a parsable heap, marked objects listed in address order are laid
    out. *)
Lemma parsable_laid_out sp mem L lo :
  parsable sp mem →
  StronglySorted Z.lt L →
  (∀ o, o ∈ L → lo ≤ o ∧ cs_bottom sp ≤ o < cs_top sp ∧ is_Some (mem !! o)) →
  lo ≤ cs_top sp →
  laid_out mem lo (cs_top sp) L.
Proof.
  intros [Hsize Hdisj] Hsorted. revert lo.
  induction Hsorted as [| o L Hsorted IH Hlt]; intros lo Hin Hlo; simpl.
  - done.
  - destruct (Hin o) as (Ho & Hrange & [ob Hob]); [left |].
    destruct (Hsize _ _ Hob Hrange) as [Hpos Hend].
    unfold obj_size. rewrite Hob.
    split; [done |]. split; [eauto |]. split; [done |].
    apply IH; [| done].
    intros o' Ho'.
    destruct (Hin o') as (_ & Hrange' & [ob' Hob']); [by right |].
    rewrite Forall_forall in Hlt. specialize (Hlt _ Ho').
    split; [| eauto].
    eapply (Hdisj o o'); eauto; lia.
Qed.

Lemma forward_to_lookup obj fwd mem a :
  forward_to obj fwd mem !! a
  = if decide (a = obj) then set_mark (mark_forwarded fwd) <$> mem !! a
    else mem !! a.
Proof.
  unfold forward_to. case_decide as Ha.
  - subst. apply lookup_alter_eq.
  - by apply lookup_alter_ne.
Qed.

Lemma forward_to_size obj fwd mem a :
  obj_size (forward_to obj fwd mem) a = obj_size mem a.
Proof.
  unfold obj_size. rewrite forward_to_lookup.
  case_decide; [| done]. by destruct (mem !! a).
Qed.

Lemma forward_to_fields obj fwd mem a :
  obj_fields (forward_to obj fwd mem) a = obj_fields mem a.
Proof.
  unfold obj_fields. rewrite forward_to_lookup.
  case_decide; [| done]. by destruct (mem !! a).
Qed.

Lemma forward_to_is_Some obj fwd mem a :
  is_Some (forward_to obj fwd mem !! a) ↔ is_Some (mem !! a).
Proof.
  rewrite forward_to_lookup. case_decide; [| done].
  by rewrite fmap_is_Some.
Qed.

Lemma forward_to_mark obj fwd mem :
  is_Some (mem !! obj) →
  obj_mark (forward_to obj fwd mem) obj = mark_forwarded fwd.
Proof.
  intros [ob Hob]. unfold obj_mark.
  rewrite forward_to_lookup, decide_True, Hob by done. done.
Qed.

Section calc_walk.
Import EpsilonCalcNewLocationObjectClosure.

Lemma do_object_frame obj cl :
  (∀ a, obj_size (mem (do_object obj cl)) a = obj_size (mem cl) a)
  ∧ (∀ a, obj_fields (mem (do_object obj cl)) a = obj_fields (mem cl) a)
  ∧ (∀ a, is_Some (mem (do_object obj cl) !! a) ↔ is_Some (mem cl !! a))
  ∧ (∀ a, a ≠ obj → mem (do_object obj cl) !! a = mem cl !! a)
  ∧ compact_point (do_object obj cl)
    = compact_point cl + obj_size (mem cl) obj.
Proof.
  unfold do_object. case_decide; simpl.
  - split; [apply forward_to_size |].
    split; [apply forward_to_fields |].
    split; [apply forward_to_is_Some |].
    split; [| by rewrite forward_to_size].
    intros a Ha. rewrite forward_to_lookup. by rewrite decide_False.
  - repeat split; auto.
Qed.

Lemma calc_walk_frame L : ∀ cl,
  (∀ a, obj_size (mem (calc_walk cl L)) a = obj_size (mem cl) a)
  ∧ (∀ a, obj_fields (mem (calc_walk cl L)) a = obj_fields (mem cl) a)
  ∧ (∀ a, is_Some (mem (calc_walk cl L) !! a) ↔ is_Some (mem cl !! a))
  ∧ (∀ a, a ∉ L → mem (calc_walk cl L) !! a = mem cl !! a)
  ∧ compact_point (calc_walk cl L)
    = compact_point cl + total_size (mem cl) L.
Proof.
  induction L as [| o L IH]; intros cl; simpl.
  - repeat split; auto. unfold total_size. simpl. lia.
  - destruct (IH (do_object o cl)) as (Hs & Hf & Hd & Hm & Hc).
    destruct (do_object_frame o cl) as (Hs1 & Hf1 & Hd1 & Hm1 & Hc1).
    split; [intros a; by rewrite Hs |].
    split; [intros a; by rewrite Hf |].
    split; [intros a; by rewrite Hd |].
    split.
    + intros a Ha. apply not_elem_of_cons in Ha as [Hne Hnin].
      rewrite Hm by done. by apply Hm1.
    + rewrite Hc, Hc1. rewrite (total_size_ext (mem cl)) by done.
      unfold total_size. simpl. lia.
Qed.

(** What the walk leaves in the mark word of the [i]-th object. *)
Lemma calc_walk_marks L : ∀ cl lo hi,
  laid_out (mem cl) lo hi L → compact_point cl ≤ lo →
  ∀ (i : nat) o, L !! i = Some o →
    let point := compact_point cl + total_size (mem cl) (take i L) in
    point ≤ o
    ∧ (o ≠ point → obj_mark (mem (calc_walk cl L)) o = mark_forwarded point)
    ∧ (o = point → mem (calc_walk cl L) !! o = mem cl !! o).
Proof.
  induction L as [| o L IH]; intros cl lo hi Hlay Hcp i o' Hi; [done |].
  simpl in Hlay. destruct Hlay as (Hlo & Hsome & Hpos & Hrest).
  destruct (do_object_frame o cl) as (Hs1 & Hf1 & Hd1 & Hm1 & Hc1).
  destruct (laid_out_bounds _ _ _ _ Hrest) as [_ Hbounds].
  assert (o ∉ L) as Hfresh.
  { intros Hin. destruct (Hbounds _ Hin). lia. }
  destruct (calc_walk_frame L (do_object o cl)) as (_ & _ & _ & Hm & _).
  destruct i as [| i]; simpl in Hi.
  - injection Hi as <-. simpl.
    unfold total_size. simpl. rewrite Z.add_0_r.
    split; [lia |]. split.
    + intros Hne. unfold obj_mark. rewrite Hm by done.
      unfold do_object. rewrite decide_True by done. simpl.
      pose proof (forward_to_mark o (compact_point cl) (mem cl) Hsome) as Hfw.
      unfold obj_mark in Hfw. done.
    + intros Heq. rewrite Hm by done.
      unfold do_object. rewrite decide_False by (intros ?; done). done.
  - assert (laid_out (mem (do_object o cl)) (o + obj_size (mem cl) o) hi L)
      as Hrest' by (eapply laid_out_ext; eauto).
    assert (compact_point (do_object o cl) ≤ o + obj_size (mem cl) o)
      as Hcp' by (rewrite Hc1; lia).
    specialize (IH _ _ _ Hrest' Hcp' i o' Hi). simpl in IH.
    rewrite Hc1 in IH.
    rewrite (total_size_ext (mem cl)) in IH by done.
    simpl. unfold total_size at 1 2 3. simpl. fold (total_size (mem cl) (take i L)).
    rewrite Z.add_assoc.
    assert (o' ≠ o) as Hne.
    { intros ->. apply Hfresh. eapply list_elem_of_lookup_2. eauto. }
    destruct IH as (H1 & H2 & H3).
    split; [done |]. split; [done |].
    intros Heq. rewrite H3 by done. by apply Hm1.
Qed.


(** C2. In a parsable heap whose marked addresses hold objects, the
    compute-forwarding walk ends with the compact point at [bottom] plus
    the sizes of the marked objects, which is no more than [top]. The
    [i]-th marked object, in address order, is visited when the compact
    point is [bottom] plus the sizes of the marked objects before it; that
    point is no more than the object's address, it grows strictly from
    one marked object to the next, and the object is forwarded to it
    unless it is already there, in which case the object is left as it
    was. *)
Theorem calc_phase_slides (sp : ContiguousSpace) (bitmap : gset Z)
    (m : Memory) :
  parsable sp m →
  cs_bottom sp ≤ cs_top sp →
  (∀ o, o ∈ bitmap → cs_bottom sp ≤ o < cs_top sp → is_Some (m !! o)) →
  let live := marked_in bitmap (cs_bottom sp) (cs_top sp) in
  let cl := calc_phase sp bitmap m in
  let point (i : nat) := cs_bottom sp + total_size m (take i live) in
  compact_point cl = cs_bottom sp + total_size m live
  ∧ compact_point cl ≤ cs_top sp
  ∧ (∀ (i : nat) o, live !! i = Some o →
       point i ≤ o
       ∧ (o ≠ point i →
            is_forwarded (mem cl) o = true
            ∧ forwardee (mem cl) o = point i)
       ∧ (o = point i → mem cl !! o = m !! o))
  ∧ (∀ i j : nat, (i < j ≤ length live)%nat → point i < point j).
Proof.
  intros Hpars Hle Hmarked live cl point.
  assert (laid_out m (cs_bottom sp) (cs_top sp) live) as Hlay.
  { apply (parsable_laid_out sp); [done | apply marked_in_sorted | | done].
    intros o Ho. apply elem_of_marked_in in Ho as [Hin Hrange].
    split; [lia |]. split; [done |]. by apply Hmarked. }
  set (cl0 := {| compact_point := cs_bottom sp; preserved_marks := [];
                 mem := m |}).
  assert (cl = calc_walk cl0 live) as Hcl.
  { subst cl. unfold calc_phase. by rewrite walk_bitmap_foldl. }
  destruct (calc_walk_frame live cl0) as (_ & _ & _ & _ & Hpoint).
  destruct (laid_out_bounds _ _ _ _ Hlay) as [Hsum _].
  split; [by rewrite Hcl, Hpoint |].
  split; [rewrite Hcl, Hpoint; simpl; lia |].
  split.
  - intros i o Hi.
    destruct (calc_walk_marks live cl0 _ _ Hlay (Z.le_refl _) i o Hi)
      as (Hbelow & Hmoved & Hstays).
    simpl in Hbelow, Hmoved, Hstays. fold (point i) in Hbelow, Hmoved, Hstays.
    split; [done |]. split.
    + intros Hne. unfold is_forwarded, forwardee.
      rewrite Hcl, (Hmoved Hne). done.
    + intros Heq. rewrite Hcl. by apply Hstays.
  - intros i j Hij. subst point. simpl.
    pose proof (total_size_take_lt m live i j
                  (laid_out_positive _ _ _ _ Hlay) Hij).
    lia.
Qed.

End calc_walk.

(** ** Step 1: marking *)

Section marking.
Import EpsilonScanOopClosure.

(** The bitmap test guards the mark-and-push: a marked object is not
    pushed again, and an unmarked one is marked as it is pushed. *)
Lemma do_oop_work_marked cl o :
  o ∈ bitmap cl → do_oop_work cl o = cl.
Proof.
  intros Hin. unfold do_oop_work.
  destruct (o =? 0); [done |]. by rewrite decide_True.
Qed.

Lemma do_oop_work_unmarked cl o :
  o ≠ 0 → o ∉ bitmap cl →
  do_oop_work cl o = {| stack := o :: stack cl; bitmap := {[o]} ∪ bitmap cl |}.
Proof.
  intros Hnz Hnin. unfold do_oop_work.
  destruct (Z.eqb_spec o 0); [done |]. by rewrite decide_False.
Qed.

(** Scanning the slots [l] pushes the objects [new]: those met unmarked,
    each once. *)
Lemma scan_slots l : ∀ cl, ∃ new,
  stack (foldl do_oop_work cl l) = new ++ stack cl
  ∧ bitmap (foldl do_oop_work cl l) = list_to_set new ∪ bitmap cl
  ∧ NoDup new
  ∧ (∀ o, o ∈ new → o ∈ l ∧ o ≠ 0 ∧ o ∉ bitmap cl)
  ∧ (∀ o, o ∈ l → o ≠ 0 → o ∈ bitmap (foldl do_oop_work cl l)).
Proof.
  induction l as [| x l IH]; intros cl; simpl.
  - exists []. simpl. split; [done |]. split; [set_solver |].
    split; [constructor |]. split; intros o Ho; by apply elem_of_nil in Ho.
  - destruct (IH (do_oop_work cl x)) as (new & Hst & Hbm & Hnd & Hnew & Hall).
    destruct (Z.eq_dec x 0) as [-> | Hnz].
    { change (do_oop_work cl 0) with cl in *.
      exists new. repeat split; try done.
      - apply elem_of_cons. right. by apply Hnew.
      - by apply Hnew.
      - by apply Hnew.
      - intros o Ho Hne. apply elem_of_cons in Ho as [-> | Ho]; [done |].
        by apply Hall. }
    destruct (decide (x ∈ bitmap cl)) as [Hin | Hnin].
    { rewrite (do_oop_work_marked cl x Hin) in *.
      exists new. repeat split; try done.
      - apply elem_of_cons. right. by apply Hnew.
      - by apply Hnew.
      - by apply Hnew.
      - intros o Ho Hne. apply elem_of_cons in Ho as [-> | Ho].
        + rewrite Hbm. set_solver.
        + by apply Hall. }
    rewrite (do_oop_work_unmarked cl x Hnz Hnin) in *. simpl in *.
    exists (new ++ [x]). split; [by rewrite Hst, <- app_assoc |].
    split; [rewrite Hbm, list_to_set_app_L; set_solver |].
    split.
    { apply NoDup_app. split; [done |]. split; [| apply NoDup_singleton].
      intros o Ho Hx. apply list_elem_of_singleton in Hx as ->.
      destruct (Hnew _ Ho) as (_ & _ & Hfresh). set_solver. }
    split.
    + intros o Ho. apply elem_of_app in Ho as [Ho | Ho].
      * destruct (Hnew _ Ho) as (Hl & Hne & Hfresh).
        split; [by apply elem_of_cons; right |]. split; [done | set_solver].
      * apply list_elem_of_singleton in Ho as ->.
        split; [by apply elem_of_cons; left |]. done.
    + intros o Ho Hne. apply elem_of_cons in Ho as [-> | Ho].
      * rewrite Hbm. set_solver.
      * by apply Hall.
Qed.

Lemma size_list_to_set_le (l : list Z) :
  (size (list_to_set l : gset Z) ≤ length l)%nat.
Proof.
  induction l as [| x l IH].
  - rewrite list_to_set_nil, size_empty. simpl. lia.
  - rewrite list_to_set_cons, size_union_alt, size_singleton. simpl.
    pose proof (subseteq_size (list_to_set l ∖ {[x]}) (list_to_set l : gset Z)
                  ltac:(set_solver)).
    lia.
Qed.

Lemma size_new_union (new : list Z) (bm : gset Z) :
  NoDup new → (∀ o, o ∈ new → o ∉ bm) →
  size (list_to_set new ∪ bm) = (length new + size bm)%nat.
Proof.
  intros Hnd Hfresh. rewrite size_union.
  - by rewrite size_list_to_set.
  - intros o Ho Hbm. apply elem_of_list_to_set in Ho. by apply (Hfresh o).
Qed.

Variable mem : Memory.
Variable roots : Roots.

Lemma root_in_slot_values o :
  o ∈ root_slots roots → o ∈ slot_values mem roots.
Proof.
  intros Ho. apply elem_of_list_to_set. unfold all_slots.
  apply elem_of_app. by left.
Qed.

Lemma field_in_slot_values obj o :
  o ∈ obj_fields mem obj → o ∈ slot_values mem roots.
Proof.
  unfold obj_fields. destruct (mem !! obj) as [ob |] eqn:Hob.
  2:{ intros Ho. by apply elem_of_nil in Ho. }
  intros Ho. apply elem_of_list_to_set. unfold all_slots.
  apply elem_of_app. right. apply list_elem_of_bind.
  exists (obj, ob). split; [done |]. by apply elem_of_map_to_list.
Qed.

Lemma mark_inv_roots :
  mark_inv mem roots (process_roots do_oop_work {| stack := []; bitmap := ∅ |} roots) 0.
Proof.
  unfold process_roots.
  destruct (scan_slots (root_slots roots) {| stack := []; bitmap := ∅ |})
    as (new & Hst & Hbm & Hnd & Hnew & Hall).
  simpl in *. rewrite app_nil_r in Hst.
  assert (bitmap (foldl do_oop_work {| stack := []; bitmap := ∅ |}
                    (root_slots roots)) = list_to_set new) as Hbm'
    by (rewrite Hbm; set_solver).
  constructor.
  - by rewrite Hst.
  - intros o Ho. rewrite Hbm', elem_of_list_to_set. by rewrite <- Hst.
  - rewrite Hst, Hbm', size_list_to_set by done. lia.
  - intros o Ho. rewrite Hbm', elem_of_list_to_set in Ho.
    destruct (Hnew _ Ho) as (Hroot & Hnz & _). by constructor.
  - done.
  - intros o Ho Hnot. rewrite Hbm', elem_of_list_to_set, <- Hst in Ho. done.
  - intros o Ho. rewrite Hbm', elem_of_list_to_set in Ho.
    apply root_in_slot_values. by apply Hnew.
Qed.

Lemma mark_inv_step obj rest bm n :
  mark_inv mem roots {| stack := obj :: rest; bitmap := bm |} n →
  mark_inv mem roots (oop_iterate mem obj {| stack := rest; bitmap := bm |}) (n + 1)
  ∧ (length (stack (oop_iterate mem obj {| stack := rest; bitmap := bm |}))
     + (size (slot_values mem roots)
        - size (bitmap (oop_iterate mem obj {| stack := rest; bitmap := bm |})))
     = length rest + (size (slot_values mem roots) - size bm))%nat.
Proof.
  intros [Hnd Hsm Hcount Hsound Hroots Hclosed Huniv]. simpl in *.
  unfold oop_iterate.
  destruct (scan_slots (obj_fields mem obj) {| stack := rest; bitmap := bm |})
    as (new & Hst & Hbm & Hnd' & Hnew & Hall).
  simpl in *.
  apply NoDup_cons in Hnd as [Hobj Hrest].
  assert (size (list_to_set new ∪ bm) = (length new + size bm)%nat) as Hsize.
  { apply size_new_union; [done |]. intros o Ho. by apply Hnew. }
  assert (list_to_set new ∪ bm ⊆ slot_values mem roots) as Huniv'.
  { intros o Ho. apply elem_of_union in Ho as [Ho | Ho]; [| by apply Huniv].
    apply elem_of_list_to_set in Ho.
    apply (field_in_slot_values obj). by apply Hnew. }
  split.
  - constructor; rewrite ?Hst, ?Hbm; simpl.
    + apply NoDup_app. split; [done |]. split; [| done].
      intros o Ho Hin. destruct (Hnew _ Ho) as (_ & _ & Hfresh).
      apply Hfresh. apply Hsm. by right.
    + intros o Ho. apply elem_of_app in Ho as [Ho | Ho].
      * apply elem_of_union. left. by apply elem_of_list_to_set.
      * apply elem_of_union. right. apply Hsm. by right.
    + rewrite Hsize, length_app. lia.
    + intros o Ho. apply elem_of_union in Ho as [Ho | Ho]; [| by apply Hsound].
      apply elem_of_list_to_set in Ho. destruct (Hnew _ Ho) as (Hf & Hnz & _).
      apply (reachable_field _ _ obj); [| done | done].
      apply Hsound, Hsm. by left.
    + intros o Ho Hnz. apply elem_of_union. right. by apply Hroots.
    + intros o Ho Hnot f Hf Hnz.
      destruct (decide (o = obj)) as [-> | Hne].
      { rewrite <- Hbm. by apply Hall. }
      apply elem_of_union in Ho as [Ho | Ho].
      { exfalso. apply Hnot. apply elem_of_app. left.
        by apply elem_of_list_to_set in Ho. }
      apply elem_of_union. right. apply (Hclosed o); try done.
      intros Hin. apply elem_of_cons in Hin as [? | Hin]; [done |].
      apply Hnot. apply elem_of_app. by right.
    + done.
  - rewrite Hst, Hbm, Hsize, length_app.
    pose proof (subseteq_size _ _ Huniv'). rewrite Hsize in *. lia.
Qed.

(** The marking loop returns, with the stack empty, as soon as it is given
    more rounds than there are objects on the stack and slot values still
    unmarked. *)
Lemma mark_loop_returns (fuel : nat) : ∀ cl n,
  mark_inv mem roots cl n →
  (length (stack cl) + (size (slot_values mem roots) - size (bitmap cl)) < fuel)%nat →
  ∃ cl' n', mark_loop fuel mem cl n = Returned (cl', n')
            ∧ stack cl' = [] ∧ mark_inv mem roots cl' n'.
Proof.
  induction fuel as [| fuel IH]; intros [st bm] n Hinv Hfuel; [lia |].
  destruct st as [| obj rest]; simpl in *.
  - eauto.
  - destruct (mark_inv_step obj rest bm n Hinv) as [Hinv' Hmeasure].
    apply IH; [done | lia].
Qed.

(** At the end of marking, the bitmap holds the reachable objects and
    nothing else, and the loop has gone round once for each of them. *)
Lemma mark_inv_final cl n :
  mark_inv mem roots cl n → stack cl = [] →
  (∀ o, o ∈ bitmap cl ↔ reachable mem (root_slots roots) o)
  ∧ n = Z.of_nat (size (bitmap cl)).
Proof.
  intros [Hnd Hsm Hcount Hsound Hroots Hclosed Huniv] Hempty.
  rewrite Hempty in *. simpl in *.
  split; [| lia].
  intros o. split; [apply Hsound |].
  induction 1 as [o Hroot Hnz | o o' Hreach IH Hfield Hnz].
  - by apply Hroots.
  - apply (Hclosed o); try done. intros Hin. by apply elem_of_nil in Hin.
Qed.

End marking.

Lemma mark_phase_returns (mem : Memory) (roots : Roots) :
  ∃ cl n,
    mark_loop (mark_fuel mem roots) mem
      (process_roots EpsilonScanOopClosure.do_oop_work
         {| EpsilonScanOopClosure.stack := [];
            EpsilonScanOopClosure.bitmap := ∅ |} roots) 0
    = Returned (cl, n)
    ∧ EpsilonScanOopClosure.stack cl = []
    ∧ mark_inv mem roots cl n.
Proof.
  apply mark_loop_returns; [apply mark_inv_roots |].
  pose proof (mark_inv_roots mem roots) as [_ _ Hcount _ _ _ Huniv].
  pose proof (subseteq_size _ _ Huniv) as Hle.
  pose proof (size_list_to_set_le (all_slots mem roots)) as Hslots.
  fold (slot_values mem roots) in Hslots.
  unfold mark_fuel. lia.
Qed.

(** Step 1 returns the reachable objects, counted. *)
Lemma mark_phase_marks_reachable (mem : Memory) (roots : Roots) :
  ∃ bitmap reachable_roots reachable_heap,
    mark_phase mem roots ∅
    = Returned (bitmap, reachable_roots, reachable_heap)
    ∧ (∀ o, o ∈ bitmap ↔ reachable mem (root_slots roots) o)
    ∧ reachable_heap = Z.of_nat (size bitmap)
    ∧ 0 ≤ reachable_roots ≤ reachable_heap.
Proof.
  destruct (mark_phase_returns mem roots) as (cl & n & Hrun & Hempty & Hinv).
  destruct (mark_inv_final mem roots cl n Hinv Hempty) as [Hreach Hn].
  unfold mark_phase. rewrite Hrun.
  eexists _, _, _. split; [reflexivity |].
  split; [done |]. split; [done |].
  split; [lia |].
  pose proof (mark_inv_roots mem roots) as [_ Hsm Hcount _ _ _ _].
  rewrite Hn.
  enough (size (EpsilonScanOopClosure.bitmap
                  (process_roots EpsilonScanOopClosure.do_oop_work
                     {| EpsilonScanOopClosure.stack := [];
                        EpsilonScanOopClosure.bitmap := ∅ |} roots))
          ≤ size (EpsilonScanOopClosure.bitmap cl))%nat by lia.
  apply subseteq_size. intros o Ho.
  apply Hreach.
  by apply (inv_sound mem roots _ _ (mark_inv_roots mem roots)).
Qed.

(** C9. Marking terminates on every memory and every set of roots, cyclic
    or not: within the rounds it is given, the loop returns with the stack
    empty. The bitmap then holds exactly the objects reachable from the
    roots, and the loop has gone round as many times as there are marked
    objects, each having been pushed, and popped, once; that is at most
    once per reference slot. *)
Theorem mark_phase_terminates (mem : Memory) (roots : Roots) :
  ∃ bitmap reachable_roots reachable_heap,
    mark_phase mem roots ∅
    = Returned (bitmap, reachable_roots, reachable_heap)
    ∧ (∀ o, o ∈ bitmap ↔ reachable mem (root_slots roots) o)
    ∧ reachable_heap = Z.of_nat (size bitmap)
    ∧ 0 ≤ reachable_roots ≤ reachable_heap
    ∧ reachable_heap ≤ Z.of_nat (length (all_slots mem roots)).
Proof.
  destruct (mark_phase_returns mem roots) as (cl & n & Hrun & Hempty & Hinv).
  destruct (mark_inv_final mem roots cl n Hinv Hempty) as [Hreach Hn].
  pose proof (mark_inv_roots mem roots) as Hseed.
  unfold mark_phase. rewrite Hrun.
  exists (EpsilonScanOopClosure.bitmap cl). eexists _, n.
  split; [reflexivity |]. split; [exact Hreach |]. split; [exact Hn |].
  split.
  - split; [lia |]. rewrite Hn.
    pose proof (inv_count _ _ _ _ Hseed) as Hcount.
    assert (size (EpsilonScanOopClosure.bitmap
                    (process_roots EpsilonScanOopClosure.do_oop_work
                       {| EpsilonScanOopClosure.stack := [];
                          EpsilonScanOopClosure.bitmap := ∅ |} roots))
            ≤ size (EpsilonScanOopClosure.bitmap cl))%nat as Hgrown.
    { apply subseteq_size. intros o Ho.
      apply Hreach. exact (inv_sound _ _ _ _ Hseed o Ho). }
    lia.
  - rewrite Hn.
    pose proof (subseteq_size _ _ (inv_universe _ _ _ _ Hinv)) as Hle.
    pose proof (size_list_to_set_le (all_slots mem roots)) as Hslots.
    fold (slot_values mem roots) in Hslots. lia.
Qed.

(** A two-object cycle with a self-loop: marking it ends after two
    rounds. *)
Example mark_phase_cycle :
  match
    mark_phase
      (<[100 := {| o_size := 2; o_mark := mark_prototype;
                   o_fields := [102; 100] |}]>
       (<[102 := {| o_size := 2; o_mark := mark_prototype;
                    o_fields := [100; 102] |}]> ∅))
      {| strong_oops := [100; 100]; cld_oops := []; thread_oops := [102];
         nmethod_oops := []; weak_oops := [] |} ∅
  with
  | Returned (bitmap, reachable_roots, reachable_heap) =>
      marked_in bitmap 90 110 = [100; 102]
      ∧ reachable_roots = 2 ∧ reachable_heap = 2
  | OutOfFuel => False
  end.
Proof. vm_compute. repeat split. Qed.

Lemma three_object_lookup a ob :
  three_object_memory !! a = Some ob →
  (a = 100 ∧ o_size ob = 4) ∨ (a = 104 ∧ o_size ob = 4)
  ∨ (a = 108 ∧ o_size ob = 4).
Proof.
  unfold three_object_memory. intros Hlook.
  apply lookup_insert_Some in Hlook as [[<- <-] | [_ Hlook]]; [by left |].
  apply lookup_insert_Some in Hlook as [[<- <-] | [_ Hlook]];
    [by right; left |].
  apply lookup_insert_Some in Hlook as [[<- <-] | [_ Hlook]];
    [by right; right |].
  by rewrite lookup_empty in Hlook.
Qed.

Lemma three_object_parsable : parsable three_object_space three_object_memory.
Proof.
  constructor; simpl.
  - intros a ob Hob Hrange.
    destruct (three_object_lookup _ _ Hob) as [[-> ->] | [[-> ->] | [-> ->]]];
      lia.
  - intros a b oa ob Ha Hb Hlo Hab Hhi.
    destruct (three_object_lookup _ _ Ha) as [[-> ->] | [[-> ->] | [-> ->]]];
      destruct (three_object_lookup _ _ Hb) as [[-> _] | [[-> _] | [-> _]]];
      lia.
Qed.

Lemma calc_phase_slides_witness :
  let cl := calc_phase three_object_space {[100; 108]} three_object_memory in
  EpsilonCalcNewLocationObjectClosure.compact_point cl = 108
  ∧ EpsilonCalcNewLocationObjectClosure.compact_point cl ≤ 112.
Proof.
  destruct (calc_phase_slides three_object_space {[100; 108]}
              three_object_memory three_object_parsable)
    as (Hpoint & Htop & _).
  - simpl. lia.
  - intros o Ho _.
    apply elem_of_union in Ho as [Ho | Ho]; apply elem_of_singleton in Ho;
      subst o; vm_compute; eauto.
  - split; [| exact Htop]. rewrite Hpoint. vm_compute. reflexivity.
Defined.

(** ** One whole cycle, and the cycle after it *)

Lemma forwarded_layout_ext mem mem' cp lo hi L :
  same_headers L mem mem' →
  forwarded_layout mem cp lo hi L → forwarded_layout mem' cp lo hi L.
Proof.
  revert cp lo. induction L as [| o L IH]; intros cp lo Hsame; simpl; [done |].
  intros (Hlo & ob & Hob & Hpos & Hmark & Hrest).
  destruct (Hsame o ob) as (ob' & Hob' & Hsize & Hmark'); [by left | done |].
  split; [done |]. exists ob'. rewrite Hsize, Hmark'.
  repeat split; try done.
  apply IH; [| done].
  intros a x Ha. apply Hsame. by right.
Qed.

Lemma forwarded_layout_bounds mem cp lo hi L :
  forwarded_layout mem cp lo hi L →
  cp ≤ lo ≤ hi ∧ ∀ o, o ∈ L → lo ≤ o ∧ o + obj_size mem o ≤ hi.
Proof.
  revert cp lo. induction L as [| o L IH]; intros cp lo; simpl.
  - intros Hle. split; [lia |]. intros o Ho. by apply elem_of_nil in Ho.
  - intros (Hlo & ob & Hob & Hpos & Hmark & Hrest).
    destruct (IH _ _ Hrest) as [Hcp Hall].
    split; [lia |]. intros o' Ho'.
    apply elem_of_cons in Ho' as [-> | Hin].
    + unfold obj_size. rewrite Hob. lia.
    + destruct (Hall _ Hin). lia.
Qed.

Lemma forwarded_layout_lookup mem cp lo hi L o :
  forwarded_layout mem cp lo hi L → o ∈ L →
  ∃ ob, mem !! o = Some ob ∧ 0 < o_size ob.
Proof.
  revert cp lo. induction L as [| x L IH]; intros cp lo Hlay Ho;
    [by apply elem_of_nil in Ho |].
  simpl in Hlay. destruct Hlay as (_ & ob & Hob & Hpos & _ & Hrest).
  apply elem_of_cons in Ho as [-> | Ho]; eauto.
Qed.

Lemma forwarded_layout_NoDup mem cp lo hi L :
  forwarded_layout mem cp lo hi L → NoDup L.
Proof.
  revert cp lo. induction L as [| o L IH]; intros cp lo; simpl.
  - constructor.
  - intros (Hlo & ob & Hob & Hpos & Hmark & Hrest).
    constructor; [| eauto].
    intros Hin. destruct (forwarded_layout_bounds _ _ _ _ _ Hrest) as [_ Hall].
    destruct (Hall _ Hin). lia.
Qed.

Section calc_layout.
Import EpsilonCalcNewLocationObjectClosure.

Lemma do_object_stays obj cl :
  obj = compact_point cl →
  do_object obj cl
  = {| compact_point := compact_point cl + obj_size (mem cl) obj;
       preserved_marks := preserved_marks cl;
       mem := mem cl |}.
Proof.
  intros Heq. unfold do_object. rewrite decide_False; [done |].
  intros Hne. by apply Hne.
Qed.

Lemma do_object_moved obj cl :
  obj ≠ compact_point cl →
  do_object obj cl
  = {| compact_point := compact_point cl + obj_size (mem cl) obj;
       preserved_marks :=
         push_if_necessary obj (obj_mark (mem cl) obj) (preserved_marks cl);
       mem := forward_to obj (compact_point cl) (mem cl) |}.
Proof.
  intros Hne. unfold do_object. rewrite decide_True by done.
  by rewrite forward_to_size.
Qed.

Lemma calc_walk_layout L : ∀ cl lo hi,
  laid_out (mem cl) lo hi L →
  compact_point cl ≤ lo →
  (∀ o, o ∈ L → is_forwarded (mem cl) o = false) →
  forwarded_layout (mem (calc_walk cl L)) (compact_point cl) lo hi L.
Proof.
  induction L as [| o L IH]; intros cl lo hi Hlay Hcp Hclean; simpl in *.
  - lia.
  - destruct Hlay as (Hlo & [ob Hob] & Hpos & Hrest).
    destruct (do_object_frame o cl) as (Hs1 & Hf1 & Hd1 & Hm1 & Hc1).
    destruct (laid_out_bounds _ _ _ _ Hrest) as [_ Hbounds].
    assert (o ∉ L) as Hfresh.
    { intros Hin. destruct (Hbounds _ Hin). lia. }
    destruct (calc_walk_frame L (do_object o cl)) as (_ & _ & _ & Hm & _).
    unfold obj_size in Hpos, Hc1, Hrest. rewrite Hob in Hpos, Hc1, Hrest.
    split; [lia |].
    assert (forwarded_layout (mem (calc_walk (do_object o cl) L))
              (compact_point cl + o_size ob) (o + o_size ob) hi L) as Htail.
    { rewrite <- Hc1. apply IH.
      - eapply laid_out_ext; eauto.
      - lia.
      - intros o' Ho'. unfold is_forwarded, obj_mark.
        rewrite Hm1 by (intros ->; exact (Hfresh Ho')).
        apply Hclean. by right. }
    rewrite (Hm o Hfresh).
    destruct (decide (o = compact_point cl)) as [Hstay | Hmoved].
    + rewrite (do_object_stays o cl Hstay) in Htail |- *. simpl.
      exists ob. split; [done |]. split; [done |].
      split; [| exact Htail].
      specialize (Hclean o ltac:(by left)).
      unfold is_forwarded, obj_mark in Hclean. by rewrite Hob in Hclean.
    + rewrite (do_object_moved o cl Hmoved) in Htail |- *. simpl.
      rewrite forward_to_lookup, decide_True, Hob by done. simpl.
      eexists. split; [reflexivity |]. simpl.
      split; [done |]. split; [done |]. exact Htail.
Qed.

Lemma calc_walk_preserved L : ∀ cl,
  Forall (λ e : Z * markWord, must_be_preserved e.2 = true)
    (preserved_marks cl) →
  Forall (λ e : Z * markWord, must_be_preserved e.2 = true)
    (preserved_marks (calc_walk cl L)).
Proof.
  induction L as [| o L IH]; intros cl Hpm; simpl; [done |].
  apply IH. unfold do_object. case_decide; simpl; [| done].
  unfold push_if_necessary.
  destruct (must_be_preserved (obj_mark (mem cl) o)) eqn:Hmust; [| done].
  by constructor.
Qed.

End calc_layout.

(** *** Step 3 *)

Section adjust_walk.
Import EpsilonAdjustPointersOopClosure.

(** Where [o] is after the cycle, read off the mark words. *)
Lemma do_oop_work_ext mem mem' o :
  (∀ a, obj_mark mem' a = obj_mark mem a) →
  do_oop_work mem' o = do_oop_work mem o.
Proof.
  intros Hmarks. unfold do_oop_work, is_forwarded, forwardee.
  by rewrite Hmarks.
Qed.

Lemma adjust_do_object_lookup obj mem a :
  EpsilonAdjustPointersObjectClosure.do_object obj mem !! a
  = if decide (a = obj) then adjust_object mem <$> mem !! a else mem !! a.
Proof.
  unfold EpsilonAdjustPointersObjectClosure.do_object.
  case_decide as Ha.
  - subst. apply lookup_alter_eq.
  - by apply lookup_alter_ne.
Qed.

Lemma adjust_do_object_mark obj mem a :
  obj_mark (EpsilonAdjustPointersObjectClosure.do_object obj mem) a
  = obj_mark mem a.
Proof.
  unfold obj_mark. rewrite adjust_do_object_lookup.
  case_decide; [| done]. by destruct (mem !! a).
Qed.

Lemma adjust_walk_lookup L : ∀ mem a,
  NoDup L →
  adjust_walk mem L !! a
  = if decide (a ∈ L) then adjust_object mem <$> mem !! a else mem !! a.
Proof.
  induction L as [| o L IH]; intros mem a Hnd; simpl.
  - destruct (decide (a ∈ [])) as [Hin | _]; [by apply elem_of_nil in Hin | done].
  - apply NoDup_cons in Hnd as [Hfresh Hnd].
    unfold adjust_walk in *. rewrite IH by done.
    rewrite adjust_do_object_lookup.
    assert (∀ ob, adjust_object
                    (EpsilonAdjustPointersObjectClosure.do_object o mem) ob
                  = adjust_object mem ob) as Hadj.
    { intros ob. unfold adjust_object. f_equal. apply map_ext.
      intros v. apply do_oop_work_ext. apply adjust_do_object_mark. }
    destruct (decide (a = o)) as [-> | Hne].
    + rewrite decide_False by done. rewrite decide_True by (by left). done.
    + destruct (decide (a ∈ L)) as [Hin | Hnin].
      * rewrite decide_True by (by right).
        destruct (mem !! a); simpl; [| done]. by rewrite Hadj.
      * rewrite decide_False; [done |].
        intros Hin. apply elem_of_cons in Hin as [? | ?]; done.
Qed.

End adjust_walk.

(** *** Step 4 *)

Lemma aligned_conjoint_words_to from to count mem ob :
  mem !! from = Some ob →
  aligned_conjoint_words from to count mem !! to = Some ob.
Proof.
  intros Hob. unfold aligned_conjoint_words. rewrite Hob.
  apply lookup_insert_eq.
Qed.

(** An object that has no word in [to, to + count) survives the copy. *)
Lemma aligned_conjoint_words_kept from to count mem a x :
  is_Some (mem !! from) →
  mem !! a = Some x → a ≠ to →
  a + o_size x ≤ to ∨ to + count ≤ a →
  aligned_conjoint_words from to count mem !! a = Some x.
Proof.
  intros [ob Hob] Hx Hne Hout. unfold aligned_conjoint_words. rewrite Hob.
  rewrite lookup_insert_ne by done.
  apply map_lookup_filter_Some. split; [done |]. exact Hout.
Qed.

Lemma init_mark_lookup obj mem a :
  init_mark obj mem !! a
  = if decide (a = obj) then set_mark mark_prototype <$> mem !! a
    else mem !! a.
Proof.
  unfold init_mark. case_decide as Ha.
  - subst. apply lookup_alter_eq.
  - by apply lookup_alter_ne.
Qed.

Section move_walk.
Import EpsilonMoveObjectsObjectClosure.

Lemma placed_ext mem' src src' cp L :
  (∀ o, o ∈ L → src' !! o = src !! o) →
  placed mem' src' cp L → placed mem' src cp L.
Proof.
  revert cp. induction L as [| o L IH]; intros cp Hsame; simpl; [done |].
  intros (ob & Hob & Hcp & Hrest).
  exists ob. rewrite <- Hsame by (by left).
  split; [done |]. split; [done |].
  apply IH; [| done]. intros o' Ho'. apply Hsame. by right.
Qed.

Lemma do_object_not_forwarded obj cl :
  is_forwarded (mem cl) obj = false → do_object obj cl = cl.
Proof. intros Hnf. unfold do_object. by rewrite Hnf. Qed.

Lemma do_object_forwarded obj cl ob fwd :
  mem cl !! obj = Some ob → o_mark ob = mark_forwarded fwd →
  do_object obj cl
  = {| moved := moved cl + 1;
       mem := init_mark fwd
                (aligned_conjoint_words obj fwd (o_size ob) (mem cl)) |}.
Proof.
  intros Hob Hmark. unfold do_object, is_forwarded, forwardee, obj_mark, obj_size.
  rewrite Hob, Hmark. done.
Qed.

(** Sliding is safe: a copy overwrites neither an object placed before it
    nor an object still to be moved. *)
Lemma move_walk_placed L : ∀ cl cp lo hi,
  forwarded_layout (mem cl) cp lo hi L →
  placed (mem (move_walk cl L)) (mem cl) cp L
  ∧ (∀ a x, mem cl !! a = Some x → a < cp → a + o_size x ≤ cp →
            mem (move_walk cl L) !! a = Some x).
Proof.
  induction L as [| o L IH]; intros cl cp lo hi Hlay; simpl in *.
  - split; [done |]. auto.
  - destruct Hlay as (Hlo & ob & Hob & Hpos & Hmark & Hrest).
    destruct (forwarded_layout_bounds _ _ _ _ _ Hrest) as [_ Hbounds].
    destruct (decide (o = cp)) as [Hstay | Hmoved].
    + (* the object is where it belongs *)
      assert (do_object o cl = cl) as Hdo.
      { apply do_object_not_forwarded. unfold is_forwarded, obj_mark.
        by rewrite Hob. }
      rewrite Hdo.
      destruct (IH cl _ _ _ Hrest) as [Hplaced Hkept].
      split.
      * exists ob. split; [done |]. split; [| done].
        unfold moved_object. rewrite decide_True by done.
        apply Hkept; [by rewrite <- Hstay | lia | lia].
      * intros a x Hx Ha Hend. apply Hkept; [done | lia | lia].
    + (* the object slides down to [cp] *)
      rewrite (do_object_forwarded o cl ob cp Hob Hmark).
      set (mem1 := init_mark cp
                     (aligned_conjoint_words o cp (o_size ob) (mem cl))).
      assert (mem1 !! cp = Some (set_mark mark_prototype ob)) as Hnew.
      { unfold mem1. rewrite init_mark_lookup, decide_True by done.
        by rewrite (aligned_conjoint_words_to _ _ _ _ ob). }
      assert (∀ a x, mem cl !! a = Some x → a ≠ cp →
                a + o_size x ≤ cp ∨ cp + o_size ob ≤ a →
                mem1 !! a = Some x) as Hsurvive.
      { intros a x Hx Hne Hout. unfold mem1.
        rewrite init_mark_lookup, decide_False by done.
        apply aligned_conjoint_words_kept; eauto. }
      assert (∀ o', o' ∈ L → mem1 !! o' = mem cl !! o') as Hsources.
      { intros o' Ho'. destruct (Hbounds _ Ho') as [Hge _].
        destruct (forwarded_layout_lookup _ _ _ _ _ _ Hrest Ho') as (x & Hx & _).
        rewrite Hx. apply Hsurvive; [done | lia | lia]. }
      set (cl1 := {| moved := moved cl + 1; mem := mem1 |}).
      assert (forwarded_layout (mem cl1) (cp + o_size ob) (o + o_size ob) hi L)
        as Hrest1.
      { eapply forwarded_layout_ext; [| exact Hrest].
        intros a x Ha Hx. exists x. simpl. rewrite Hsources by done. done. }
      destruct (IH cl1 _ _ _ Hrest1) as [Hplaced Hkept].
      split.
      * exists ob. split; [done |]. split.
        -- unfold moved_object. rewrite decide_False by done.
           apply Hkept; [done | lia | simpl; lia].
        -- eapply placed_ext; [| exact Hplaced]. exact Hsources.
      * intros a x Hx Ha Hend. apply Hkept; [| lia | lia].
        simpl. apply Hsurvive; [done | lia | lia].
Qed.

Lemma move_walk_nothing_forwarded L : ∀ cl,
  (∀ o, o ∈ L → is_forwarded (mem cl) o = false) →
  move_walk cl L = cl.
Proof.
  induction L as [| o L IH]; intros cl Hnf; simpl; [done |].
  rewrite do_object_not_forwarded by (apply Hnf; by left).
  apply IH. intros o' Ho'. apply Hnf. by right.
Qed.

End move_walk.

(** *** Step 5 *)

Lemma must_be_preserved_not_marked m :
  must_be_preserved m = true → is_marked m = false.
Proof. by destruct m. Qed.

(** Restoring preserved marks touches mark words only, and never leaves a
    forwarding pattern behind. *)
Lemma restore_lookup pm : ∀ mem a ob,
  Forall (λ e : Z * markWord, must_be_preserved e.2 = true) pm →
  mem !! a = Some ob →
  ∃ ob', restore pm mem !! a = Some ob'
         ∧ o_size ob' = o_size ob ∧ o_fields ob' = o_fields ob
         ∧ (is_marked (o_mark ob) = false → is_marked (o_mark ob') = false).
Proof.
  unfold restore.
  induction pm as [| [obj m] pm IH]; intros mem a ob Hpm Hob; simpl.
  - eauto.
  - apply Forall_cons in Hpm as [Hm Hpm]. simpl in Hm.
    destruct (decide (a = obj)) as [-> | Hne].
    + destruct (IH (alter (set_mark m) obj mem) obj (set_mark m ob) Hpm)
        as (ob' & Hob' & Hsize & Hfields & Hmark).
      { by rewrite lookup_alter_eq, Hob. }
      exists ob'. split; [done |]. split; [done |]. split; [done |].
      intros _. apply Hmark. simpl. by apply must_be_preserved_not_marked.
    + apply IH; [done |]. by rewrite lookup_alter_ne.
Qed.

Lemma adjust_during_full_gc_preserved mem pm :
  Forall (λ e : Z * markWord, must_be_preserved e.2 = true) pm →
  Forall (λ e : Z * markWord, must_be_preserved e.2 = true)
    (adjust_during_full_gc mem pm).
Proof.
  intros Hpm. unfold adjust_during_full_gc. apply Forall_fmap.
  eapply Forall_impl; [exact Hpm |].
  intros [obj m] Hm. simpl in *. by destruct (is_forwarded mem obj).
Qed.

(** *** The heap after a cycle *)

Lemma slid_tight mem' mem φ cp L :
  slid mem' mem φ cp L → tight mem' cp (cp + total_size mem L) (map φ L).
Proof.
  revert cp. induction L as [| o L IH]; intros cp; simpl.
  - intros _. unfold total_size. simpl. lia.
  - intros (Hφ & ob & ob' & Hob & Hob' & Hpos & Hsize & Hfields & Hmark & Hrest).
    split; [done |]. exists ob'. rewrite Hφ, Hsize.
    split; [done |]. split; [done |]. split; [done |].
    specialize (IH _ Hrest).
    unfold obj_size. rewrite Hob.
    by rewrite Z.add_assoc.
Qed.

Lemma slid_lookup mem' mem φ cp L o :
  slid mem' mem φ cp L → o ∈ L →
  cp ≤ φ o
  ∧ ∃ ob ob', mem !! o = Some ob ∧ mem' !! φ o = Some ob'
      ∧ o_fields ob' = map φ (o_fields ob).
Proof.
  revert cp. induction L as [| x L IH]; intros cp Hslid Ho;
    [by apply elem_of_nil in Ho |].
  simpl in Hslid.
  destruct Hslid
    as (Hφ & ob & ob' & Hob & Hob' & Hpos & Hsize & Hfields & Hmark & Hrest).
  apply elem_of_cons in Ho as [-> | Ho].
  - split; [lia |]. exists ob, ob'. by rewrite Hφ.
  - destruct (IH _ Hrest Ho) as [Hge Hex]. split; [lia | done].
Qed.

Lemma tight_bounds mem cp hi L :
  tight mem cp hi L →
  cp ≤ hi
  ∧ StronglySorted Z.lt L
  ∧ ∀ o, o ∈ L →
      cp ≤ o < hi
      ∧ ∃ ob, mem !! o = Some ob ∧ is_marked (o_mark ob) = false.
Proof.
  revert cp. induction L as [| x L IH]; intros cp; simpl.
  - intros ->. split; [lia |]. split; [constructor |].
    intros o Ho. by apply elem_of_nil in Ho.
  - intros (-> & ob & Hob & Hpos & Hmark & Hrest).
    destruct (IH _ Hrest) as (Hle & Hsorted & Hall).
    split; [lia |]. split.
    + constructor; [done |]. apply Forall_forall. intros o Ho.
      destruct (Hall _ Ho) as [? _]. lia.
    + intros o Ho. apply elem_of_cons in Ho as [-> | Ho].
      * split; [lia | eauto].
      * destruct (Hall _ Ho) as [? ?]. split; [lia | done].
Qed.

Lemma do_oop_work_null mem :
  EpsilonAdjustPointersOopClosure.do_oop_work mem 0 = 0.
Proof. reflexivity. Qed.

Lemma do_oop_work_forwarded mem o ob fwd :
  o ≠ 0 → mem !! o = Some ob → o_mark ob = mark_forwarded fwd →
  EpsilonAdjustPointersOopClosure.do_oop_work mem o = fwd.
Proof.
  intros Hnz Hob Hmark.
  unfold EpsilonAdjustPointersOopClosure.do_oop_work, is_forwarded, forwardee,
    obj_mark.
  destruct (Z.eqb_spec o 0); [done |]. by rewrite Hob, Hmark.
Qed.

Lemma do_oop_work_not_forwarded mem o ob :
  mem !! o = Some ob → is_marked (o_mark ob) = false →
  EpsilonAdjustPointersOopClosure.do_oop_work mem o = o.
Proof.
  intros Hob Hmark.
  unfold EpsilonAdjustPointersOopClosure.do_oop_work, is_forwarded, obj_mark.
  destruct (o =? 0); [done |]. by rewrite Hob, Hmark.
Qed.

(** Steps 2 to 5 together: from the layout step 2 leaves, through the
    adjusted slots of step 3 and the copies of step 4, to the restored
    marks of step 5. *)
Lemma phases_slid L : ∀ cp lo hi (mem0 mem2 mem3 mem4 mem5 : Memory),
  0 < cp →
  forwarded_layout mem2 cp lo hi L →
  (∀ a, obj_size mem2 a = obj_size mem0 a) →
  (∀ a, obj_fields mem2 a = obj_fields mem0 a) →
  (∀ a, is_Some (mem2 !! a) ↔ is_Some (mem0 !! a)) →
  (∀ o, o ∈ L → mem3 !! o = adjust_object mem2 <$> mem2 !! o) →
  placed mem4 mem3 cp L →
  (∀ a ob, mem4 !! a = Some ob →
     ∃ ob', mem5 !! a = Some ob'
            ∧ o_size ob' = o_size ob ∧ o_fields ob' = o_fields ob
            ∧ (is_marked (o_mark ob) = false
               → is_marked (o_mark ob') = false)) →
  slid mem5 mem0 (EpsilonAdjustPointersOopClosure.do_oop_work mem2) cp L.
Proof.
  induction L as [| o L IH];
    intros cp lo hi mem0 mem2 mem3 mem4 mem5 Hcp Hlay Hsize Hfields Hdom
      Hadj Hplaced Hrestore; simpl in *; [done |].
  destruct Hlay as (Hlo & ob2 & Hob2 & Hpos & Hmark & Hrest).
  destruct Hplaced as (ob3 & Hob3 & Hob4 & Hplaced).
  rewrite (Hadj o) in Hob3 by (by left). rewrite Hob2 in Hob3.
  injection Hob3 as <-.
  destruct (proj1 (Hdom o) ltac:(eauto)) as [ob0 Hob0].
  pose proof (Hsize o) as Hsize_o. pose proof (Hfields o) as Hfields_o.
  unfold obj_size, obj_fields in Hsize_o, Hfields_o.
  rewrite Hob2, Hob0 in Hsize_o, Hfields_o.
  destruct (Hrestore _ _ Hob4) as (ob5 & Hob5 & Hsize5 & Hfields5 & Hmark5).
  split.
  - destruct (decide (o = cp)) as [-> | Hne].
    + by apply (do_oop_work_not_forwarded _ _ ob2).
    + apply (do_oop_work_forwarded _ _ ob2); [lia | done | done].
  - exists ob0, ob5. split; [done |]. split; [done |].
    split; [lia |].
    split.
    { rewrite Hsize5. unfold moved_object. by case_decide. }
    split.
    { rewrite Hfields5. unfold moved_object.
      case_decide; simpl; by rewrite Hfields_o. }
    split.
    { apply Hmark5. unfold moved_object.
      destruct (decide (o = cp)); simpl; done. }
    rewrite <- Hsize_o.
    eapply (IH _ _ _ mem0 mem2 mem3 mem4 mem5); eauto.
    + lia.
    + intros o' Ho'. apply Hadj. by right.
Qed.

(** The moved objects point at one another as the originals did. *)
Section moved_graph.
Variables (mem mem' : Memory) (φ : Z → Z) (cp : Z) (L R : list Z).
Hypothesis cp_positive : 0 < cp.
Hypothesis objects_slid : slid mem' mem φ cp L.
Hypothesis marked_reachable : ∀ o, reachable mem R o ↔ o ∈ L.
Hypothesis null_stays : φ 0 = 0.

Lemma moved_fields o :
  o ∈ L → obj_fields mem' (φ o) = map φ (obj_fields mem o).
Proof using objects_slid.
  intros Ho.
  destruct (slid_lookup _ _ _ _ _ _ objects_slid Ho)
    as (_ & ob & ob' & Hob & Hob' & Hfields).
  unfold obj_fields. by rewrite Hob, Hob'.
Qed.

Lemma moved_not_null o : o ∈ L → φ o ≠ 0.
Proof using objects_slid cp_positive.
  intros Ho. destruct (slid_lookup _ _ _ _ _ _ objects_slid Ho) as [Hge _].
  lia.
Qed.

Lemma reachable_moved o :
  reachable mem R o → reachable mem' (map φ R) (φ o).
Proof using All.
  induction 1 as [o Hroot Hnz | o o' Hreach IH Hfield Hnz].
  - apply reachable_root.
    + apply list_elem_of_fmap. eauto.
    + apply moved_not_null, marked_reachable. by apply reachable_root.
  - apply (reachable_field _ _ (φ o)); [done | |].
    + rewrite moved_fields by (by apply marked_reachable).
      apply list_elem_of_fmap. eauto.
    + apply moved_not_null, marked_reachable.
      by apply (reachable_field _ _ o).
Qed.

Lemma reachable_was_moved o' :
  reachable mem' (map φ R) o' → ∃ o, o ∈ L ∧ o' = φ o.
Proof using All.
  induction 1 as [o' Hroot Hnz | p' o' Hreach IH Hfield Hnz].
  - apply list_elem_of_fmap in Hroot as (r & -> & Hr).
    exists r. split; [| done].
    apply marked_reachable, reachable_root; [done |].
    intros ->. by rewrite null_stays in Hnz.
  - destruct IH as (p & Hp & ->).
    rewrite moved_fields in Hfield by done.
    apply list_elem_of_fmap in Hfield as (f & -> & Hf).
    exists f. split; [| done].
    apply marked_reachable, (reachable_field _ _ p); [| done |].
    + by apply marked_reachable.
    + intros ->. by rewrite null_stays in Hnz.
Qed.

Lemma reachable_after_move o' :
  reachable mem' (map φ R) o' ↔ o' ∈ map φ L.
Proof using All.
  split.
  - intros Hreach. destruct (reachable_was_moved _ Hreach) as (o & Ho & ->).
    apply list_elem_of_fmap. eauto.
  - intros Hin. apply list_elem_of_fmap in Hin as (o & -> & Ho).
    by apply reachable_moved, marked_reachable.
Qed.

End moved_graph.

Lemma root_slots_update f r :
  root_slots (process_roots_update f r) = map f (root_slots r).
Proof.
  unfold root_slots, process_roots_update. simpl.
  by rewrite !map_app.
Qed.

Lemma adjust_walk_mark mem L a :
  NoDup L → obj_mark (adjust_walk mem L) a = obj_mark mem a.
Proof.
  intros Hnd. unfold obj_mark. rewrite adjust_walk_lookup by done.
  case_decide; [| done]. by destruct (mem !! a).
Qed.

(** Steps 2 to 5 of a cycle on a well-formed heap whose bitmap holds the
    reachable objects leave a compacted heap, in which every marked
    object lies at its new address with its slots adjusted. *)
Lemma phases_compact (sp : ContiguousSpace) (bitmap : gset Z) (m : Memory)
    (roots : Roots) :
  heap_wf sp m roots →
  (∀ o, o ∈ bitmap ↔ reachable m (root_slots roots) o) →
  let calc := calc_phase sp bitmap m in
  let adj :=
    adjust_phase sp bitmap (EpsilonCalcNewLocationObjectClosure.mem calc)
      roots (EpsilonCalcNewLocationObjectClosure.preserved_marks calc) in
  let mv := move_phase sp bitmap adj.1.1 in
  let mem5 := restore adj.2 (EpsilonMoveObjectsObjectClosure.mem mv) in
  let new_top := EpsilonCalcNewLocationObjectClosure.compact_point calc in
  let φ := EpsilonAdjustPointersOopClosure.do_oop_work
             (EpsilonCalcNewLocationObjectClosure.mem calc) in
  let L := marked_in bitmap (cs_bottom sp) (cs_top sp) in
  (∀ o, o ∈ L ↔ o ∈ bitmap)
  ∧ NoDup L
  ∧ new_top = cs_bottom sp + total_size m L
  ∧ new_top ≤ cs_top sp
  ∧ root_slots adj.1.2 = map φ (root_slots roots)
  ∧ slid mem5 m φ (cs_bottom sp) L
  ∧ tight mem5 (cs_bottom sp) new_top (map φ L)
  ∧ (∀ o', reachable mem5 (root_slots adj.1.2) o' ↔ o' ∈ map φ L).
Proof.
  intros [Hbottom Hpars Hreach] Hmarked calc adj mv mem5 new_top φ L.
  assert (∀ o, o ∈ L ↔ o ∈ bitmap) as HL.
  { intros o. subst L. rewrite elem_of_marked_in. split; [tauto |].
    intros Hin. split; [done |]. by apply Hreach, Hmarked. }
  assert (StronglySorted Z.lt L) as Hsorted by apply marked_in_sorted.
  assert (laid_out m (cs_bottom sp) (cs_top sp) L) as Hlay.
  { apply (parsable_laid_out sp); [done | done | | lia].
    intros o Ho. apply HL, Hmarked, Hreach in Ho as (Hrange & ob & Hob & _).
    split; [lia |]. split; [done | eauto]. }
  assert (∀ o, o ∈ L → is_forwarded m o = false) as Hclean.
  { intros o Ho. apply HL, Hmarked, Hreach in Ho as (_ & ob & Hob & Hmark).
    unfold is_forwarded, obj_mark. by rewrite Hob. }
  set (cl0 := {| EpsilonCalcNewLocationObjectClosure.compact_point :=
                   cs_bottom sp;
                 EpsilonCalcNewLocationObjectClosure.preserved_marks := [];
                 EpsilonCalcNewLocationObjectClosure.mem := m |}).
  assert (calc = calc_walk cl0 L) as Hcalc.
  { subst calc. unfold calc_phase. by rewrite walk_bitmap_foldl. }
  destruct (calc_walk_frame L cl0) as (Hsize & Hfields & Hdom & _ & Hpoint).
  rewrite <- Hcalc in Hsize, Hfields, Hdom, Hpoint.
  simpl in Hsize, Hfields, Hdom, Hpoint.
  pose proof (calc_walk_layout L cl0 _ _ Hlay (Z.le_refl _) Hclean) as Hfwd.
  rewrite <- Hcalc in Hfwd. simpl in Hfwd.
  pose proof (forwarded_layout_NoDup _ _ _ _ _ Hfwd) as Hnd.
  set (mem2 := EpsilonCalcNewLocationObjectClosure.mem calc) in *.
  assert (adj.1.1 = adjust_walk mem2 L) as Hmem3.
  { subst adj. unfold adjust_phase. simpl. by rewrite walk_bitmap_foldl. }
  assert (root_slots adj.1.2 = map φ (root_slots roots)) as Hroots.
  { subst adj. unfold adjust_phase. simpl. rewrite root_slots_update.
    rewrite walk_bitmap_foldl. apply map_ext. intros o.
    apply do_oop_work_ext. intros a. by apply adjust_walk_mark. }
  assert (Forall (λ e : Z * markWord, must_be_preserved e.2 = true) adj.2)
    as Hpm.
  { subst adj. unfold adjust_phase. simpl.
    apply adjust_during_full_gc_preserved.
    rewrite Hcalc. apply calc_walk_preserved. constructor. }
  assert (forwarded_layout adj.1.1 (cs_bottom sp) (cs_bottom sp) (cs_top sp) L)
    as Hfwd3.
  { eapply forwarded_layout_ext; [| exact Hfwd].
    intros a ob Ha Hob. rewrite Hmem3, adjust_walk_lookup by done.
    rewrite decide_True by done. rewrite Hob. simpl. eauto. }
  assert (mv = move_walk {| EpsilonMoveObjectsObjectClosure.moved := 0;
                            EpsilonMoveObjectsObjectClosure.mem := adj.1.1 |} L)
    as Hmv.
  { subst mv. unfold move_phase. by rewrite walk_bitmap_foldl. }
  destruct (move_walk_placed L
              {| EpsilonMoveObjectsObjectClosure.moved := 0;
                 EpsilonMoveObjectsObjectClosure.mem := adj.1.1 |}
              _ _ _ Hfwd3) as [Hplaced _].
  rewrite <- Hmv in Hplaced. simpl in Hplaced.
  assert (slid mem5 m φ (cs_bottom sp) L) as Hslid.
  { eapply (phases_slid L _ _ _ m mem2 adj.1.1); eauto.
    - lia.
    - intros o Ho. rewrite Hmem3, adjust_walk_lookup by done.
      by rewrite decide_True.
    - intros a ob Hob. subst mem5. by apply restore_lookup. }
  assert (new_top = cs_bottom sp + total_size m L) as Htop.
  { subst new_top. rewrite Hpoint. done. }
  split; [done |]. split; [done |]. split; [done |].
  split; [destruct (laid_out_bounds _ _ _ _ Hlay); lia |].
  split; [done |]. split; [done |].
  split; [rewrite Htop; by eapply slid_tight |].
  intros o'. rewrite Hroots.
  apply (reachable_after_move m mem5 φ (cs_bottom sp) L); try done; [lia |].
  intros o. rewrite HL. symmetry. apply Hmarked.
Qed.

(** *** A cycle on a compacted heap *)

Lemma sorted_lt_NoDup (L : list Z) : StronglySorted Z.lt L → NoDup L.
Proof.
  induction 1 as [| x L _ IH Hlt]; constructor; [| done].
  intros Hin. rewrite Forall_forall in Hlt. specialize (Hlt _ Hin). lia.
Qed.

(** The walk over a bitmap that holds the addresses [L] visits [L]. *)
Lemma marked_in_sorted_list bitmap lo hi (L : list Z) :
  StronglySorted Z.lt L →
  (∀ o, o ∈ L → lo ≤ o < hi) →
  (∀ o, o ∈ bitmap ↔ o ∈ L) →
  marked_in bitmap lo hi = L.
Proof.
  intros Hsorted Hrange Hsame.
  apply (StronglySorted_unique_strong Z.lt).
  - intros x1 x2 _ _ H1 H2. lia.
  - apply marked_in_sorted.
  - done.
  - apply NoDup_Permutation.
    + apply sorted_lt_NoDup, marked_in_sorted.
    + by apply sorted_lt_NoDup.
    + intros o. rewrite elem_of_marked_in, Hsame. split; [tauto |].
      intros Ho. split; [done |]. by apply Hrange.
Qed.

Lemma calc_walk_tight L : ∀ cl hi,
  tight (EpsilonCalcNewLocationObjectClosure.mem cl)
    (EpsilonCalcNewLocationObjectClosure.compact_point cl) hi L →
  calc_walk cl L
  = {| EpsilonCalcNewLocationObjectClosure.compact_point := hi;
       EpsilonCalcNewLocationObjectClosure.preserved_marks :=
         EpsilonCalcNewLocationObjectClosure.preserved_marks cl;
       EpsilonCalcNewLocationObjectClosure.mem :=
         EpsilonCalcNewLocationObjectClosure.mem cl |}.
Proof.
  induction L as [| o L IH]; intros cl hi; simpl.
  - intros <-. by destruct cl.
  - intros (Ho & ob & Hob & Hpos & Hmark & Hrest).
    rewrite (do_object_stays o cl Ho).
    rewrite (IH _ hi); [done |].
    simpl. unfold obj_size. by rewrite Hob.
Qed.

Lemma adjust_walk_id L : ∀ mem,
  (∀ o ob, o ∈ L → mem !! o = Some ob →
           map (EpsilonAdjustPointersOopClosure.do_oop_work mem) (o_fields ob)
           = o_fields ob) →
  adjust_walk mem L = mem.
Proof.
  induction L as [| o L IH]; intros mem Hfixed; simpl; [done |].
  assert (EpsilonAdjustPointersObjectClosure.do_object o mem = mem) as ->.
  { unfold EpsilonAdjustPointersObjectClosure.do_object.
    apply alter_id. intros ob Hob.
    rewrite (Hfixed o ob) by (done || by left). by destruct ob. }
  apply IH. intros o' ob Ho'. apply Hfixed. by right.
Qed.

Lemma map_id_on {A} (f : A → A) (l : list A) :
  (∀ x, x ∈ l → f x = x) → map f l = l.
Proof.
  induction l as [| x l IH]; intros Hfixed; simpl; [done |].
  rewrite Hfixed by (by left). f_equal. apply IH.
  intros y Hy. apply Hfixed. by right.
Qed.

Lemma process_roots_update_id f r :
  (∀ o, o ∈ root_slots r → f o = o) → process_roots_update f r = r.
Proof.
  intros Hfixed. unfold process_roots_update.
  destruct r as [r1 r2 r3 r4 r5]. unfold root_slots in Hfixed. simpl in *.
  f_equal; apply map_id_on; intros o Ho; apply Hfixed;
    rewrite !elem_of_app; auto 10.
Qed.

(** The second marking of step 5 retraces the first one when nothing has
    changed in between, and its guarantees hold. *)
Section verify.
Variables (sp : ContiguousSpace) (mem : Memory) (roots : Roots).
Hypothesis reachable_good : ∀ o,
  reachable mem (root_slots roots) o →
  cs_bottom sp ≤ o < cs_top sp
  ∧ ∃ ob, mem !! o = Some ob ∧ is_marked (o_mark ob) = false.

Lemma verify_do_oop_work v o :
  (o ≠ 0 → reachable mem (root_slots roots) o) →
  EpsilonVerifyOopClosure.ok v = true →
  scan_view (EpsilonVerifyOopClosure.do_oop_work sp mem v o)
  = EpsilonScanOopClosure.do_oop_work (scan_view v) o
  ∧ EpsilonVerifyOopClosure.ok
      (EpsilonVerifyOopClosure.do_oop_work sp mem v o) = true.
Proof using reachable_good.
  intros Hreach Hok.
  unfold EpsilonVerifyOopClosure.do_oop_work,
    EpsilonScanOopClosure.do_oop_work. simpl.
  destruct (Z.eqb_spec o 0) as [| Hnz]; [done |].
  destruct (decide (o ∈ EpsilonVerifyOopClosure.bitmap v)); [done |].
  simpl. split; [done |].
  destruct (reachable_good o (Hreach Hnz)) as (Hrange & ob & Hob & Hmark).
  rewrite Hok. unfold obj_mark. rewrite Hob, Hmark.
  rewrite bool_decide_eq_true_2 by eauto.
  destruct (Z.leb_spec (cs_bottom sp) o); [| lia].
  destruct (Z.ltb_spec o (cs_top sp)); [done | lia].
Qed.

Lemma verify_slots l : ∀ v,
  (∀ o, o ∈ l → o ≠ 0 → reachable mem (root_slots roots) o) →
  EpsilonVerifyOopClosure.ok v = true →
  scan_view (foldl (EpsilonVerifyOopClosure.do_oop_work sp mem) v l)
  = foldl EpsilonScanOopClosure.do_oop_work (scan_view v) l
  ∧ EpsilonVerifyOopClosure.ok
      (foldl (EpsilonVerifyOopClosure.do_oop_work sp mem) v l) = true.
Proof using reachable_good.
  induction l as [| o l IH]; intros v Hreach Hok; simpl; [done |].
  destruct (verify_do_oop_work v o) as [Hview Hok'];
    [intros ?; apply Hreach; [by left | done] | done |].
  rewrite <- Hview. apply IH; [| done].
  intros o' Ho'. apply Hreach. by right.
Qed.

Lemma verify_loop_retraces (fuel : nat) : ∀ v n cl' n',
  EpsilonVerifyOopClosure.ok v = true →
  mark_inv mem roots (scan_view v) n →
  mark_loop fuel mem (scan_view v) n = Returned (cl', n') →
  ∃ v', verify_loop fuel sp mem v n = Returned (v', n')
        ∧ scan_view v' = cl'
        ∧ EpsilonVerifyOopClosure.ok v' = true.
Proof using reachable_good.
  induction fuel as [| fuel IH]; intros [st bm ok] n cl' n' Hok Hinv Hrun.
  - destruct st; simpl in *; [| done].
    injection Hrun as <- <-. eauto.
  - destruct st as [| obj rest]; simpl in *.
    { injection Hrun as <- <-. eauto. }
    destruct (mark_inv_step mem roots obj rest bm n Hinv) as [Hinv' _].
    destruct (verify_slots (obj_fields mem obj)
                {| EpsilonVerifyOopClosure.stack := rest;
                   EpsilonVerifyOopClosure.bitmap := bm;
                   EpsilonVerifyOopClosure.ok := ok |})
      as [Hview Hok']; [| done |].
    { intros f Hf Hnz. apply (reachable_field _ _ obj); [| done | done].
      apply (inv_sound _ _ _ _ Hinv), (inv_stack_marked _ _ _ _ Hinv).
      by left. }
    unfold EpsilonVerifyOopClosure.oop_iterate.
    apply IH; [done | |].
    + rewrite Hview. exact Hinv'.
    + rewrite Hview. exact Hrun.
Qed.

Lemma verify_phase_passes bitmap reachable_roots reachable_heap :
  mark_phase mem roots ∅ = Returned (bitmap, reachable_roots, reachable_heap) →
  verify_phase sp mem roots reachable_roots reachable_heap
  = Returned (bitmap, true).
Proof using reachable_good.
  unfold mark_phase, verify_phase.
  set (v0 := {| EpsilonVerifyOopClosure.stack := [];
                EpsilonVerifyOopClosure.bitmap := ∅;
                EpsilonVerifyOopClosure.ok := true |}).
  destruct (verify_slots (root_slots roots) v0) as [Hview Hok]; [| done |].
  { intros o Ho Hnz. by apply reachable_root. }
  change (scan_view v0) with {| EpsilonScanOopClosure.stack := [];
                                EpsilonScanOopClosure.bitmap := ∅ |} in Hview.
  unfold process_roots. rewrite <- Hview.
  destruct (mark_loop (mark_fuel mem roots) mem _ 0) as [[cl' n'] |] eqn:Hrun;
    [| done].
  intros Hres. injection Hres as <- <- <-.
  destruct (verify_loop_retraces _ _ 0 cl' n' Hok
              ltac:(rewrite Hview; apply mark_inv_roots) Hrun)
    as (v' & Hvrun & <- & Hok').
  rewrite Hvrun. simpl. rewrite Hok', !Z.eqb_refl. done.
Qed.

End verify.

(** On a compacted heap, steps 2 to 4 change nothing: no object is
    forwarded, no mark is preserved, no slot is rewritten, no object is
    moved, and the compact point ends at [top]. *)
Lemma phases_on_compacted (sp : ContiguousSpace) (bitmap : gset Z)
    (m : Memory) (roots : Roots) :
  compacted sp m roots →
  (∀ o, o ∈ bitmap ↔ reachable m (root_slots roots) o) →
  calc_phase sp bitmap m
  = {| EpsilonCalcNewLocationObjectClosure.compact_point := cs_top sp;
       EpsilonCalcNewLocationObjectClosure.preserved_marks := [];
       EpsilonCalcNewLocationObjectClosure.mem := m |}
  ∧ adjust_phase sp bitmap m roots [] = (m, roots, [])
  ∧ move_phase sp bitmap m
    = {| EpsilonMoveObjectsObjectClosure.moved := 0;
         EpsilonMoveObjectsObjectClosure.mem := m |}.
Proof.
  intros (Hbottom & L & Htight & Hreach) Hmarked.
  destruct (tight_bounds _ _ _ _ Htight) as (Hle & Hsorted & Hall).
  assert (marked_in bitmap (cs_bottom sp) (cs_top sp) = L) as HL.
  { apply marked_in_sorted_list; [done | |].
    - intros o Ho. by apply Hall.
    - intros o. by rewrite Hmarked, Hreach. }
  assert (∀ o, o ≠ 0 → reachable m (root_slots roots) o →
               EpsilonAdjustPointersOopClosure.do_oop_work m o = o) as Hfixed.
  { intros o _ Ho. apply Hreach, Hall in Ho as (_ & ob & Hob & Hmark).
    by apply (do_oop_work_not_forwarded _ _ ob). }
  assert (adjust_walk m L = m) as Hadjust.
  { apply adjust_walk_id. intros o ob Ho Hob. apply map_id_on.
    intros f Hf. destruct (Z.eq_dec f 0) as [-> | Hnz]; [done |].
    apply Hfixed; [done |].
    apply (reachable_field _ _ o); [by apply Hreach | | done].
    unfold obj_fields. by rewrite Hob. }
  split; [| split].
  - unfold calc_phase. rewrite walk_bitmap_foldl, HL.
    by apply (calc_walk_tight L).
  - unfold adjust_phase. rewrite walk_bitmap_foldl, HL.
    fold (adjust_walk m L). rewrite Hadjust.
    rewrite process_roots_update_id; [done |].
    intros o Ho. destruct (Z.eq_dec o 0) as [-> | Hnz]; [done |].
    apply Hfixed; [done |]. by apply reachable_root.
  - unfold move_phase. rewrite walk_bitmap_foldl, HL.
    apply (move_walk_nothing_forwarded L). simpl.
    intros o Ho. destruct (Hall _ Ho) as (_ & ob & Hob & Hmark).
    unfold is_forwarded, obj_mark. by rewrite Hob.
Qed.

Lemma set_top_same sp : set_top (cs_top sp) sp = sp.
Proof. by destruct sp. Qed.

(** A cycle on a compacted heap completes, moves nothing, preserves no
    mark, and leaves the objects, the roots and [top] as they were. *)
Lemma entry_collect_compacted (g : Globals) (os : OsAnswers)
    (h : EpsilonHeap) :
  compacted (h_space h) (h_mem h) (h_roots h) →
  gcl_readers (h_gc_locker h) = 0 →
  commit_memory_ok os = true →
  ∃ bitmap reachable_roots reachable_heap h',
    mark_phase (h_mem h) (h_roots h) ∅
    = Returned (bitmap, reachable_roots, reachable_heap)
    ∧ (∀ o, o ∈ bitmap ↔ reachable (h_mem h) (root_slots (h_roots h)) o)
    ∧ reachable_heap = Z.of_nat (size bitmap)
    ∧ entry_collect g os h
      = (Completed {| stat_reachable_roots := reachable_roots;
                      stat_reachable_heap := reachable_heap;
                      stat_moved := 0;
                      stat_preserved_marks := 0 |}, h')
    ∧ h_mem h' = h_mem h
    ∧ h_roots h' = h_roots h
    ∧ cs_bottom (h_space h') = cs_bottom (h_space h)
    ∧ cs_top (h_space h') = cs_top (h_space h).
Proof.
  intros Hcompact Hidle Hcommit.
  destruct (mark_phase_marks_reachable (h_mem h) (h_roots h))
    as (bitmap & nr & nh & Hmark & Hreach & Hnh & _).
  destruct (phases_on_compacted _ bitmap _ _ Hcompact Hreach)
    as (Hcalc & Hadjust & Hmove).
  assert (verify_phase (h_space h) (h_mem h) (h_roots h) nr nh
          = Returned (bitmap, true)) as Hverify.
  { apply verify_phase_passes; [| done].
    destruct Hcompact as (_ & L & Htight & HL).
    destruct (tight_bounds _ _ _ _ Htight) as (_ & _ & Hall).
    intros o Ho. by apply Hall, HL. }
  exists bitmap, nr, nh. eexists.
  split; [done |]. split; [done |]. split; [done |].
  unfold entry_collect, GCLocker_is_active.
  rewrite Hidle, Hcommit, Hmark. cbn [negb Z.eqb].
  rewrite Hcalc.
  cbn [EpsilonCalcNewLocationObjectClosure.mem
       EpsilonCalcNewLocationObjectClosure.compact_point
       EpsilonCalcNewLocationObjectClosure.preserved_marks].
  rewrite Hadjust, Hmove.
  cbn [EpsilonMoveObjectsObjectClosure.mem
       EpsilonMoveObjectsObjectClosure.moved restore foldl length].
  rewrite set_top_same, Hverify.
  destruct (EpsilonVerify g); (split; [reflexivity |]);
    destruct (EpsilonUncommit g); done.
Qed.

(** *** Every cycle on a well-formed heap completes *)

(** Scanning slots whose objects have moved pushes the moved objects, in
    the same order. *)
Section scan_moved.
Import EpsilonScanOopClosure.
Variables (φ : Z → Z) (L : list Z).
Hypothesis null_stays : φ 0 = 0.
Hypothesis moved_not_null : ∀ o, o ∈ L → φ o ≠ 0.
Hypothesis moved_apart : ∀ a b, a ∈ L → b ∈ L → φ a = φ b → a = b.

Lemma do_oop_work_moved cl cl' o :
  (o ≠ 0 → o ∈ L) →
  moved_view φ L cl cl' →
  moved_view φ L (do_oop_work cl o) (do_oop_work cl' (φ o)).
Proof using All.
  intros Ho (Hstack & Hin & Hbitmap).
  destruct (Z.eq_dec o 0) as [-> | Hnz].
  { rewrite null_stays. by change (do_oop_work cl 0) with cl. }
  specialize (Ho Hnz).
  destruct (decide (o ∈ bitmap cl)) as [Hmarked | Hfresh].
  - rewrite (do_oop_work_marked cl o Hmarked).
    rewrite (do_oop_work_marked cl' (φ o)); [done |].
    apply Hbitmap. eauto.
  - rewrite (do_oop_work_unmarked cl o Hnz Hfresh).
    rewrite (do_oop_work_unmarked cl' (φ o)).
    + split; [simpl; by rewrite Hstack |]. split; simpl.
      * intros x Hx. apply elem_of_union in Hx as [Hx | Hx]; [| by apply Hin].
        apply elem_of_singleton in Hx. by subst.
      * intros o'. rewrite elem_of_union, elem_of_singleton, Hbitmap.
        split.
        -- intros [-> | (x & Hx & ->)]; [exists o | exists x]; set_solver.
        -- intros (x & Hx & ->).
           apply elem_of_union in Hx as [Hx | Hx]; [| eauto].
           apply elem_of_singleton in Hx. subst. by left.
    + by apply moved_not_null.
    + intros Hin'. apply Hbitmap in Hin' as (x & Hx & Heq).
      apply moved_apart in Heq; [| done | by apply Hin]. by subst.
Qed.

Lemma scan_slots_moved l : ∀ cl cl',
  (∀ o, o ∈ l → o ≠ 0 → o ∈ L) →
  moved_view φ L cl cl' →
  moved_view φ L (foldl do_oop_work cl l) (foldl do_oop_work cl' (map φ l)).
Proof using All.
  induction l as [| o l IH]; intros cl cl' Hl Hview; simpl; [done |].
  apply IH.
  - intros o' Ho'. apply Hl. by right.
  - apply do_oop_work_moved; [| done]. intros Hnz. apply Hl; [by left | done].
Qed.

End scan_moved.

Lemma NoDup_map_apart {A B} (f : A → B) (l : list A) a b :
  NoDup (map f l) → a ∈ l → b ∈ l → f a = f b → a = b.
Proof.
  induction l as [| x l IH]; intros Hnd Ha Hb Heq;
    [by apply elem_of_nil in Ha |].
  simpl in Hnd. apply NoDup_cons in Hnd as [Hfresh Hnd].
  apply elem_of_cons in Ha as [-> | Ha]; apply elem_of_cons in Hb as [-> | Hb].
  - done.
  - exfalso. apply Hfresh. rewrite Heq. apply list_elem_of_fmap. eauto.
  - exfalso. apply Hfresh. rewrite <- Heq. apply list_elem_of_fmap. eauto.
  - by apply IH.
Qed.

(** The heap steps 2 to 5 leave is marked as the heap before them was:
    the same objects at their new addresses, and the same two counts. *)
Lemma mark_phase_after_phases (sp : ContiguousSpace) (bitmap : gset Z)
    (m : Memory) (roots : Roots) (reachable_roots reachable_heap : Z) :
  heap_wf sp m roots →
  mark_phase m roots ∅ = Returned (bitmap, reachable_roots, reachable_heap) →
  let calc := calc_phase sp bitmap m in
  let adj :=
    adjust_phase sp bitmap (EpsilonCalcNewLocationObjectClosure.mem calc)
      roots (EpsilonCalcNewLocationObjectClosure.preserved_marks calc) in
  let mv := move_phase sp bitmap adj.1.1 in
  let mem5 := restore adj.2 (EpsilonMoveObjectsObjectClosure.mem mv) in
  let φ := EpsilonAdjustPointersOopClosure.do_oop_work
             (EpsilonCalcNewLocationObjectClosure.mem calc) in
  ∃ bitmap', mark_phase mem5 adj.1.2 ∅
             = Returned (bitmap', reachable_roots, reachable_heap)
             ∧ ∀ o', o' ∈ bitmap' ↔ ∃ o, o ∈ bitmap ∧ o' = φ o.
Proof.
  intros Hwf Hmark calc adj mv mem5 φ.
  destruct (mark_phase_marks_reachable m roots)
    as (bm & nr & nh & Hmark' & Hreach1 & Hnh1 & _).
  rewrite Hmark in Hmark'. injection Hmark' as <- <- <-.
  destruct (phases_compact _ bitmap _ _ Hwf Hreach1)
    as (HL & Hnd & _ & _ & Hroots & Hslid & Htight & Hreach).
  fold calc adj mv mem5 φ in Hroots, Hslid, Htight, Hreach.
  set (L := marked_in bitmap (cs_bottom sp) (cs_top sp)) in *.
  destruct (tight_bounds _ _ _ _ Htight) as (_ & Hsorted & _).
  pose proof (sorted_lt_NoDup _ Hsorted) as Hnd'.
  destruct (mark_phase_marks_reachable mem5 adj.1.2)
    as (bitmap' & nr' & nh' & Hmark2 & Hreach2 & Hnh2 & _).
  assert (∀ o', o' ∈ bitmap' ↔ ∃ o, o ∈ bitmap ∧ o' = φ o) as Hsame.
  { intros o'. rewrite Hreach2, Hreach, list_elem_of_fmap.
    split; intros (o & Ho & Hin); exists o; split; auto; by apply HL. }
  assert (Z.of_nat (length (EpsilonScanOopClosure.stack
            (process_roots EpsilonScanOopClosure.do_oop_work
               {| EpsilonScanOopClosure.stack := [];
                  EpsilonScanOopClosure.bitmap := ∅ |} adj.1.2)))
          = Z.of_nat (length (EpsilonScanOopClosure.stack
              (process_roots EpsilonScanOopClosure.do_oop_work
                 {| EpsilonScanOopClosure.stack := [];
                    EpsilonScanOopClosure.bitmap := ∅ |} roots)))) as Hnr.
  { unfold process_roots. rewrite Hroots.
    destruct (scan_slots_moved φ L (do_oop_work_null _)
                ltac:(intros o Ho; eapply moved_not_null; eauto;
                      apply Hwf)
                ltac:(intros a b; by apply NoDup_map_apart)
                (root_slots roots)
                {| EpsilonScanOopClosure.stack := [];
                   EpsilonScanOopClosure.bitmap := ∅ |}
                {| EpsilonScanOopClosure.stack := [];
                   EpsilonScanOopClosure.bitmap := ∅ |})
      as (Hstack & _).
    - intros o Ho Hnz. apply HL, Hreach1. by apply reachable_root.
    - split; [done |]. split; [set_solver |]. set_solver.
    - rewrite Hstack. by rewrite length_map. }
  exists bitmap'. split; [| done].
  rewrite Hmark2. do 2 f_equal; [f_equal |].
  - (* the roots push as many objects *)
    unfold mark_phase in Hmark, Hmark2.
    destruct (mark_loop (mark_fuel m roots) m _ 0) as [[cl1 n1] |];
      [| done].
    destruct (mark_loop (mark_fuel mem5 adj.1.2) mem5 _ 0) as [[cl2 n2] |];
      [| done].
    injection Hmark as _ <- _. injection Hmark2 as _ <- _.
    exact Hnr.
  - (* and the loop goes round as many times *)
    rewrite Hnh1, Hnh2. f_equal.
    transitivity (size (list_to_set (map φ L) : gset Z)).
    { f_equal. apply set_eq. intros o.
      by rewrite elem_of_list_to_set, Hreach2, Hreach. }
    transitivity (size (list_to_set L : gset Z)).
    { rewrite !size_list_to_set by done. by rewrite length_map. }
    f_equal. apply set_eq. intros o. by rewrite elem_of_list_to_set, HL.
Qed.

(** What a completed cycle has done. *)
Lemma entry_collect_completed (g : Globals) (os : OsAnswers)
    (h h' : EpsilonHeap) (s : GCStats) :
  entry_collect g os h = (Completed s, h') →
  gcl_readers (h_gc_locker h) = 0
  ∧ ∃ bitmap,
      mark_phase (h_mem h) (h_roots h) ∅
      = Returned (bitmap, stat_reachable_roots s, stat_reachable_heap s)
      ∧ let calc := calc_phase (h_space h) bitmap (h_mem h) in
        let adj :=
          adjust_phase (h_space h) bitmap
            (EpsilonCalcNewLocationObjectClosure.mem calc) (h_roots h)
            (EpsilonCalcNewLocationObjectClosure.preserved_marks calc) in
        let mv := move_phase (h_space h) bitmap adj.1.1 in
        h_mem h' = restore adj.2 (EpsilonMoveObjectsObjectClosure.mem mv)
        ∧ h_roots h' = adj.1.2
        ∧ cs_bottom (h_space h') = cs_bottom (h_space h)
        ∧ cs_top (h_space h')
          = EpsilonCalcNewLocationObjectClosure.compact_point calc
        ∧ h_gc_locker h' = h_gc_locker h.
Proof.
  unfold entry_collect, GCLocker_is_active. intros Hrun.
  destruct (Z.eqb_spec (gcl_readers (h_gc_locker h)) 0) as [Hidle |];
    [| discriminate].
  cbn [negb] in Hrun.
  destruct (negb (commit_memory_ok os)); [discriminate |].
  destruct (mark_phase (h_mem h) (h_roots h) ∅) as [[[bitmap nr] nh] |];
    [| discriminate].
  split; [done |]. exists bitmap.
  match type of Hrun with
  | context [adjust_phase ?a ?b ?c ?d ?e] =>
      destruct (adjust_phase a b c d e) as [[mem3 roots3] pm3] eqn:Hadj
  end.
  match type of Hrun with
  | context [if EpsilonVerify g then ?a else ?b] =>
      destruct (if EpsilonVerify g then a else b) as [[bitmap5 ok] |]
  end; [| discriminate].
  destruct ok; [| discriminate].
  injection Hrun as <- <-. cbn [stat_reachable_roots stat_reachable_heap].
  split; [done |].
  cbv zeta. cbn [fst snd h_mem h_roots h_space h_gc_locker].
  destruct (EpsilonUncommit g); done.
Qed.

(** C4. A second cycle, run on the heap a completed cycle has left, marks
    the same objects, each at its new address, as many from the roots and
    as many in all; forwards none of them and preserves no mark, the
    compact point reaching [top] with memory untouched; moves nothing; and
    leaves [top], the objects and the roots as they were. *)
Theorem second_cycle_moves_nothing (g : Globals) (os1 os2 : OsAnswers)
    (h0 h1 : EpsilonHeap) (s1 : GCStats) :
  heap_wf (h_space h0) (h_mem h0) (h_roots h0) →
  entry_collect g os1 h0 = (Completed s1, h1) →
  commit_memory_ok os2 = true →
  ∃ bitmap1 bitmap2 s2 h2,
    mark_phase (h_mem h0) (h_roots h0) ∅
    = Returned (bitmap1, stat_reachable_roots s1, stat_reachable_heap s1)
    ∧ mark_phase (h_mem h1) (h_roots h1) ∅
      = Returned (bitmap2, stat_reachable_roots s2, stat_reachable_heap s2)
    ∧ entry_collect g os2 h1 = (Completed s2, h2)
    ∧ (let new_address :=
         EpsilonAdjustPointersOopClosure.do_oop_work
           (EpsilonCalcNewLocationObjectClosure.mem
              (calc_phase (h_space h0) bitmap1 (h_mem h0))) in
       ∀ o', o' ∈ bitmap2 ↔ ∃ o, o ∈ bitmap1 ∧ o' = new_address o)
    ∧ stat_reachable_roots s2 = stat_reachable_roots s1
    ∧ stat_reachable_heap s2 = stat_reachable_heap s1
    ∧ calc_phase (h_space h1) bitmap2 (h_mem h1)
      = {| EpsilonCalcNewLocationObjectClosure.compact_point :=
             cs_top (h_space h1);
           EpsilonCalcNewLocationObjectClosure.preserved_marks := [];
           EpsilonCalcNewLocationObjectClosure.mem := h_mem h1 |}
    ∧ stat_moved s2 = 0
    ∧ stat_preserved_marks s2 = 0
    ∧ cs_top (h_space h2) = cs_top (h_space h1)
    ∧ h_mem h2 = h_mem h1
    ∧ h_roots h2 = h_roots h1.
Proof.
  intros Hwf Hfirst Hcommit.
  destruct (entry_collect_completed _ _ _ _ _ Hfirst)
    as (Hidle & bitmap1 & Hmark1 & Hmem1 & Hroots1 & Hbottom1 & Htop1 & Hlock1).
  destruct (mark_phase_marks_reachable (h_mem h0) (h_roots h0))
    as (bm & nr & nh & Hmark & Hreach1 & Hnh1 & _).
  rewrite Hmark1 in Hmark. injection Hmark as <- <- <-.
  destruct (phases_compact _ bitmap1 _ _ Hwf Hreach1)
    as (HL & Hnd & _ & _ & _ & _ & Htight & Hreach).
  set (φ := EpsilonAdjustPointersOopClosure.do_oop_work
              (EpsilonCalcNewLocationObjectClosure.mem
                 (calc_phase (h_space h0) bitmap1 (h_mem h0)))) in *.
  set (L := marked_in bitmap1 (cs_bottom (h_space h0)) (cs_top (h_space h0)))
    in *.
  rewrite <- Hmem1, <- Hroots1 in Hreach.
  rewrite <- Hmem1, <- Htop1, <- Hbottom1 in Htight.
  assert (compacted (h_space h1) (h_mem h1) (h_roots h1)) as Hcompact.
  { split; [rewrite Hbottom1; apply Hwf |]. exists (map φ L). done. }
  destruct (entry_collect_compacted g os2 h1 Hcompact
              ltac:(by rewrite Hlock1) Hcommit)
    as (bitmap2 & nr2 & nh2 & h2 & Hmark2 & Hreach2 & Hnh2 & Hsecond
        & Hmem2 & Hroots2 & _ & Htop2).
  assert (∀ o', o' ∈ bitmap2 ↔ ∃ o, o ∈ bitmap1 ∧ o' = φ o) as Hsame.
  { intros o'. rewrite Hreach2, Hreach, list_elem_of_fmap.
    split; intros (o & Ho & Hin); exists o; split; auto; by apply HL. }
  destruct (phases_on_compacted _ bitmap2 _ _ Hcompact Hreach2)
    as (Hcalc2 & _ & _).
  destruct (mark_phase_after_phases _ _ _ _ _ _ Hwf Hmark1)
    as (bitmap' & Hmark' & _).
  cbv zeta in Hmark'. rewrite <- Hmem1, <- Hroots1, Hmark2 in Hmark'.
  injection Hmark' as _ Hnr Hnh.
  exists bitmap1, bitmap2,
    {| stat_reachable_roots := nr2; stat_reachable_heap := nh2;
       stat_moved := 0; stat_preserved_marks := 0 |}, h2.
  split; [exact Hmark1 |]. split; [exact Hmark2 |].
  split; [exact Hsecond |]. split; [exact Hsame |].
  split; [exact Hnr |]. split; [exact Hnh |]. by repeat split.
Qed.

(** The three-object heap is well formed: A and C are what is reachable. *)
Lemma three_object_reachable o :
  reachable three_object_memory
    (root_slots (h_roots (three_object_heap 0))) o →
  o = 100 ∨ o = 108.
Proof.
  induction 1 as [o Hroot Hnz | o o' _ IH Hfield Hnz].
  - simpl in Hroot. unfold root_slots in Hroot. simpl in Hroot.
    apply elem_of_cons in Hroot as [-> | Hroot]; [by left |].
    apply elem_of_cons in Hroot as [-> | Hroot]; [done |].
    by apply elem_of_nil in Hroot.
  - destruct IH as [-> | ->]; vm_compute in Hfield.
    + apply elem_of_cons in Hfield as [-> | Hfield]; [by right |].
      by apply elem_of_nil in Hfield.
    + apply elem_of_cons in Hfield as [-> | Hfield]; [by left |].
      apply elem_of_cons in Hfield as [-> | Hfield]; [done |].
      by apply elem_of_nil in Hfield.
Qed.

Lemma three_object_heap_wf :
  heap_wf (h_space (three_object_heap 0)) (h_mem (three_object_heap 0))
    (h_roots (three_object_heap 0)).
Proof.
  constructor.
  - simpl. lia.
  - exact three_object_parsable.
  - intros o Ho. apply three_object_reachable in Ho as [-> | ->].
    + split; [simpl; lia |]. eexists. split; [reflexivity | reflexivity].
    + split; [simpl; lia |]. eexists. split; [reflexivity | reflexivity].
Qed.

Lemma second_cycle_witness :
  let h1 := snd (entry_collect sliding_globals os_all_fine
                   (three_object_heap 0)) in
  cs_top (h_space h1) = 108
  ∧ ∃ s2 h2, entry_collect sliding_globals os_all_fine h1 = (Completed s2, h2)
             ∧ stat_moved s2 = 0
             ∧ stat_preserved_marks s2 = 0
             ∧ cs_top (h_space h2) = 108.
Proof.
  intros h1.
  assert (cs_top (h_space h1) = 108) as Htop1 by (vm_compute; reflexivity).
  split; [exact Htop1 |].
  assert (entry_collect sliding_globals os_all_fine (three_object_heap 0)
          = (Completed {| stat_reachable_roots := 1; stat_reachable_heap := 2;
                          stat_moved := 1; stat_preserved_marks := 1 |}, h1))
    as Hfirst.
  { rewrite (surjective_pairing
               (entry_collect sliding_globals os_all_fine
                  (three_object_heap 0))).
    f_equal; vm_compute; reflexivity. }
  destruct (second_cycle_moves_nothing sliding_globals os_all_fine
              os_all_fine (three_object_heap 0) h1 _
              three_object_heap_wf Hfirst eq_refl)
    as (bitmap1 & bitmap2 & s2 & h2 & _ & _ & Hsecond & _ & _ & _ & _
        & Hmoved & Hpreserved & Htop2 & _).
  exists s2, h2. split; [exact Hsecond |]. split; [exact Hmoved |].
  split; [exact Hpreserved |]. by rewrite Htop2.
Defined.

(** On a well-formed heap, with the GC locker idle and the bitmap
    committed, [entry_collect] runs to completion: marking returns, and
    with [EpsilonVerify] the second marking returns with every guarantee
    holding. *)
Lemma entry_collect_completes (g : Globals) (os : OsAnswers)
    (h : EpsilonHeap) :
  heap_wf (h_space h) (h_mem h) (h_roots h) →
  gcl_readers (h_gc_locker h) = 0 →
  commit_memory_ok os = true →
  ∃ s h', entry_collect g os h = (Completed s, h').
Proof.
  intros Hwf Hidle Hcommit.
  destruct (mark_phase_marks_reachable (h_mem h) (h_roots h))
    as (bitmap & nr & nh & Hmark & Hreach1 & _).
  destruct (mark_phase_after_phases _ _ _ _ _ _ Hwf Hmark)
    as (bitmap' & Hmark' & _).
  destruct (phases_compact _ bitmap _ _ Hwf Hreach1)
    as (_ & _ & _ & _ & _ & _ & Htight & Hreach).
  cbv zeta in Hmark', Htight, Hreach.
  unfold entry_collect, GCLocker_is_active.
  rewrite Hidle, Hcommit, Hmark. cbn [negb Z.eqb].
  revert Hmark' Htight Hreach.
  match goal with
  | |- context [adjust_phase ?a ?b ?c ?d ?e] =>
      destruct (adjust_phase a b c d e) as [[mem3 roots3] pm3]
  end.
  cbn [fst snd]. intros Hmark' Htight Hreach.
  match goal with
  | |- context [verify_phase ?sp ?m ?r nr nh] =>
      assert (verify_phase sp m r nr nh = Returned (bitmap', true))
        as Hverify
  end.
  { apply verify_phase_passes; [| exact Hmark'].
    destruct (tight_bounds _ _ _ _ Htight) as (_ & _ & Hall).
    intros o Ho. apply Hreach, Hall in Ho. exact Ho. }
  rewrite Hverify.
  destruct (EpsilonVerify g); eexists _, _; reflexivity.
Qed.

(** In a cycle on a well-formed heap, the bitmap step 1 hands to step 2
    marks objects of the space only. *)
Lemma marked_objects_in_space (sp : ContiguousSpace) (mem : Memory)
    (roots : Roots) (bitmap : gset Z) (reachable_roots reachable_heap : Z) :
  heap_wf sp mem roots →
  mark_phase mem roots ∅ = Returned (bitmap, reachable_roots, reachable_heap) →
  ∀ o, o ∈ bitmap → cs_bottom sp ≤ o < cs_top sp ∧ is_Some (mem !! o).
Proof.
  intros Hwf Hmark o Ho.
  destruct (mark_phase_marks_reachable mem roots)
    as (bm & nr & nh & Hmark' & Hreach & _).
  rewrite Hmark in Hmark'. injection Hmark' as <- _ _.
  apply Hreach, (wf_reachable _ _ _ Hwf) in Ho as (Hrange & ob & Hob & _).
  eauto.
Qed.

(** *** Neither marking loop runs out of rounds *)

(** The guarantees of the verifying closure do not change what it marks
    and pushes. *)
Lemma verify_do_oop_work_view sp mem v o :
  scan_view (EpsilonVerifyOopClosure.do_oop_work sp mem v o)
  = EpsilonScanOopClosure.do_oop_work (scan_view v) o.
Proof.
  unfold EpsilonVerifyOopClosure.do_oop_work,
    EpsilonScanOopClosure.do_oop_work. simpl.
  destruct (o =? 0); [done |].
  destruct (decide (o ∈ EpsilonVerifyOopClosure.bitmap v)); done.
Qed.

Lemma verify_slots_view sp mem l : ∀ v,
  scan_view (foldl (EpsilonVerifyOopClosure.do_oop_work sp mem) v l)
  = foldl EpsilonScanOopClosure.do_oop_work (scan_view v) l.
Proof.
  induction l as [| o l IH]; intros v; simpl; [done |].
  by rewrite IH, verify_do_oop_work_view.
Qed.

Lemma verify_loop_view sp mem (fuel : nat) : ∀ v n cl' n',
  mark_loop fuel mem (scan_view v) n = Returned (cl', n') →
  ∃ v', verify_loop fuel sp mem v n = Returned (v', n')
        ∧ scan_view v' = cl'.
Proof.
  induction fuel as [| fuel IH]; intros [st bm ok] n cl' n' Hrun.
  - destruct st; simpl in *; [| done].
    injection Hrun as <- <-. eauto.
  - destruct st as [| obj rest]; simpl in *.
    { injection Hrun as <- <-. eauto. }
    apply IH. unfold EpsilonVerifyOopClosure.oop_iterate.
    rewrite verify_slots_view. exact Hrun.
Qed.

Lemma verify_phase_returns sp mem roots reachable_roots reachable_heap :
  ∃ bitmap ok,
    verify_phase sp mem roots reachable_roots reachable_heap
    = Returned (bitmap, ok).
Proof.
  destruct (mark_phase_returns mem roots) as (cl & n & Hrun & _).
  unfold verify_phase.
  set (v1 := process_roots (EpsilonVerifyOopClosure.do_oop_work sp mem)
               {| EpsilonVerifyOopClosure.stack := [];
                  EpsilonVerifyOopClosure.bitmap := ∅;
                  EpsilonVerifyOopClosure.ok := true |} roots).
  destruct (verify_loop_view sp mem (mark_fuel mem roots) v1 0 cl n)
    as (v' & Hvrun & _).
  { subst v1. unfold process_roots. rewrite verify_slots_view. exact Hrun. }
  rewrite Hvrun. eauto.
Qed.

(** [entry_collect] is total: the bounds on the rounds of its loops are
    never reached, whatever the heap. *)
Lemma entry_collect_never_diverges (g : Globals) (os : OsAnswers)
    (h : EpsilonHeap) :
  fst (entry_collect g os h) ≠ Diverged.
Proof.
  unfold entry_collect.
  destruct (GCLocker_is_active (h_gc_locker h)); [done |].
  destruct (negb (commit_memory_ok os)); [done |].
  destruct (mark_phase_marks_reachable (h_mem h) (h_roots h))
    as (bitmap & nr & nh & Hmark & _).
  rewrite Hmark.
  match goal with
  | |- context [adjust_phase ?a ?b ?c ?d ?e] =>
      destruct (adjust_phase a b c d e) as [[mem3 roots3] pm3]
  end.
  match goal with
  | |- context [verify_phase ?sp ?m ?r nr nh] =>
      destruct (verify_phase_returns sp m r nr nh) as (bitmap5 & ok & Hverify)
  end.
  rewrite Hverify.
  destruct (EpsilonVerify g), ok; done.
Qed.

(** * Further properties: the allocator call after call, TLAB sizes,
      collection requests, and what a cycle keeps *)

(** ** The allocator, call after call *)

Lemma update_counters_after_spaces g verbose h :
  a_space (update_counters_after g verbose h) = a_space h
  ∧ a_virtual_space (update_counters_after g verbose h) = a_virtual_space h.
Proof.
  unfold update_counters_after. cbv zeta.
  repeat match goal with
         | |- context [if ?c then _ else _] => destruct c
         end; done.
Qed.

Lemma alloc_wf_inv g h : alloc_wf g h → alloc_inv g h.
Proof.
  intros [Hword Hlow Hlowb Hhigh Htop Hres Hfits].
  constructor; try done. rewrite Hhigh. symmetry. apply Z.div_mul. lia.
Qed.

Lemma alloc_inv_spaces g h h' :
  a_space h' = a_space h → a_virtual_space h' = a_virtual_space h →
  alloc_inv g h → alloc_inv g h'.
Proof.
  intros Hsp Hvs [Hword Hlow Hlowb Hend Htop Hres Hfits].
  constructor; unfold max_capacity in *; rewrite ?Hsp, ?Hvs; done.
Qed.

(** Under the invariant nothing wraps around in the block under the
    lock. *)
Lemma alloc_inv_sizes g h :
  alloc_inv g h →
  0 ≤ used g h ≤ capacity h ∧ capacity h ≤ max_capacity h.
Proof.
  intros [Hword Hlow Hlowb Hend Htop Hres Hfits].
  pose proof (Z.mul_div_le (vs_high (a_virtual_space h)) (HeapWordSize g) Hword).
  unfold used, capacity, max_capacity, committed_size, reserved_size.
  rewrite Hlowb, Hlow. rewrite Hend in Htop. nia.
Qed.

(** One call of [allocate_work], in full. *)
Lemma allocate_work_outcome (g : Globals) (size : Z) (verbose : bool)
    (h : AllocState) (fuel : nat) :
  alloc_inv g h →
  0 ≤ size → size * HeapWordSize g < size_t_modulus →
  ∃ res h', allocate_work (S (S fuel)) g size verbose h = Returned (res, h')
    ∧ (res = None
       ↔ cs_end (a_space h) - cs_top (a_space h) < size
         ∧ max_capacity h - used g h ≤ size * HeapWordSize g)
    ∧ (res = None → h' = h)
    ∧ (∀ a, res = Some a →
         a = cs_top (a_space h) ∧ cs_top (a_space h') = a + size)
    ∧ alloc_inv g h'
    ∧ cs_bottom (a_space h') = cs_bottom (a_space h)
    ∧ cs_end (a_space h) ≤ cs_end (a_space h')
    ∧ vs_low (a_virtual_space h') = vs_low (a_virtual_space h)
    ∧ vs_low_boundary (a_virtual_space h') = vs_low_boundary (a_virtual_space h)
    ∧ vs_high_boundary (a_virtual_space h')
      = vs_high_boundary (a_virtual_space h)
    ∧ vs_high (a_virtual_space h) ≤ vs_high (a_virtual_space h').
Proof.
  intros Hinv Hsize Hbytes.
  destruct (alloc_inv_sizes g h Hinv) as [Hused Hcap].
  destruct Hinv as [Hword Hlow Hlowb Hend Htop Hres Hfits].
  assert (0 ≤ size * HeapWordSize g) as Hnn by nia.
  cbn [allocate_work]. unfold par_allocate.
  destruct (Z.leb_spec size (cs_end (a_space h) - cs_top (a_space h)))
    as [Hfast | Hslow].
  { eexists _, _. split; [reflexivity |].
    match goal with
    | |- context [update_counters_after g verbose ?x] =>
        destruct (update_counters_after_spaces g verbose x) as [Hsp Hvs]
    end.
    rewrite Hsp, Hvs. cbn [set_alloc_space a_space a_virtual_space
                           cs_bottom cs_top cs_end].
    split; [split; [discriminate | lia] |].
    split; [discriminate |].
    split; [by intros a [= <-] |].
    split; [| lia].
    constructor; unfold max_capacity;
      rewrite ?Hsp, ?Hvs;
      cbn [set_alloc_space a_space a_virtual_space cs_bottom cs_top cs_end];
      try done; lia. }
  unfold expand_and_set_end.
  destruct (expand_decision g size h) as [bytes |] eqn:Hdecision.
  2:{ exists None, h. split; [reflexivity |].
      split.
      { split; [| done]. intros _. split; [lia |].
        by apply (expand_decision_no_space_iff g size h). }
      split; [done |]. split; [discriminate |].
      split; [by constructor |]. lia. }
  assert (max_capacity h - used g h > size * HeapWordSize g) as Hroom.
  { destruct (Z.le_gt_cases (max_capacity h - used g h)
                (size * HeapWordSize g)) as [Hle |]; [| lia].
    apply (expand_decision_no_space_iff g size h) in Hle; try done; try lia.
    congruence. }
  assert (size * HeapWordSize g ≤ bytes ≤ uncommitted_size (a_virtual_space h)
          ∨ bytes = uncommitted_size (a_virtual_space h)) as Hbytes_range.
  { rewrite expand_decision_unfold in Hdecision by (done || lia).
    cbv zeta in Hdecision.
    pose proof (MAX2_ge_l (size * HeapWordSize g) (EpsilonMinHeapExpand g)).
    destruct (Z.ltb_spec (MAX2 (size * HeapWordSize g) (EpsilonMinHeapExpand g))
                (max_capacity h - capacity h)).
    - injection Hdecision as <-. left.
      unfold uncommitted_size, max_capacity, capacity in *. lia.
    - destruct (Z.ltb_spec (size * HeapWordSize g) (max_capacity h - used g h));
        [| discriminate].
      injection Hdecision as <-. right. reflexivity. }
  assert (0 ≤ bytes ≤ uncommitted_size (a_virtual_space h)) as Hle.
  { unfold uncommitted_size, capacity, max_capacity in *. lia. }
  unfold expand_by.
  destruct (Z.ltb_spec (uncommitted_size (a_virtual_space h)) bytes); [lia |].
  cbn [snd vs_high set_alloc_space set_end a_space a_virtual_space
       cs_top cs_end cs_bottom].
  pose proof (Z.mul_div_le (vs_high (a_virtual_space h)) (HeapWordSize g) Hword)
    as Hfloor.
  assert (cs_top (a_space h) + size
          ≤ (vs_high (a_virtual_space h) + bytes) / HeapWordSize g)
    as Hfits_now.
  { apply Z.div_le_lower_bound; [lia |].
    destruct Hbytes_range as [[Hwant _] | ->].
    - rewrite Hend in Htop. nia.
    - unfold uncommitted_size, reserved_size, committed_size.
      unfold max_capacity, used, reserved_size in Hroom.
      rewrite Hlowb, Hlow in *. nia. }
  destruct (Z.leb_spec size
              ((vs_high (a_virtual_space h) + bytes) / HeapWordSize g
               - cs_top (a_space h))); [| lia].
  eexists _, _. split; [reflexivity |].
  match goal with
  | |- context [update_counters_after g verbose ?x] =>
      destruct (update_counters_after_spaces g verbose x) as [Hsp Hvs]
  end.
  rewrite Hsp, Hvs. cbn [set_alloc_space a_space a_virtual_space
                         cs_bottom cs_top cs_end vs_low vs_high
                         vs_low_boundary vs_high_boundary].
  assert (vs_high (a_virtual_space h) / HeapWordSize g
          ≤ (vs_high (a_virtual_space h) + bytes) / HeapWordSize g) as Hmono.
  { apply Z.div_le_mono; lia. }
  split; [split; [discriminate | lia] |].
  split; [discriminate |].
  split; [by intros a [= <-] |].
  split; [| lia].
  constructor; unfold max_capacity, reserved_size;
    rewrite ?Hsp, ?Hvs;
    cbn [set_alloc_space a_space a_virtual_space cs_bottom cs_top cs_end
         vs_low vs_high vs_low_boundary vs_high_boundary];
    try done; try lia.
  - unfold uncommitted_size, reserved_size, committed_size in Hle. lia.
Qed.

Lemma exact_fit_heap_inv : alloc_inv exact_fit_globals exact_fit_heap.
Proof. constructor; vm_compute; try split; congruence. Qed.

(** X1. [allocate_work] keeps the invariant of the allocator, so calls
    compose: after any call the space still starts where the virtual space
    does, [end] is still the committed high end, [bottom <= top <= end]
    still holds and nothing is committed beyond the reservation. The
    reservation and [bottom] never change, and memory is only ever
    committed, never given back. *)
Theorem allocate_work_keeps_invariant (g : Globals) (size : Z)
    (verbose : bool) (h : AllocState) (fuel : nat) :
  alloc_inv g h →
  0 ≤ size → size * HeapWordSize g < size_t_modulus →
  ∃ res h', allocate_work (S (S fuel)) g size verbose h = Returned (res, h')
    ∧ alloc_inv g h'
    ∧ cs_bottom (a_space h') = cs_bottom (a_space h)
    ∧ max_capacity h' = max_capacity h
    ∧ capacity h ≤ capacity h' ≤ max_capacity h
    ∧ used g h ≤ used g h' ≤ capacity h'.
Proof.
  intros Hinv Hsize Hbytes.
  destruct (allocate_work_outcome g size verbose h fuel Hinv Hsize Hbytes)
    as (res & h' & Hrun & Hnone & Hsame & Hsome & Hinv' & Hbottom & Hend
        & Hlow & Hlowb & Hhighb & Hhigh).
  exists res, h'. split; [exact Hrun |]. split; [exact Hinv' |].
  split; [exact Hbottom |].
  destruct (alloc_inv_sizes g h' Hinv') as [Hused' Hcap'].
  assert (max_capacity h' = max_capacity h) as Hmax.
  { unfold max_capacity, reserved_size. by rewrite Hlowb, Hhighb. }
  split; [exact Hmax |].
  split; [unfold capacity, committed_size in *; lia |].
  split; [| lia].
  unfold used. rewrite Hbottom.
  destruct res as [a |].
  - destruct (Hsome a eq_refl) as [-> ->].
    pose proof (ainv_word _ _ Hinv). nia.
  - rewrite (Hsame eq_refl). lia.
Qed.

Lemma allocate_work_keeps_invariant_witness :
  ∃ res h', allocate_work 2 exact_fit_globals 128 true exact_fit_heap
            = Returned (res, h')
    ∧ alloc_inv exact_fit_globals h'
    ∧ max_capacity h' = 4096.
Proof.
  destruct (allocate_work_keeps_invariant exact_fit_globals 128 true
              exact_fit_heap 0 exact_fit_heap_inv ltac:(lia)
              ltac:(vm_compute; reflexivity))
    as (res & h' & Hrun & Hinv & _ & Hmax & _).
  exists res, h'. split; [exact Hrun |]. split; [exact Hinv |].
  rewrite Hmax. reflexivity.
Defined.

(** X2. What a call of [allocate_work] hands out: on success the block
    starts at the old [top], lies inside the space, [top] has moved past
    it and [used()] has grown by exactly its size in bytes; on failure
    the heap is as it was, nothing is committed for a request that
    cannot be served. *)
Theorem allocate_work_hands_out_block (g : Globals) (size : Z)
    (verbose : bool) (h : AllocState) (fuel : nat) :
  alloc_inv g h →
  0 ≤ size → size * HeapWordSize g < size_t_modulus →
  ∃ res h', allocate_work (S (S fuel)) g size verbose h = Returned (res, h')
    ∧ match res with
      | Some a =>
          a = cs_top (a_space h)
          ∧ cs_bottom (a_space h') ≤ a
          ∧ cs_top (a_space h') = a + size
          ∧ a + size ≤ cs_end (a_space h')
          ∧ used g h' = used g h + size * HeapWordSize g
      | None => h' = h
      end.
Proof.
  intros Hinv Hsize Hbytes.
  destruct (allocate_work_outcome g size verbose h fuel Hinv Hsize Hbytes)
    as (res & h' & Hrun & Hnone & Hsame & Hsome & Hinv' & Hbottom & _).
  exists res, h'. split; [exact Hrun |].
  destruct res as [a |]; [| by apply Hsame].
  destruct (Hsome a eq_refl) as [Ha Htop'].
  pose proof (ainv_top _ _ Hinv). pose proof (ainv_top _ _ Hinv').
  split; [exact Ha |]. split; [lia |]. split; [exact Htop' |].
  split; [lia |]. unfold used. rewrite Hbottom, Htop', Ha. lia.
Qed.

Lemma allocate_work_hands_out_block_witness :
  ∃ h', allocate_work 2 exact_fit_globals 128 true exact_fit_heap
        = Returned (Some 356, h')
    ∧ cs_top (a_space h') = 484
    ∧ used exact_fit_globals h' = 3072.
Proof.
  destruct (allocate_work_hands_out_block exact_fit_globals 128 true
              exact_fit_heap 0 exact_fit_heap_inv ltac:(lia)
              ltac:(vm_compute; reflexivity))
    as (res & h' & Hrun & Hres).
  assert (res = Some 356) as ->.
  { vm_compute in Hrun. by injection Hrun as <- _. }
  destruct Hres as (_ & _ & Htop & _ & Hused).
  exists h'. split; [exact Hrun |]. split; [exact Htop |].
  rewrite Hused. reflexivity.
Defined.

(** X3. Two calls of [allocate_work] in a row never hand out overlapping
    memory: the second block starts where the first one ends, and both
    lie in [bottom, top) of the heap afterwards. *)
Theorem allocate_work_blocks_disjoint (g : Globals) (size1 size2 : Z)
    (verbose1 verbose2 : bool) (h h1 h2 : AllocState) (fuel1 fuel2 : nat)
    (a1 a2 : Z) :
  alloc_inv g h →
  0 ≤ size1 → size1 * HeapWordSize g < size_t_modulus →
  0 ≤ size2 → size2 * HeapWordSize g < size_t_modulus →
  allocate_work (S (S fuel1)) g size1 verbose1 h = Returned (Some a1, h1) →
  allocate_work (S (S fuel2)) g size2 verbose2 h1 = Returned (Some a2, h2) →
  a2 = a1 + size1
  ∧ cs_bottom (a_space h2) ≤ a1
  ∧ a2 + size2 = cs_top (a_space h2)
  ∧ ∀ w, ¬ (block a1 size1 w ∧ block a2 size2 w).
Proof.
  intros Hinv Hsize1 Hbytes1 Hsize2 Hbytes2 Hrun1 Hrun2.
  destruct (allocate_work_outcome g size1 verbose1 h fuel1 Hinv Hsize1 Hbytes1)
    as (res1 & h1' & Hrun1' & _ & _ & Hsome1 & Hinv1 & Hbottom1 & _).
  rewrite Hrun1 in Hrun1'. injection Hrun1' as <- <-.
  destruct (allocate_work_outcome g size2 verbose2 h1 fuel2 Hinv1 Hsize2 Hbytes2)
    as (res2 & h2' & Hrun2' & _ & _ & Hsome2 & Hinv2 & Hbottom2 & _).
  rewrite Hrun2 in Hrun2'. injection Hrun2' as <- <-.
  destruct (Hsome1 a1 eq_refl) as [Ha1 Htop1].
  destruct (Hsome2 a2 eq_refl) as [Ha2 Htop2].
  pose proof (ainv_top _ _ Hinv).
  split; [lia |]. split; [lia |]. split; [lia |].
  unfold block. intros w. lia.
Qed.

Lemma allocate_work_blocks_disjoint_witness :
  ∃ h1 h2,
    allocate_work 2 exact_fit_globals 64 true exact_fit_heap
    = Returned (Some 356, h1)
    ∧ allocate_work 2 exact_fit_globals 32 false h1 = Returned (Some 420, h2)
    ∧ ∀ w, ¬ (block 356 64 w ∧ block 420 32 w).
Proof.
  destruct (allocate_work 2 exact_fit_globals 64 true exact_fit_heap)
    as [[r1 h1] |] eqn:Hrun1; [| vm_compute in Hrun1; discriminate].
  pose proof Hrun1 as Hc. vm_compute in Hc. injection Hc as Hr1 Hh1.
  subst r1 h1.
  match type of Hrun1 with
  | _ = Returned (_, ?x) =>
      destruct (allocate_work 2 exact_fit_globals 32 false x)
        as [[r2 h2] |] eqn:Hrun2; [| vm_compute in Hrun2; discriminate]
  end.
  pose proof Hrun2 as Hc. vm_compute in Hc. injection Hc as Hr2 _.
  subst r2.
  eexists _, h2. split; [reflexivity |]. split; [exact Hrun2 |].
  exact (proj2 (proj2 (proj2
           (allocate_work_blocks_disjoint exact_fit_globals 64 32 true false
              exact_fit_heap _ _ 0 0 356 420 exact_fit_heap_inv
              ltac:(lia) ltac:(vm_compute; reflexivity)
              ltac:(lia) ltac:(vm_compute; reflexivity) Hrun1 Hrun2)))).
Defined.

(** ** Running out of memory *)

Lemma allocate_work_more_fuel (g : Globals) (size : Z) (verbose : bool)
    (fuel : nat) : ∀ (h : AllocState) r,
  allocate_work fuel g size verbose h = Returned r →
  allocate_work (S fuel) g size verbose h = Returned r.
Proof.
  induction fuel as [| fuel IH]; intros h r Hrun; [done |].
  cbn [allocate_work] in Hrun |- *.
  destruct (par_allocate size (a_space h)) as [[a |] sp]; [done |].
  destruct (expand_and_set_end g size h) as [h1 |]; [| done].
  by apply IH.
Qed.

(** X4. With one thread and a heap that satisfies the allocator's
    invariant, the loop of [allocate_work] goes round at most twice: an
    expansion always makes room for the retry. It returns [nullptr]
    exactly when the request does not fit below [end] and, in bytes, is
    no smaller than what is left of the reservation. *)
Theorem allocate_work_fails_iff_no_room (g : Globals) (size : Z)
    (verbose : bool) (h : AllocState) :
  alloc_inv g h →
  0 ≤ size → size * HeapWordSize g < size_t_modulus →
  ∃ res h',
    (∀ fuel, allocate_work (S (S fuel)) g size verbose h = Returned (res, h'))
    ∧ (res = None
       ↔ cs_end (a_space h) - cs_top (a_space h) < size
         ∧ max_capacity h - used g h ≤ size * HeapWordSize g).
Proof.
  intros Hinv Hsize Hbytes.
  destruct (allocate_work_outcome g size verbose h 0 Hinv Hsize Hbytes)
    as (res & h' & Hrun & Hnone & _).
  exists res, h'. split; [| exact Hnone].
  intros fuel. induction fuel as [| fuel IH]; [exact Hrun |].
  by apply allocate_work_more_fuel.
Qed.

Lemma allocate_work_fails_iff_no_room_witness :
  ∃ h', (∀ fuel, allocate_work (S (S fuel)) exact_fit_globals 256 true
                   exact_fit_heap = Returned (None, h')).
Proof.
  destruct (allocate_work_fails_iff_no_room exact_fit_globals 256 true
              exact_fit_heap exact_fit_heap_inv ltac:(lia)
              ltac:(vm_compute; reflexivity))
    as (res & h' & Hrun & Hnone).
  assert (res = None) as ->.
  { apply Hnone. vm_compute. split; [reflexivity | congruence]. }
  exists h'. exact Hrun.
Defined.

(** ** The counters of the allocation path *)

Lemma update_counters_after_quiet g h : update_counters_after g false h = h.
Proof. reflexivity. Qed.

(** Where the state [allocate_work] returns comes from: on success it is
    some state with the watermarks of the start, passed through the
    counter updates. *)
Lemma allocate_work_shape (g : Globals) (size : Z) (verbose : bool)
    (fuel : nat) : ∀ (h : AllocState) res h',
  allocate_work fuel g size verbose h = Returned (res, h') →
  match res with
  | Some _ => ∃ x, h' = update_counters_after g verbose x
                   ∧ monitoring_of x = monitoring_of h
  | None => monitoring_of h' = monitoring_of h
  end.
Proof.
  induction fuel as [| fuel IH]; intros h res h' Hrun; [done |].
  cbn [allocate_work] in Hrun.
  destruct (par_allocate size (a_space h)) as [[a |] sp].
  { injection Hrun as <- <-. eexists. split; [reflexivity | reflexivity]. }
  unfold expand_and_set_end in Hrun.
  destruct (expand_decision g size h) as [bytes |].
  - apply IH in Hrun. destruct res as [a |].
    + destruct Hrun as (x & -> & Hx). exists x. split; [done |].
      rewrite Hx. reflexivity.
    + rewrite Hrun. reflexivity.
  - by injection Hrun as <- <-.
Qed.

(** X5. After a successful call of [allocate_work] with [verbose], the
    monitoring counters are never staler than one step: the distance, as
    the code computes it, from the last counter update to [used()] is
    below [_step_counter_update], and likewise for the occupancy line.
    Each call updates the counters at most once and prints at most one
    line, and the steps are never written. *)
Theorem allocate_work_counters_fresh (g : Globals) (size : Z) (fuel : nat)
    (h h' : AllocState) (a : Z) :
  allocate_work fuel g size true h = Returned (Some a, h') →
  (0 < a_step_counter_update h →
     size_t_sub (used g h') (a_last_counter_update h')
     < a_step_counter_update h)
  ∧ (0 < a_step_heap_print h →
       size_t_sub (used g h') (a_last_heap_print h') < a_step_heap_print h)
  ∧ a_step_counter_update h' = a_step_counter_update h
  ∧ a_step_heap_print h' = a_step_heap_print h
  ∧ (a_counter_updates h ≤ a_counter_updates h' ≤ S (a_counter_updates h))%nat
  ∧ (a_heap_prints h ≤ a_heap_prints h' ≤ S (a_heap_prints h))%nat.
Proof.
  intros Hrun. apply allocate_work_shape in Hrun as (x & -> & Hx).
  injection Hx as Hlc Hlp Hsc Hsp Hcu Hhp.
  clear Hlc Hlp. rewrite <- Hsc, <- Hsp, <- Hcu, <- Hhp.
  assert (size_t_sub (used g x) (used g x) = 0) as Hzero.
  { unfold size_t_sub, to_size_t. rewrite Z.sub_diag. reflexivity. }
  unfold update_counters_after. cbv zeta. cbn [andb].
  destruct (Z.leb_spec (a_step_counter_update x)
              (size_t_sub (used g x) (a_last_counter_update x)));
    cbn [a_step_heap_print a_last_heap_print];
    destruct (Z.leb_spec (a_step_heap_print x)
                (size_t_sub (used g x) (a_last_heap_print x)));
    unfold used in *;
    cbn [a_space a_last_counter_update a_last_heap_print
         a_step_counter_update a_step_heap_print a_counter_updates
         a_heap_prints];
    rewrite ?Hzero; repeat split; lia.
Qed.

Lemma allocate_work_counters_fresh_witness :
  ∃ h', allocate_work 2 exact_fit_globals 128 true exact_fit_heap
        = Returned (Some 356, h')
    ∧ size_t_sub (used exact_fit_globals h') (a_last_counter_update h') < 256
    ∧ (a_counter_updates h' ≤ 1)%nat.
Proof.
  destruct (allocate_work 2 exact_fit_globals 128 true exact_fit_heap)
    as [[r h'] |] eqn:Hrun; [| vm_compute in Hrun; discriminate].
  pose proof Hrun as Hc. vm_compute in Hc. injection Hc as Hr _. subst r.
  destruct (allocate_work_counters_fresh exact_fit_globals 128 2
              exact_fit_heap h' 356 Hrun)
    as (Hfresh & _ & _ & _ & Hcount & _).
  exists h'. split; [reflexivity |].
  split; [apply Hfresh; reflexivity | apply Hcount].
Defined.

(** X6. [allocate_loaded_archive_space] is silent: whether it succeeds or
    not, no counter is updated, no occupancy line is printed and no
    watermark moves; the objects, the roots, the bitmap, the GC locker and
    the collection requests are left alone as well. *)
Theorem allocate_loaded_archive_space_silent (g : Globals) (size : Z)
    (fuel : nat) (vm vm' : VM) (res : option Z) :
  allocate_loaded_archive_space fuel g size vm = Returned (res, vm') →
  vm_monitoring vm' = vm_monitoring vm
  ∧ vm_requests vm' = vm_requests vm
  ∧ h_mem (vm_heap vm') = h_mem (vm_heap vm)
  ∧ h_roots (vm_heap vm') = h_roots (vm_heap vm)
  ∧ h_bitmap (vm_heap vm') = h_bitmap (vm_heap vm)
  ∧ h_gc_locker (vm_heap vm') = h_gc_locker (vm_heap vm)
  ∧ h_warnings (vm_heap vm') = h_warnings (vm_heap vm).
Proof.
  unfold allocate_loaded_archive_space, allocate_work_in. intros Hrun.
  destruct (allocate_work fuel g size false (alloc_view vm))
    as [[r a] |] eqn:Hwork; [| discriminate].
  injection Hrun as -> <-.
  apply allocate_work_shape in Hwork.
  assert (monitoring_of a = monitoring_of (alloc_view vm)) as Hmon.
  { destruct res; [| exact Hwork].
    destruct Hwork as (x & -> & Hx). by rewrite update_counters_after_quiet. }
  split; [| done].
  destruct vm as [hp [] rq]. exact Hmon.
Qed.

Lemma allocate_loaded_archive_space_silent_witness :
  let vm := {| vm_heap := three_object_heap 0;
               vm_monitoring := monitoring_of exact_fit_heap;
               vm_requests := {| req_id := 0; heap_lock_held := false |} |} in
  ∃ vm', allocate_loaded_archive_space 2 sliding_globals 8 vm
         = Returned (Some 112, vm')
    ∧ vm_monitoring vm' = vm_monitoring vm.
Proof.
  intros vm.
  destruct (allocate_loaded_archive_space 2 sliding_globals 8 vm)
    as [[r vm'] |] eqn:Hrun; [| vm_compute in Hrun; discriminate].
  assert (r = Some 112) as ->.
  { unfold allocate_loaded_archive_space, allocate_work_in in Hrun.
    destruct (allocate_work 2 sliding_globals 8 false (alloc_view vm))
      as [[r' a] |] eqn:Hwork; [| discriminate].
    injection Hrun as <- _. vm_compute in Hwork. by injection Hwork as <- _. }
  exists vm'. split; [reflexivity |].
  exact (proj1 (allocate_loaded_archive_space_silent sliding_globals 8 2
                  vm vm' _ Hrun)).
Defined.

(** ** TLAB sizes *)

Lemma clamp_bounds value lo hi : lo ≤ hi → lo ≤ clamp value lo hi ≤ hi.
Proof.
  intros Hle. unfold clamp, MIN2, MAX2.
  destruct (Z.gtb_spec value lo);
    match goal with |- context [?a <? ?b] => destruct (Z.ltb_spec a b) end;
    lia.
Qed.

Lemma align_up_bounds size alignment :
  0 < alignment →
  size ≤ align_up size alignment < size + alignment
  ∧ align_up size alignment mod alignment = 0.
Proof.
  intros Hpos. unfold align_up.
  pose proof (Z.div_mod (size + (alignment - 1)) alignment ltac:(lia)) as Hdm.
  pose proof (Z.mod_pos_bound (size + (alignment - 1)) alignment Hpos).
  split; [nia |]. apply Z.mod_mul. lia.
Qed.

Lemma align_up_below size alignment limit :
  0 < alignment → size ≤ limit → limit mod alignment = 0 →
  align_up size alignment ≤ limit.
Proof.
  intros Hpos Hle Hmod.
  destruct (align_up_bounds size alignment Hpos) as [[_ Hlt] Hmod'].
  apply Z.mod_divide in Hmod as [k ->]; [| lia].
  apply Z.mod_divide in Hmod' as [k' Hk']; [| lia].
  rewrite Hk' in Hlt |- *.
  assert (k' < k + 1) as Hk.
  { apply (Z.mul_lt_mono_pos_r alignment); lia. }
  nia.
Qed.

Lemma tlab_size_bounds g max_tlab_size min_size l :
  0 < MinObjAlignment g →
  min_size ≤ max_tlab_size →
  max_tlab_size mod MinObjAlignment g = 0 →
  min_size ≤ tlab_size g max_tlab_size min_size l ≤ max_tlab_size
  ∧ tlab_size g max_tlab_size min_size l mod MinObjAlignment g = 0.
Proof.
  intros Hpos Hle Hmod. unfold tlab_size.
  pose proof (clamp_bounds (tl_size l) min_size max_tlab_size Hle).
  destruct (align_up_bounds (clamp (tl_size l) min_size max_tlab_size)
              (MinObjAlignment g) Hpos) as [[Hge _] Haligned].
  split; [| exact Haligned]. split; [lia |].
  apply align_up_below; [done | lia | done].
Qed.

(** X7. The checks of [allocate_new_tlab] on the size it settles on hold
    whenever [min_size <= _max_tlab_size] and [_max_tlab_size] is object
    aligned: the size is object aligned and lies between [min_size] and
    [_max_tlab_size], whatever was requested and whatever the elastic
    sizing made of it. The allocator is asked for exactly that size, and
    on success [*actual_size] is that size. In bytes it never exceeds
    what [unsafe_max_tlab_alloc] announces. *)
Theorem allocate_new_tlab_honors_bounds {H : Type} (g : Globals)
    (max_tlab_size decay_time_ns now : Z)
    (allocate_or_collect_work : Z → H → option Z * H)
    (min_size requested_size : Z) (t : EpsilonThreadLocalData) (h : H) :
  0 < MinObjAlignment g →
  min_size ≤ max_tlab_size →
  max_tlab_size mod MinObjAlignment g = 0 →
  let size :=
    tlab_size g max_tlab_size min_size
      (tlab_locals g decay_time_ns now requested_size t) in
  size mod MinObjAlignment g = 0
  ∧ min_size ≤ size ≤ max_tlab_size
  ∧ match allocate_new_tlab g max_tlab_size decay_time_ns now
            allocate_or_collect_work min_size requested_size t h with
    | (Some (res, actual_size), _, h') =>
        actual_size = size ∧ allocate_or_collect_work size h = (Some res, h')
    | (None, _, h') => allocate_or_collect_work size h = (None, h')
    end
  ∧ (0 < HeapWordSize g → 0 ≤ max_tlab_size →
     max_tlab_size * HeapWordSize g < size_t_modulus →
     size * HeapWordSize g
     ≤ unsafe_max_tlab_alloc g
         {| ts_max_tlab_size := max_tlab_size;
            ts_decay_time_ns := decay_time_ns |}).
Proof.
  intros Hpos Hle Hmod size.
  destruct (tlab_size_bounds g max_tlab_size min_size
              (tlab_locals g decay_time_ns now requested_size t) Hpos Hle Hmod)
    as [Hrange Haligned].
  split; [exact Haligned |]. split; [exact Hrange |].
  split.
  { unfold allocate_new_tlab. cbv zeta. fold size.
    destruct (allocate_or_collect_work size h) as [[res |] h']; done. }
  intros Hword Hmax Hfits. unfold unsafe_max_tlab_alloc, size_t_mul.
  cbn [ts_max_tlab_size]. rewrite to_size_t_small by nia.
  fold size in Hrange. nia.
Qed.

Lemma allocate_new_tlab_honors_bounds_witness :
  let alloc := λ (size : Z) (top : Z), (Some top, top + size) in
  let t := {| ergo_tlab_size := 100; last_tlab_time := 0 |} in
  ∃ t', allocate_new_tlab
          {| HeapWordSize := 8; MinObjAlignment := 2;
             os_vm_page_size := 4096; EpsilonMinHeapExpand := 1024;
             EpsilonElasticTLAB := true; EpsilonElasticTLABDecay := true;
             elastic_scale := λ e, e * 11 / 10;
             EpsilonSlidingGC := false; EpsilonImplicitGC := false;
             EpsilonVerify := false; EpsilonUncommit := false |}
          1000 1000 5000 alloc 8 333 t 4000
        = (Some (4000, 110), t', 4110).
Proof.
  intros alloc t.
  pose proof (allocate_new_tlab_honors_bounds
                {| HeapWordSize := 8; MinObjAlignment := 2;
                   os_vm_page_size := 4096; EpsilonMinHeapExpand := 1024;
                   EpsilonElasticTLAB := true; EpsilonElasticTLABDecay := true;
                   elastic_scale := λ e, e * 11 / 10;
                   EpsilonSlidingGC := false; EpsilonImplicitGC := false;
                   EpsilonVerify := false; EpsilonUncommit := false |}
                1000 1000 5000 alloc 8 333 t 4000
                ltac:(simpl; lia) ltac:(lia) ltac:(reflexivity))
    as (_ & _ & Hcall & _).
  match type of Hcall with
  | match ?r with _ => _ end => destruct r as [[[[res actual] |] t'] h']
  end.
  - destruct Hcall as [-> Hcall]. vm_compute in Hcall.
    injection Hcall as <- <-. exists t'. reflexivity.
  - vm_compute in Hcall. discriminate.
Defined.

(** X8. What [allocate_new_tlab] does to the ergonomic size of the
    thread. With [EpsilonElasticTLAB] off it is never written. With it on,
    a failed allocation resets it to 0, and a successful one leaves it as
    the decay check left it when the request fitted, and makes it the size
    handed out when the request did not fit. So an ergonomic size within
    [0, _max_tlab_size] stays there. *)
Theorem allocate_new_tlab_ergonomics {H : Type} (g : Globals)
    (max_tlab_size decay_time_ns now : Z)
    (allocate_or_collect_work : Z → H → option Z * H)
    (min_size requested_size : Z) (t : EpsilonThreadLocalData) (h : H) :
  0 < MinObjAlignment g →
  0 ≤ min_size ≤ max_tlab_size →
  max_tlab_size mod MinObjAlignment g = 0 →
  0 ≤ ergo_tlab_size t ≤ max_tlab_size →
  let l := tlab_locals g decay_time_ns now requested_size t in
  let '(res, t', _) :=
    allocate_new_tlab g max_tlab_size decay_time_ns now
      allocate_or_collect_work min_size requested_size t h in
  0 ≤ ergo_tlab_size t' ≤ max_tlab_size
  ∧ (EpsilonElasticTLAB g = false → ergo_tlab_size t' = ergo_tlab_size t)
  ∧ (EpsilonElasticTLAB g = true →
       match res with
       | None => ergo_tlab_size t' = 0
       | Some (_, actual_size) =>
           if tl_fits l
           then ergo_tlab_size t' = tl_ergo_tlab l
                ∧ requested_size ≤ ergo_tlab_size t'
           else ergo_tlab_size t' = actual_size
                ∧ tl_ergo_tlab l < requested_size
       end).
Proof.
  intros Hpos Hmin Hmod Hergo l.
  destruct (tlab_size_bounds g max_tlab_size min_size l Hpos
              ltac:(lia) Hmod) as [Hrange _].
  assert (0 ≤ ergo_tlab_size (tl_thread l) ≤ max_tlab_size
          ∧ (EpsilonElasticTLAB g = false → tl_thread l = t)
          ∧ (EpsilonElasticTLAB g = true →
               ergo_tlab_size (tl_thread l) = tl_ergo_tlab l
               ∧ tl_fits l = (requested_size <=? tl_ergo_tlab l)))
    as (Hergo1 & Hoff & Hon).
  { subst l. unfold tlab_locals, tlab_decay.
    destruct (EpsilonElasticTLAB g); [| by simpl].
    destruct (EpsilonElasticTLABDecay g); [| by simpl].
    destruct (negb (last_tlab_time t =? 0)
              && (decay_time_ns <? now - last_tlab_time t)); simpl.
    - split; [lia |]. by split.
    - by split. }
  unfold allocate_new_tlab. cbv zeta. fold l.
  destruct (allocate_or_collect_work
              (tlab_size g max_tlab_size min_size l) h) as [[res |] h'].
  - destruct (EpsilonElasticTLAB g) eqn:Helastic; cbn [andb].
    + destruct (Hon eq_refl) as [Hsame Hfits].
      destruct (tl_fits l) eqn:Hl; cbn [negb].
      * assert (ergo_tlab_size
                  (if EpsilonElasticTLABDecay g
                   then set_last_tlab_time (tl_time l) (tl_thread l)
                   else tl_thread l) = ergo_tlab_size (tl_thread l)) as ->.
        { by destruct (EpsilonElasticTLABDecay g). }
        split; [done |]. split; [done |]. intros _.
        split; [done |]. rewrite Hsame. symmetry in Hfits.
        by apply Z.leb_le in Hfits.
      * cbn [set_ergo_tlab_size ergo_tlab_size].
        split; [lia |]. split; [done |]. intros _. split; [done |].
        symmetry in Hfits. by apply Z.leb_gt in Hfits.
    + assert (ergo_tlab_size
                (if EpsilonElasticTLABDecay g
                 then set_last_tlab_time (tl_time l) (tl_thread l)
                 else tl_thread l) = ergo_tlab_size (tl_thread l)) as ->.
      { by destruct (EpsilonElasticTLABDecay g). }
      rewrite (Hoff eq_refl). split; [exact Hergo |].
      split; [done | intros [=]].
  - destruct (EpsilonElasticTLAB g) eqn:Helastic.
    + cbn [set_ergo_tlab_size ergo_tlab_size]. split; [lia |]. by split.
    + rewrite (Hoff eq_refl). split; [exact Hergo |].
      split; [done | intros [=]].
Qed.

Lemma allocate_new_tlab_ergonomics_witness :
  let alloc := λ (size : Z) (top : Z), (Some top, top + size) in
  let t := {| ergo_tlab_size := 100; last_tlab_time := 0 |} in
  ergo_tlab_size
    (allocate_new_tlab exact_fit_globals 1000 1000 5000 alloc 8 333 t 4000).1.2
  = 110.
Proof.
  intros alloc t.
  pose proof (allocate_new_tlab_ergonomics exact_fit_globals 1000 1000 5000
                alloc 8 333 t 4000
                ltac:(simpl; lia) ltac:(lia) ltac:(reflexivity)
                ltac:(simpl; lia)) as Hcall.
  cbv zeta in Hcall. revert Hcall.
  destruct (allocate_new_tlab exact_fit_globals 1000 1000 5000 alloc 8 333
              t 4000) as [[[[res actual] |] t'] h'] eqn:Hrun.
  - intros (_ & _ & Hon). specialize (Hon eq_refl).
    change (tl_fits _) with false in Hon. destruct Hon as [Hon _].
    cbn [fst snd]. rewrite Hon.
    vm_compute in Hrun. by injection Hrun as _ <- _ _.
  - vm_compute in Hrun. discriminate.
Defined.

(** ** Collection requests as VM operations *)




Lemma VMThread_execute_overtaken g os id vm :
  id < req_id (vm_requests vm) →
  heap_lock_held (vm_requests vm) = false →
  snd (VMThread_execute g os id vm) = vm.
Proof.
  intros Hlt Hfree. unfold VMThread_execute, doit_prologue.
  cbn [heap_lock_lock req_id]. apply Z.ltb_lt in Hlt. rewrite Hlt.
  destruct vm as [hp mon [r held]]. simpl in *. by subst held.
Qed.

(** X10. Back-to-back requests coalesce: of any number of requests that
    loaded the request id before the first of them got [Heap_lock], only
    that first one collects; the others find the id advanced and leave
    everything as the first one left it. *)
Theorem serve_requests_coalesces (g : Globals) (os : OsAnswers)
    (ids : list Z) (vm : VM) :
  0 ≤ req_id (vm_requests vm) < SIZE_MAX →
  Forall (λ id, id ≤ req_id (vm_requests vm)) ids →
  serve_requests g os (req_id (vm_requests vm) :: ids) vm
  = snd (vmentry_collect g os vm)
  ∧ fst (vmentry_collect g os vm)
    = Some (fst (entry_collect g os (vm_heap vm)))
  ∧ req_id (vm_requests (snd (vmentry_collect g os vm)))
    = req_id (vm_requests vm) + 1.
Proof.
  intros Hrange Hids. unfold serve_requests, vmentry_collect.
  cbn [foldl].
  set (r := req_id (vm_requests vm)) in *.
  assert (fst (VMThread_execute g os r vm)
          = Some (fst (entry_collect g os (vm_heap vm)))
          ∧ req_id (vm_requests (snd (VMThread_execute g os r vm))) = r + 1
          ∧ heap_lock_held (vm_requests (snd (VMThread_execute g os r vm)))
            = false) as (Hran & Hid & Hfree).
  { unfold VMThread_execute, entry_collect_in, doit_prologue, doit_epilogue.
    cbn [heap_lock_lock req_id]. fold r. rewrite Z.ltb_irrefl.
    cbn [set_vm_requests vm_heap vm_monitoring vm_requests].
    destruct (entry_collect g os (vm_heap vm)) as [outcome h'].
    cbn [fst snd vm_requests set_vm_requests inc_req_id heap_lock_unlock
         req_id heap_lock_held].
    split; [done |]. split; [| done].
    unfold size_t_add. apply to_size_t_small.
    unfold SIZE_MAX in Hrange. lia. }
  split; [| by split].
  set (vm1 := snd (VMThread_execute g os r vm)) in *.
  clearbody vm1. clear Hran.
  induction Hids as [| id ids Hid' _ IH]; [done |].
  cbn [foldl]. rewrite VMThread_execute_overtaken by (done || lia).
  exact IH.
Qed.

Lemma serve_requests_coalesces_witness :
  serve_requests sliding_globals os_all_fine [4; 4; 3; 4] (three_object_vm 0)
  = snd (vmentry_collect sliding_globals os_all_fine (three_object_vm 0)).
Proof.
  apply (serve_requests_coalesces sliding_globals os_all_fine [4; 3; 4]
           (three_object_vm 0)).
  - vm_compute. split; congruence.
  - repeat constructor; simpl; lia.
Defined.

(** ** Walking the bitmap, as its callers see it *)

(** X11. [walk_bitmap] calls the closure on the marked addresses of
    [bottom, top) and on nothing else: once each, in increasing address
    order. Marks below [bottom] or at and above [top] are not visited. *)
Theorem walk_bitmap_visits_marked_in_order {A : Type}
    (sp : ContiguousSpace) (bitmap : gset Z) (do_object : Z → A → A)
    (cl : A) :
  ∃ visited,
    walk_bitmap sp bitmap do_object cl
    = foldl (λ c o, do_object o c) cl visited
    ∧ StronglySorted Z.lt visited
    ∧ ∀ a, a ∈ visited ↔ a ∈ bitmap ∧ cs_bottom sp ≤ a < cs_top sp.
Proof.
  exists (marked_in bitmap (cs_bottom sp) (cs_top sp)).
  split; [apply walk_bitmap_foldl |].
  split; [apply marked_in_sorted |].
  intros a. apply elem_of_marked_in.
Qed.

(** ** What the roots contribute *)

(** X12. Step 1 returns, and the number of objects it reports as
    reachable from the roots is the number of distinct non-null values in
    the root slots: a root that occurs in several slots is pushed once.
    Every non-null root is marked. If no root is pushed, no object is
    marked at all and the loop over the mark stack does not run. *)
Theorem mark_phase_counts_distinct_roots (mem : Memory) (roots : Roots) :
  ∃ bitmap reachable_roots reachable_heap,
    mark_phase mem roots ∅
    = Returned (bitmap, reachable_roots, reachable_heap)
    ∧ reachable_roots
      = Z.of_nat (size (list_to_set (referenced (root_slots roots)) : gset Z))
    ∧ (∀ o, o ∈ root_slots roots → o ≠ 0 → o ∈ bitmap)
    ∧ (reachable_roots = 0 → bitmap = ∅ ∧ reachable_heap = 0).
Proof.
  destruct (mark_phase_marks_reachable mem roots)
    as (bitmap & nr & nh & Hmark & Hreach & Hnh & _).
  exists bitmap, nr, nh. split; [exact Hmark |].
  destruct (scan_slots (root_slots roots)
              {| EpsilonScanOopClosure.stack := [];
                 EpsilonScanOopClosure.bitmap := ∅ |})
    as (new & Hstack & Hbitmap & Hnd & Hnew & Hall).
  cbn [EpsilonScanOopClosure.stack EpsilonScanOopClosure.bitmap] in *.
  rewrite app_nil_r in Hstack.
  assert (nr = Z.of_nat (length new)) as Hnr.
  { unfold mark_phase, process_roots in Hmark. rewrite Hstack in Hmark.
    destruct (mark_loop _ _ _ _) as [[cl2 n2] |]; [| done].
    by injection Hmark as _ <- _. }
  assert (∀ o, o ∈ new ↔ o ∈ referenced (root_slots roots)) as Hsame.
  { intros o. unfold referenced. rewrite list_elem_of_filter. split.
    - intros Ho. destruct (Hnew o Ho) as (? & ? & _). done.
    - intros [Hnz Ho]. specialize (Hall o Ho Hnz). rewrite Hbitmap in Hall.
      apply elem_of_union in Hall as [Hin | Hin];
        [by apply elem_of_list_to_set in Hin | by apply elem_of_empty in Hin]. }
  split; [| split].
  - rewrite Hnr. f_equal. rewrite <- (size_list_to_set (C := gset Z) new Hnd).
    f_equal. apply set_eq. intros o. by rewrite !elem_of_list_to_set, Hsame.
  - intros o Ho Hnz. apply Hreach. by apply reachable_root.
  - intros Hzero.
    assert (new = []) as Hnil.
    { destruct new; [done |]. simpl in Hnr. lia. }
    assert (∀ o, ¬ reachable mem (root_slots roots) o) as Hdead.
    { intros o Ho. induction Ho as [o Hroot Hnz | o o' _ IH _ _]; [| done].
      assert (o ∈ new) as Hin.
      { apply Hsame. unfold referenced. by apply list_elem_of_filter. }
      rewrite Hnil in Hin. by apply elem_of_nil in Hin. }
    assert (bitmap = ∅) as ->.
    { apply set_eq. intros o. rewrite Hreach. split.
      - intros Ho. by apply Hdead in Ho.
      - intros Ho. by apply elem_of_empty in Ho. }
    split; [done |]. by rewrite Hnh, size_empty.
Qed.

(** ** What a cycle does to marks and statistics *)

Section calc_saved.
Import EpsilonCalcNewLocationObjectClosure.

(** Step 2 writes forwarding patterns and nothing else. *)
Lemma calc_walk_mark_kept L : ∀ cl a,
  is_forwarded (mem (calc_walk cl L)) a = false →
  obj_mark (mem (calc_walk cl L)) a = obj_mark (mem cl) a.
Proof.
  induction L as [| o L IH]; intros cl a Hclean; simpl in *; [done |].
  rewrite (IH _ _ Hclean).
  pose proof Hclean as Hclean'. unfold is_forwarded in Hclean'.
  rewrite (IH _ _ Hclean) in Hclean'.
  unfold do_object in *. case_decide; simpl in *; [| done].
  unfold obj_mark in *. rewrite forward_to_lookup in *.
  case_decide; [| done]. subst a.
  destruct (mem cl !! o); simpl in *; done.
Qed.

Lemma filter_ext_in {A} (P Q : A → Prop) `{∀ x, Decision (P x)}
    `{∀ x, Decision (Q x)} (l : list A) :
  (∀ x, x ∈ l → P x ↔ Q x) → filter P l = filter Q l.
Proof.
  induction l as [| x l IH]; intros Hsame; [done |].
  rewrite !filter_cons.
  rewrite IH by (intros y Hy; apply Hsame; by right).
  pose proof (Hsame x ltac:(by left)).
  destruct (decide (P x)), (decide (Q x)); tauto || done.
Qed.

Lemma saved_marks_ext mem1 mem2 mem' L :
  (∀ o, o ∈ L → obj_mark mem1 o = obj_mark mem2 o) →
  saved_marks mem1 mem' L = saved_marks mem2 mem' L.
Proof.
  intros Hsame. unfold saved_marks.
  rewrite (filter_ext_in _
             (λ o, is_forwarded mem' o = true
                   ∧ must_be_preserved (obj_mark mem2 o) = true)).
  2:{ intros o Ho. by rewrite (Hsame o Ho). }
  apply map_ext_Forall, Forall_forall.
  intros o Ho. apply list_elem_of_filter in Ho as [_ Ho].
  by rewrite (Hsame o Ho).
Qed.

(** The marks step 2 has saved once its walk is over. *)
Lemma calc_walk_saved L : ∀ cl lo hi,
  laid_out (mem cl) lo hi L →
  compact_point cl ≤ lo →
  (∀ o, o ∈ L → is_forwarded (mem cl) o = false) →
  preserved_marks (calc_walk cl L)
  = reverse (saved_marks (mem cl) (mem (calc_walk cl L)) L)
    ++ preserved_marks cl.
Proof.
  induction L as [| o L IH]; intros cl lo hi Hlay Hcp Hclean; [done |].
  simpl in Hlay. destruct Hlay as (Hlo & [ob Hob] & Hpos & Hrest).
  destruct (do_object_frame o cl) as (Hs1 & Hf1 & Hd1 & Hm1 & Hc1).
  destruct (laid_out_bounds _ _ _ _ Hrest) as [_ Hbounds].
  assert (o ∉ L) as Hfresh.
  { intros Hin. destruct (Hbounds _ Hin). lia. }
  destruct (calc_walk_frame L (do_object o cl)) as (_ & _ & _ & Hm & _).
  change (calc_walk cl (o :: L)) with (calc_walk (do_object o cl) L).
  rewrite (IH (do_object o cl) (o + obj_size (mem cl) o) hi).
  2:{ eapply laid_out_ext; eauto. }
  2:{ lia. }
  2:{ intros o' Ho'. unfold is_forwarded, obj_mark.
      rewrite Hm1 by (intros ->; exact (Hfresh Ho')).
      apply Hclean. by right. }
  rewrite (saved_marks_ext (mem (do_object o cl)) (mem cl)).
  2:{ intros o' Ho'. unfold obj_mark.
      by rewrite Hm1 by (intros ->; exact (Hfresh Ho')). }
  unfold saved_marks at 2. rewrite filter_cons.
  fold (saved_marks (mem cl) (mem (calc_walk (do_object o cl) L)) L).
  assert (is_forwarded (mem (calc_walk (do_object o cl) L)) o
          = is_forwarded (mem (do_object o cl)) o) as Hfinal.
  { unfold is_forwarded, obj_mark. by rewrite (Hm o Hfresh). }
  rewrite Hfinal.
  destruct (decide (o = compact_point cl)) as [Hstay | Hmoved].
  - rewrite (do_object_stays o cl Hstay). simpl.
    rewrite (Hclean o) by (by left).
    rewrite decide_False by (by intros [? _]). done.
  - rewrite (do_object_moved o cl Hmoved). simpl.
    assert (is_forwarded (forward_to o (compact_point cl) (mem cl)) o = true)
      as ->.
    { unfold is_forwarded. by rewrite forward_to_mark by eauto. }
    unfold push_if_necessary.
    destruct (must_be_preserved (obj_mark (mem cl) o)) eqn:Hmust.
    + rewrite decide_True by done. simpl.
      by rewrite reverse_cons, <- app_assoc.
    + rewrite decide_False by (intros [_ ?]; done). done.
Qed.

End calc_saved.

Section move_count.
Import EpsilonMoveObjectsObjectClosure.

(** Step 4 counts the objects that carry a forwarding pattern. *)
Lemma move_walk_moved L : ∀ cl cp lo hi,
  forwarded_layout (mem cl) cp lo hi L →
  moved (move_walk cl L)
  = moved cl
    + Z.of_nat (length (filter (λ o, is_forwarded (mem cl) o = true) L)).
Proof.
  induction L as [| o L IH]; intros cl cp lo hi Hlay; simpl in *; [lia |].
  destruct Hlay as (Hlo & ob & Hob & Hpos & Hmark & Hrest).
  destruct (forwarded_layout_bounds _ _ _ _ _ Hrest) as [_ Hbounds].
  rewrite filter_cons.
  destruct (decide (o = cp)) as [Hstay | Hmoved].
  - assert (is_forwarded (mem cl) o = false) as Hnf.
    { unfold is_forwarded, obj_mark. by rewrite Hob. }
    rewrite (do_object_not_forwarded o cl Hnf), Hnf.
    rewrite decide_False by done. by apply (IH cl _ _ _ Hrest).
  - assert (is_forwarded (mem cl) o = true) as Hf.
    { unfold is_forwarded, obj_mark. by rewrite Hob, Hmark. }
    rewrite (do_object_forwarded o cl ob cp Hob Hmark), Hf.
    rewrite decide_True by done.
    set (mem1 := init_mark cp
                   (aligned_conjoint_words o cp (o_size ob) (mem cl))).
    assert (∀ o', o' ∈ L → mem1 !! o' = mem cl !! o') as Hsources.
    { intros o' Ho'. destruct (Hbounds _ Ho') as [Hge _].
      destruct (forwarded_layout_lookup _ _ _ _ _ _ Hrest Ho') as (x & Hx & _).
      rewrite Hx. unfold mem1.
      rewrite init_mark_lookup, decide_False by lia.
      apply aligned_conjoint_words_kept; eauto; lia. }
    set (cl1 := {| moved := moved cl + 1; mem := mem1 |}).
    assert (forwarded_layout (mem cl1) (cp + o_size ob) (o + o_size ob) hi L)
      as Hrest1.
    { eapply forwarded_layout_ext; [| exact Hrest].
      intros a x Ha Hx. exists x. simpl. rewrite Hsources by done. done. }
    rewrite (IH cl1 _ _ _ Hrest1). simpl.
    assert (filter (λ o0, is_forwarded mem1 o0 = true) L
            = filter (λ o0, is_forwarded (mem cl) o0 = true) L) as ->.
    { apply filter_ext_in. intros o' Ho'.
      unfold is_forwarded, obj_mark. by rewrite Hsources. }
    lia.
Qed.

End move_count.

(** Where step 4 leaves an object, and with which mark. *)
Lemma placed_marks L : ∀ cp lo hi (mem2 mem3 mem4 : Memory),
  0 < cp →
  forwarded_layout mem2 cp lo hi L →
  (∀ o, o ∈ L → mem3 !! o = adjust_object mem2 <$> mem2 !! o) →
  placed mem4 mem3 cp L →
  ∀ o, o ∈ L →
    let φ := EpsilonAdjustPointersOopClosure.do_oop_work mem2 in
    (is_forwarded mem2 o = true ↔ φ o ≠ o)
    ∧ ∃ ob4, mem4 !! φ o = Some ob4
             ∧ o_mark ob4 = if decide (φ o = o) then obj_mark mem2 o
                            else mark_prototype.
Proof.
  induction L as [| x L IH];
    intros cp lo hi mem2 mem3 mem4 Hcp Hlay Hadj Hplaced o Ho φ;
    [by apply elem_of_nil in Ho |].
  simpl in Hlay, Hplaced.
  destruct Hlay as (Hlo & ob2 & Hob2 & Hpos & Hmark & Hrest).
  destruct Hplaced as (ob3 & Hob3 & Hob4 & Hplaced).
  rewrite (Hadj x) in Hob3 by (by left). rewrite Hob2 in Hob3.
  injection Hob3 as <-.
  apply elem_of_cons in Ho as [-> | Ho].
  - destruct (decide (x = cp)) as [-> | Hne].
    + assert (φ cp = cp) as Hφ.
      { by apply (do_oop_work_not_forwarded _ _ ob2). }
      rewrite Hφ. split.
      * unfold is_forwarded, obj_mark. rewrite Hob2, Hmark.
        split; [done | by intros ?].
      * exists (moved_object cp cp (adjust_object mem2 ob2)).
        split; [done |]. unfold moved_object.
        rewrite !decide_True by done. unfold obj_mark. by rewrite Hob2.
    + assert (φ x = cp) as Hφ.
      { apply (do_oop_work_forwarded _ _ ob2); [lia | done | done]. }
      rewrite Hφ. split.
      * unfold is_forwarded, obj_mark. rewrite Hob2, Hmark.
        split; [by intros _ ? | done].
      * exists (moved_object x cp (adjust_object mem2 ob2)).
        split; [done |]. unfold moved_object.
        rewrite !decide_False by done. done.
  - apply (IH (cp + o_size ob2) (x + o_size ob2) hi mem2 mem3 mem4);
      [lia | exact Hrest | | exact Hplaced | exact Ho].
    intros o' Ho'. apply Hadj. by right.
Qed.

(** Restoring sets the mark of an address to the one mark saved for it. *)
Lemma restore_mark pm : ∀ (mem : Memory) a m,
  (∀ m', (a, m') ∈ pm → m' = m) →
  (a, m) ∈ pm ∨ obj_mark mem a = m →
  is_Some (mem !! a) →
  obj_mark (restore pm mem) a = m.
Proof.
  unfold restore.
  induction pm as [| [obj m0] pm IH]; intros mem a m Hone Hin [ob Hob]; simpl.
  - destruct Hin as [Hin | Hin]; [by apply elem_of_nil in Hin | done].
  - destruct (decide (a = obj)) as [-> | Hne].
    + assert (m0 = m) as -> by (apply Hone; by left).
      apply IH.
      * intros m' Hm'. apply Hone. by right.
      * right. unfold obj_mark. by rewrite lookup_alter_eq, Hob.
      * rewrite lookup_alter_eq, Hob. eauto.
    + apply IH.
      * intros m' Hm'. apply Hone. by right.
      * destruct Hin as [Hin | Hin].
        -- apply elem_of_cons in Hin as [[= -> ->] | Hin]; [done | by left].
        -- right. unfold obj_mark. by rewrite lookup_alter_ne.
      * rewrite lookup_alter_ne by done. eauto.
Qed.

(** Steps 2 to 5 on a well-formed heap: every marked object has at its
    new address the mark it had, step 4 counts the objects whose address
    changes, and step 2 saves the marks of those among them whose mark
    must be preserved. *)
Lemma phases_marks (sp : ContiguousSpace) (bitmap : gset Z) (m : Memory)
    (roots : Roots) :
  heap_wf sp m roots →
  (∀ o, o ∈ bitmap ↔ reachable m (root_slots roots) o) →
  let calc := calc_phase sp bitmap m in
  let adj :=
    adjust_phase sp bitmap (EpsilonCalcNewLocationObjectClosure.mem calc)
      roots (EpsilonCalcNewLocationObjectClosure.preserved_marks calc) in
  let mv := move_phase sp bitmap adj.1.1 in
  let mem5 := restore adj.2 (EpsilonMoveObjectsObjectClosure.mem mv) in
  let φ := EpsilonAdjustPointersOopClosure.do_oop_work
             (EpsilonCalcNewLocationObjectClosure.mem calc) in
  let L := marked_in bitmap (cs_bottom sp) (cs_top sp) in
  laid_out m (cs_bottom sp) (cs_top sp) L
  ∧ (∀ o, o ∈ L → obj_mark mem5 (φ o) = obj_mark m o)
  ∧ EpsilonMoveObjectsObjectClosure.moved mv
    = Z.of_nat (length (filter (λ o, φ o ≠ o) L))
  ∧ length (EpsilonCalcNewLocationObjectClosure.preserved_marks calc)
    = length (filter (λ o, φ o ≠ o
                           ∧ must_be_preserved (obj_mark m o) = true) L).
Proof.
  intros Hwf Hmarked calc adj mv mem5 φ L.
  destruct (phases_compact sp bitmap m roots Hwf Hmarked)
    as (HL & Hnd & _ & _ & _ & Hslid & Htight & _).
  fold calc adj mv mem5 φ L in HL, Hnd, Hslid, Htight.
  destruct Hwf as [Hbottom Hpars Hreach].
  assert (StronglySorted Z.lt L) as Hsorted by apply marked_in_sorted.
  assert (laid_out m (cs_bottom sp) (cs_top sp) L) as Hlay.
  { apply (parsable_laid_out sp); [done | done | | lia].
    intros o Ho. apply HL, Hmarked, Hreach in Ho as (Hrange & ob & Hob & _).
    split; [lia |]. split; [done | eauto]. }
  assert (∀ o, o ∈ L → is_forwarded m o = false) as Hclean.
  { intros o Ho. apply HL, Hmarked, Hreach in Ho as (_ & ob & Hob & Hmark).
    unfold is_forwarded, obj_mark. by rewrite Hob. }
  set (cl0 := {| EpsilonCalcNewLocationObjectClosure.compact_point :=
                   cs_bottom sp;
                 EpsilonCalcNewLocationObjectClosure.preserved_marks := [];
                 EpsilonCalcNewLocationObjectClosure.mem := m |}).
  assert (calc = calc_walk cl0 L) as Hcalc.
  { subst calc. unfold calc_phase. by rewrite walk_bitmap_foldl. }
  pose proof (calc_walk_layout L cl0 _ _ Hlay (Z.le_refl _) Hclean) as Hfwd.
  rewrite <- Hcalc in Hfwd. simpl in Hfwd.
  pose proof (calc_walk_saved L cl0 _ _ Hlay (Z.le_refl _) Hclean) as Hsaved.
  rewrite <- Hcalc in Hsaved. simpl in Hsaved. rewrite app_nil_r in Hsaved.
  set (mem2 := EpsilonCalcNewLocationObjectClosure.mem calc) in *.
  assert (adj.1.1 = adjust_walk mem2 L) as Hmem3.
  { subst adj. unfold adjust_phase. simpl. by rewrite walk_bitmap_foldl. }
  assert (∀ a, obj_mark adj.1.1 a = obj_mark mem2 a) as Hmark3.
  { intros a. rewrite Hmem3. by apply adjust_walk_mark. }
  assert (adj.2 = adjust_during_full_gc adj.1.1
                    (EpsilonCalcNewLocationObjectClosure.preserved_marks calc))
    as Hpm3.
  { subst adj. unfold adjust_phase. simpl. by rewrite walk_bitmap_foldl. }
  assert (∀ o, o ∈ L → adj.1.1 !! o = adjust_object mem2 <$> mem2 !! o)
    as Hadj.
  { intros o Ho. rewrite Hmem3, adjust_walk_lookup by done.
    by rewrite decide_True. }
  assert (forwarded_layout adj.1.1 (cs_bottom sp) (cs_bottom sp) (cs_top sp) L)
    as Hfwd3.
  { eapply forwarded_layout_ext; [| exact Hfwd].
    intros a ob Ha Hob. rewrite (Hadj a Ha), Hob. simpl. eauto. }
  assert (mv = move_walk {| EpsilonMoveObjectsObjectClosure.moved := 0;
                            EpsilonMoveObjectsObjectClosure.mem := adj.1.1 |} L)
    as Hmv.
  { subst mv. unfold move_phase. by rewrite walk_bitmap_foldl. }
  destruct (move_walk_placed L
              {| EpsilonMoveObjectsObjectClosure.moved := 0;
                 EpsilonMoveObjectsObjectClosure.mem := adj.1.1 |}
              _ _ _ Hfwd3) as [Hplaced _].
  rewrite <- Hmv in Hplaced. simpl in Hplaced.
  pose proof (placed_marks L _ _ _ mem2 adj.1.1 _ (proj1 Hbottom) Hfwd Hadj
                Hplaced) as Hat.
  cbv zeta in Hat. fold φ in Hat.
  assert (∀ o, o ∈ L → is_forwarded mem2 o = true ↔ φ o ≠ o) as Hmoves.
  { intros o Ho. by destruct (Hat o Ho). }
  assert (∀ a b, a ∈ L → b ∈ L → φ a = φ b → a = b) as Hinj.
  { intros a b. apply NoDup_map_apart.
    destruct (tight_bounds _ _ _ _ Htight) as (_ & Hs & _).
    by apply sorted_lt_NoDup. }
  assert (∀ a mk, (a, mk) ∈ adj.2 ↔
            ∃ o, o ∈ L ∧ φ o ≠ o ∧ must_be_preserved (obj_mark m o) = true
                 ∧ a = φ o ∧ mk = obj_mark m o) as Hentries.
  { intros a mk. rewrite Hpm3, Hsaved. unfold adjust_during_full_gc.
    rewrite list_elem_of_fmap. split.
    - intros ([o mk'] & Heq & Hin).
      rewrite elem_of_reverse in Hin. unfold saved_marks in Hin.
      apply list_elem_of_fmap in Hin as (o' & [= -> ->] & Hin).
      apply list_elem_of_filter in Hin as [[Hf Hmust] Hin].
      simpl in Heq. unfold is_forwarded in Heq at 1.
      rewrite Hmark3 in Heq. fold (is_forwarded mem2 o') in Heq.
      rewrite Hf in Heq. injection Heq as -> ->.
      exists o'. split; [done |]. split; [by apply Hmoves |].
      split; [done |]. split; [| done].
      unfold forwardee. rewrite Hmark3.
      unfold φ, EpsilonAdjustPointersOopClosure.do_oop_work.
      destruct (Z.eqb_spec o' 0) as [-> | Hnz].
      { destruct (forwarded_layout_bounds _ _ _ _ _ Hfwd) as [_ Hb].
        destruct (Hb 0 Hin). lia. }
      by rewrite Hf.
    - intros (o & Ho & Hmv' & Hmust & -> & ->).
      exists (o, obj_mark m o). split.
      + simpl. unfold is_forwarded at 1. rewrite Hmark3.
        fold (is_forwarded mem2 o).
        rewrite (proj2 (Hmoves o Ho) Hmv').
        f_equal. unfold forwardee. rewrite Hmark3.
        unfold φ, EpsilonAdjustPointersOopClosure.do_oop_work.
        destruct (Z.eqb_spec o 0) as [-> | Hnz].
        { destruct (forwarded_layout_bounds _ _ _ _ _ Hfwd) as [_ Hb].
          destruct (Hb 0 Ho). lia. }
        by rewrite (proj2 (Hmoves o Ho) Hmv').
      + rewrite elem_of_reverse. unfold saved_marks.
        apply list_elem_of_fmap. exists o. split; [done |].
        apply list_elem_of_filter. split; [| done].
        split; [by apply Hmoves | done]. }
  split; [exact Hlay |]. split; [| split].
  - intros o Ho. subst mem5.
    destruct (Hat o Ho) as (_ & ob4 & Hob4 & Hmark4).
    apply restore_mark; [| | eauto].
    + intros mk Hin. apply Hentries in Hin as (o' & Ho' & _ & _ & Heq & ->).
      by rewrite (Hinj o o' Ho Ho' Heq).
    + destruct (decide (φ o = o)) as [Hstay | Hmv'].
      * right. unfold obj_mark at 1. rewrite Hob4, Hmark4.
        assert (is_forwarded mem2 o = false) as Hnf.
        { destruct (is_forwarded mem2 o) eqn:Hf; [| done].
          by apply (Hmoves o Ho) in Hf. }
        revert Hnf. unfold mem2. rewrite Hcalc.
        apply (calc_walk_mark_kept L cl0 o).
      * destruct (must_be_preserved (obj_mark m o)) eqn:Hmust.
        -- left. apply Hentries. exists o. by repeat split.
        -- right. unfold obj_mark at 1. rewrite Hob4, Hmark4.
           specialize (Hclean o Ho). unfold is_forwarded in Hclean.
           by destruct (obj_mark m o).
  - rewrite Hmv.
    rewrite (move_walk_moved L
               {| EpsilonMoveObjectsObjectClosure.moved := 0;
                  EpsilonMoveObjectsObjectClosure.mem := adj.1.1 |}
               _ _ _ Hfwd3).
    cbn [EpsilonMoveObjectsObjectClosure.moved
         EpsilonMoveObjectsObjectClosure.mem].
    rewrite Z.add_0_l. f_equal. f_equal.
    apply filter_ext_in. intros o Ho.
    unfold is_forwarded at 1. rewrite Hmark3. by apply Hmoves.
  - rewrite Hsaved, length_reverse. unfold saved_marks. rewrite length_map.
    f_equal. apply filter_ext_in. intros o Ho.
    by rewrite (Hmoves o Ho).
Qed.

(** ** A completed cycle, object by object *)

(** What a completed cycle has done, with its statistics and what it
    leaves of the committed space. *)
Lemma entry_collect_completed_full (g : Globals) (os : OsAnswers)
    (h h' : EpsilonHeap) (s : GCStats) :
  entry_collect g os h = (Completed s, h') →
  ∃ bitmap,
    mark_phase (h_mem h) (h_roots h) ∅
    = Returned (bitmap, stat_reachable_roots s, stat_reachable_heap s)
    ∧ let calc := calc_phase (h_space h) bitmap (h_mem h) in
      let adj :=
        adjust_phase (h_space h) bitmap
          (EpsilonCalcNewLocationObjectClosure.mem calc) (h_roots h)
          (EpsilonCalcNewLocationObjectClosure.preserved_marks calc) in
      let mv := move_phase (h_space h) bitmap adj.1.1 in
      stat_moved s = EpsilonMoveObjectsObjectClosure.moved mv
      ∧ stat_preserved_marks s
        = Z.of_nat (length (EpsilonCalcNewLocationObjectClosure.preserved_marks
                              calc))
      ∧ h_virtual_space h'
        = (if EpsilonUncommit g
           then shrink_by (os_vm_page_size g)
                  ((cs_end (h_space h) - cs_top (h_space h'))
                   * HeapWordSize g) (h_virtual_space h)
           else h_virtual_space h)
      ∧ cs_end (h_space h')
        = (if EpsilonUncommit g
           then vs_high (h_virtual_space h') / HeapWordSize g
           else cs_end (h_space h))
      ∧ (uncommit_memory_ok os = true →
           h_bitmap h' = ∅ ∧ h_warnings h' = h_warnings h).
Proof.
  unfold entry_collect, GCLocker_is_active. intros Hrun.
  destruct (Z.eqb_spec (gcl_readers (h_gc_locker h)) 0) as [Hidle |];
    [| discriminate].
  cbn [negb] in Hrun.
  destruct (negb (commit_memory_ok os)); [discriminate |].
  destruct (mark_phase (h_mem h) (h_roots h) ∅) as [[[bitmap nr] nh] |];
    [| discriminate].
  exists bitmap.
  match type of Hrun with
  | context [adjust_phase ?a ?b ?c ?d ?e] =>
      destruct (adjust_phase a b c d e) as [[mem3 roots3] pm3] eqn:Hadj
  end.
  match type of Hrun with
  | context [if EpsilonVerify g then ?a else ?b] =>
      destruct (if EpsilonVerify g then a else b) as [[bitmap5 ok] |]
  end; [| discriminate].
  destruct ok; [| discriminate].
  injection Hrun as <- <-.
  cbn [stat_reachable_roots stat_reachable_heap stat_moved
       stat_preserved_marks].
  split; [done |].
  cbv zeta. cbn [fst snd h_space h_virtual_space h_bitmap h_warnings].
  split; [done |]. split; [done |].
  destruct (EpsilonUncommit g);
    cbn [set_end set_top cs_top cs_end];
    (split; [done |]); (split; [done |]);
    intros ->; done.
Qed.

Lemma size_marked_list (bitmap : gset Z) (L : list Z) :
  NoDup L → (∀ o, o ∈ L ↔ o ∈ bitmap) → size bitmap = length L.
Proof.
  intros Hnd HL. rewrite <- (size_list_to_set (C := gset Z) L Hnd).
  f_equal. apply set_eq. intros o. by rewrite elem_of_list_to_set, HL.
Qed.

(** Objects slide towards [bottom], in address order, without running
    into one another. *)
Lemma slid_down mem' mem φ L : ∀ cp lo hi,
  slid mem' mem φ cp L → laid_out mem lo hi L → cp ≤ lo →
  ∀ o, o ∈ L → cp ≤ φ o ≤ o.
Proof.
  induction L as [| x L IH]; intros cp lo hi Hslid Hlay Hcp o Ho;
    [by apply elem_of_nil in Ho |].
  simpl in Hslid, Hlay.
  destruct Hslid as (Hφ & ob & ob' & Hob & _ & Hpos & _ & _ & _ & Hrest).
  destruct Hlay as (Hlo & _ & _ & Hlay).
  unfold obj_size in Hlay. rewrite Hob in Hlay.
  apply elem_of_cons in Ho as [-> | Ho]; [lia |].
  destruct (IH _ _ _ Hrest Hlay ltac:(lia) o Ho). lia.
Qed.

Lemma slid_order mem' mem φ L : ∀ cp lo hi,
  slid mem' mem φ cp L → laid_out mem lo hi L → cp ≤ lo →
  ∀ o1 o2, o1 ∈ L → o2 ∈ L → o1 < o2 →
    φ o1 + obj_size mem o1 ≤ φ o2.
Proof.
  induction L as [| x L IH]; intros cp lo hi Hslid Hlay Hcp o1 o2 Ho1 Ho2 Hlt;
    [by apply elem_of_nil in Ho1 |].
  pose proof Hslid as Hslid0. pose proof Hlay as Hlay0.
  simpl in Hslid, Hlay.
  destruct Hslid as (Hφ & ob & ob' & Hob & _ & Hpos & _ & _ & _ & Hrest).
  destruct Hlay as (Hlo & _ & _ & Hlay).
  destruct (laid_out_bounds _ _ _ _ Hlay) as [_ Hbounds].
  unfold obj_size in Hlay, Hbounds. rewrite Hob in Hlay, Hbounds.
  apply elem_of_cons in Ho1 as [-> | Ho1];
    apply elem_of_cons in Ho2 as [-> | Ho2].
  - lia.
  - destruct (slid_lookup _ _ _ _ _ _ Hrest Ho2) as [Hge _].
    unfold obj_size. rewrite Hob. lia.
  - destruct (Hbounds _ Ho1). lia.
  - by apply (IH _ _ _ Hrest Hlay ltac:(lia)).
Qed.

Lemma slid_size mem' mem φ L : ∀ cp,
  slid mem' mem φ cp L →
  ∀ o, o ∈ L → obj_size mem' (φ o) = obj_size mem o
                ∧ is_Some (mem' !! φ o)
                ∧ is_forwarded mem' (φ o) = false.
Proof.
  induction L as [| x L IH]; intros cp Hslid o Ho;
    [by apply elem_of_nil in Ho |].
  simpl in Hslid.
  destruct Hslid
    as (Hφ & ob & ob' & Hob & Hob' & Hpos & Hsize & _ & Hmark & Hrest).
  apply elem_of_cons in Ho as [-> | Ho]; [| by eapply IH].
  unfold obj_size, is_forwarded, obj_mark. rewrite Hφ, Hob, Hob'. eauto.
Qed.

(** One completed cycle on a well-formed heap, in the terms of the
    objects that were live when it started. *)
Lemma entry_collect_cycle (g : Globals) (os : OsAnswers)
    (h h' : EpsilonHeap) (s : GCStats) :
  heap_wf (h_space h) (h_mem h) (h_roots h) →
  entry_collect g os h = (Completed s, h') →
  let φ := new_address h in
  let bottom := cs_bottom (h_space h) in
  φ 0 = 0
  ∧ ∃ L,
    StronglySorted Z.lt L
    ∧ (∀ o, o ∈ L ↔ live h o)
    ∧ laid_out (h_mem h) bottom (cs_top (h_space h)) L
    ∧ cs_bottom (h_space h') = bottom
    ∧ cs_top (h_space h') = bottom + total_size (h_mem h) L
    ∧ root_slots (h_roots h') = map φ (root_slots (h_roots h))
    ∧ slid (h_mem h') (h_mem h) φ bottom L
    ∧ tight (h_mem h') bottom (cs_top (h_space h')) (map φ L)
    ∧ (∀ o', live h' o' ↔ o' ∈ map φ L)
    ∧ (∀ o, o ∈ L → obj_mark (h_mem h') (φ o) = obj_mark (h_mem h) o)
    ∧ stat_reachable_heap s = Z.of_nat (length L)
    ∧ stat_moved s = Z.of_nat (length (filter (λ o, φ o ≠ o) L))
    ∧ stat_preserved_marks s
      = Z.of_nat
          (length (filter (λ o, φ o ≠ o
                                ∧ must_be_preserved (obj_mark (h_mem h) o)
                                  = true) L)).
Proof.
  intros Hwf Hrun φ bottom.
  destruct (entry_collect_completed _ _ _ _ _ Hrun)
    as (Hidle & bitmap & Hmark & Hmem & Hroots & Hbottom & Htop & Hlock).
  destruct (entry_collect_completed_full _ _ _ _ _ Hrun)
    as (bitmap' & Hmark' & Hmoved & Hpreserved & _).
  rewrite Hmark in Hmark'. injection Hmark' as <-.
  destruct (mark_phase_marks_reachable (h_mem h) (h_roots h))
    as (bm & nr & nh & Hmark' & Hreach & Hnh & _).
  rewrite Hmark in Hmark'. injection Hmark' as <- _ Hnh'.
  assert (φ = EpsilonAdjustPointersOopClosure.do_oop_work
                (EpsilonCalcNewLocationObjectClosure.mem
                   (calc_phase (h_space h) bitmap (h_mem h)))) as Hφ.
  { subst φ. unfold new_address. by rewrite Hmark. }
  destruct (phases_compact _ bitmap _ _ Hwf Hreach)
    as (HL & Hnd & Hnew & Hle & Hroots' & Hslid & Htight & Hlive).
  destruct (phases_marks _ bitmap _ _ Hwf Hreach)
    as (Hlay & Hmarks & Hcount & Hsaved).
  cbv zeta in Hmem, Hroots, Htop, Hmoved, Hpreserved, Hnew, Hroots', Hslid,
    Htight, Hlive, Hlay, Hmarks, Hcount, Hsaved.
  rewrite <- Hφ in Hroots', Hslid, Htight, Hlive, Hmarks, Hcount, Hsaved.
  rewrite <- Hmem in Hslid, Htight, Hlive, Hmarks.
  rewrite <- Hroots in Hroots', Hlive.
  rewrite <- Htop in Hnew, Htight.
  split; [by rewrite Hφ |].
  exists (marked_in bitmap (cs_bottom (h_space h)) (cs_top (h_space h))).
  split; [apply marked_in_sorted |].
  split; [intros o; unfold live; by rewrite HL, Hreach |].
  split; [exact Hlay |]. split; [exact Hbottom |]. split; [exact Hnew |].
  split; [exact Hroots' |]. split; [exact Hslid |]. split; [exact Htight |].
  split; [exact Hlive |]. split; [exact Hmarks |].
  split; [| split].
  - rewrite Hnh', Hnh. f_equal. by apply size_marked_list.
  - by rewrite Hmoved, Hcount.
  - by rewrite Hpreserved, Hsaved.
Qed.

Lemma tight_ends mem L : ∀ cp hi,
  tight mem cp hi L → ∀ o, o ∈ L → o + obj_size mem o ≤ hi.
Proof.
  induction L as [| x L IH]; intros cp hi Htight o Ho;
    [by apply elem_of_nil in Ho |].
  simpl in Htight. destruct Htight as (-> & ob & Hob & Hpos & _ & Hrest).
  apply elem_of_cons in Ho as [-> | Ho]; [| by eapply IH].
  destruct (tight_bounds _ _ _ _ Hrest) as [Hle _].
  unfold obj_size. rewrite Hob. lia.
Qed.

Lemma length_filter_and {A} (P Q : A → Prop) `{∀ x, Decision (P x)}
    `{∀ x, Decision (Q x)} (l : list A) :
  (length (filter (λ x, P x ∧ Q x) l) ≤ length (filter P l))%nat.
Proof.
  induction l as [| x l IH]; [done |].
  rewrite !filter_cons.
  destruct (decide (P x ∧ Q x)) as [[HP _] | Hno].
  - rewrite decide_True by done. simpl. lia.
  - destruct (decide (P x)); simpl; lia.
Qed.

Lemma length_filter_zero {A} (P : A → Prop) `{∀ x, Decision (P x)}
    (l : list A) :
  length (filter P l) = 0%nat ↔ ∀ x, x ∈ l → ¬ P x.
Proof.
  induction l as [| x l IH].
  - split; [| done]. intros _ x Hx. by apply elem_of_nil in Hx.
  - rewrite filter_cons. destruct (decide (P x)) as [HP | HP]; simpl.
    + split; [done |]. intros Hall. exfalso. apply (Hall x); [by left | done].
    + rewrite IH. split.
      * intros Hall y Hy. apply elem_of_cons in Hy as [-> | Hy]; auto.
      * intros Hall y Hy. apply Hall. by right.
Qed.

(** The cycle on the heap of the three objects. *)
Lemma three_object_cycle :
  entry_collect sliding_globals os_all_fine (three_object_heap 0)
  = (Completed {| stat_reachable_roots := 1; stat_reachable_heap := 2;
                  stat_moved := 1; stat_preserved_marks := 1 |},
     three_object_heap_collected).
Proof.
  unfold three_object_heap_collected.
  rewrite (surjective_pairing
             (entry_collect sliding_globals os_all_fine
                (three_object_heap 0))) at 1.
  f_equal; vm_compute; reflexivity.
Qed.

Lemma three_object_live_A : live (three_object_heap 0) 100.
Proof. apply reachable_root; [| done]. vm_compute. by left. Qed.

Lemma three_object_live_C : live (three_object_heap 0) 108.
Proof.
  apply (reachable_field _ _ 100); [apply three_object_live_A | | done].
  vm_compute. by left.
Qed.

(** X13. A completed cycle on a well-formed heap leaves a compacted heap:
    the objects reachable from the roots tile [bottom, top) with no gap
    between them and no forwarding pattern left on them. [bottom] stays,
    and [top] comes down to [bottom] plus the words the live objects took
    before the cycle, so the cycle never grows what is used. *)
Theorem entry_collect_compacts (g : Globals) (os : OsAnswers)
    (h h' : EpsilonHeap) (s : GCStats) :
  heap_wf (h_space h) (h_mem h) (h_roots h) →
  entry_collect g os h = (Completed s, h') →
  compacted (h_space h') (h_mem h') (h_roots h')
  ∧ cs_bottom (h_space h') = cs_bottom (h_space h)
  ∧ cs_top (h_space h') ≤ cs_top (h_space h)
  ∧ ∃ L, StronglySorted Z.lt L
         ∧ (∀ o, o ∈ L ↔ live h o)
         ∧ cs_top (h_space h')
           = cs_bottom (h_space h) + total_size (h_mem h) L.
Proof.
  intros Hwf Hrun.
  destruct (entry_collect_cycle g os h h' s Hwf Hrun)
    as (_ & L & Hsorted & HL & Hlay & Hbottom & Htop & _ & _ & Htight & Hlive
        & _).
  split.
  { split; [rewrite Hbottom; apply Hwf |].
    exists (map (new_address h) L). rewrite Hbottom. split; [exact Htight |].
    exact Hlive. }
  split; [exact Hbottom |].
  split; [destruct (laid_out_bounds _ _ _ _ Hlay); lia |].
  exists L. split; [exact Hsorted |]. split; [exact HL | exact Htop].
Qed.

Lemma entry_collect_compacts_witness :
  compacted (h_space three_object_heap_collected)
    (h_mem three_object_heap_collected)
    (h_roots three_object_heap_collected)
  ∧ cs_top (h_space three_object_heap_collected) ≤ 112.
Proof.
  destruct (entry_collect_compacts sliding_globals os_all_fine
              (three_object_heap 0) three_object_heap_collected _
              three_object_heap_wf three_object_cycle)
    as (Hcompacted & _ & Htop & _).
  split; [exact Hcompacted | exact Htop].
Defined.

(** X14. A completed cycle keeps the object graph: with every live
    object at its new address, the roots and the reference slots hold the
    new addresses of what they held, null stays null, a live object
    stays non-null, distinct objects stay distinct, sizes are kept, and
    the objects live afterwards are exactly those live before. *)
Theorem entry_collect_keeps_graph (g : Globals) (os : OsAnswers)
    (h h' : EpsilonHeap) (s : GCStats) :
  heap_wf (h_space h) (h_mem h) (h_roots h) →
  entry_collect g os h = (Completed s, h') →
  let φ := new_address h in
  φ 0 = 0
  ∧ root_slots (h_roots h') = map φ (root_slots (h_roots h))
  ∧ (∀ o, live h o →
       φ o ≠ 0
       ∧ is_Some (h_mem h' !! φ o)
       ∧ obj_size (h_mem h') (φ o) = obj_size (h_mem h) o
       ∧ obj_fields (h_mem h') (φ o) = map φ (obj_fields (h_mem h) o))
  ∧ (∀ o1 o2, live h o1 → live h o2 → φ o1 = φ o2 → o1 = o2)
  ∧ (∀ o', live h' o' ↔ ∃ o, live h o ∧ o' = φ o).
Proof.
  intros Hwf Hrun φ.
  destruct (entry_collect_cycle g os h h' s Hwf Hrun)
    as (Hnull & L & Hsorted & HL & Hlay & Hbottom & Htop & Hroots & Hslid
        & Htight & Hlive & _).
  fold φ in Hnull, Hroots, Hslid, Htight, Hlive.
  split; [exact Hnull |]. split; [exact Hroots |].
  split; [| split].
  - intros o Ho. apply HL in Ho.
    destruct (slid_lookup _ _ _ _ _ _ Hslid Ho) as (Hge & _).
    destruct (slid_size _ _ _ _ _ Hslid o Ho) as (Hsize & Hsome & _).
    split; [pose proof (wf_bottom _ _ _ Hwf); lia |].
    split; [exact Hsome |]. split; [exact Hsize |].
    by apply (moved_fields _ _ _ _ _ Hslid).
  - intros o1 o2 Ho1 Ho2.
    apply (NoDup_map_apart φ L); [| by apply HL..].
    destruct (tight_bounds _ _ _ _ Htight) as (_ & Hs & _).
    by apply sorted_lt_NoDup.
  - intros o'. rewrite Hlive, list_elem_of_fmap.
    split; intros (o & Ho1 & Ho2); exists o; split; auto; by apply HL.
Qed.

Lemma entry_collect_keeps_graph_witness :
  root_slots (h_roots three_object_heap_collected)
  = map (new_address (three_object_heap 0)) [100; 0]
  ∧ obj_fields (h_mem three_object_heap_collected)
      (new_address (three_object_heap 0) 108)
    = map (new_address (three_object_heap 0)) [100; 0].
Proof.
  destruct (entry_collect_keeps_graph sliding_globals os_all_fine
              (three_object_heap 0) three_object_heap_collected _
              three_object_heap_wf three_object_cycle)
    as (_ & Hroots & Hobjects & _).
  split; [exact Hroots |].
  destruct (Hobjects 108 three_object_live_C) as (_ & _ & _ & Hfields).
  exact Hfields.
Defined.

(** X15. The collector slides: a live object moves towards [bottom] or
    stays, never past [bottom] and never up; live objects keep their
    address order and the moved copies do not overlap; all of them end
    below the new [top]. The cycle reports no moved object exactly when
    every live object is left where it was. *)
Theorem entry_collect_slides (g : Globals) (os : OsAnswers)
    (h h' : EpsilonHeap) (s : GCStats) :
  heap_wf (h_space h) (h_mem h) (h_roots h) →
  entry_collect g os h = (Completed s, h') →
  let φ := new_address h in
  (∀ o, live h o →
     cs_bottom (h_space h) ≤ φ o ≤ o
     ∧ φ o + obj_size (h_mem h) o ≤ cs_top (h_space h'))
  ∧ (∀ o1 o2, live h o1 → live h o2 → o1 < o2 →
       φ o1 + obj_size (h_mem h) o1 ≤ φ o2)
  ∧ (stat_moved s = 0 ↔ ∀ o, live h o → φ o = o).
Proof.
  intros Hwf Hrun φ.
  destruct (entry_collect_cycle g os h h' s Hwf Hrun)
    as (_ & L & Hsorted & HL & Hlay & Hbottom & Htop & _ & Hslid & Htight
        & _ & _ & _ & Hmoved & _).
  fold φ in Hslid, Htight, Hmoved.
  split; [| split].
  - intros o Ho. apply HL in Ho.
    split; [by apply (slid_down _ _ _ _ _ _ _ Hslid Hlay (Z.le_refl _)) |].
    destruct (slid_size _ _ _ _ _ Hslid o Ho) as (<- & _).
    apply (tight_ends _ _ _ _ Htight). apply list_elem_of_fmap. eauto.
  - intros o1 o2 Ho1 Ho2.
    apply (slid_order _ _ _ _ _ _ _ Hslid Hlay (Z.le_refl _));
      by apply HL.
  - rewrite Hmoved.
    transitivity (length (filter (λ o, φ o ≠ o) L) = 0%nat); [lia |].
    rewrite length_filter_zero. split.
    + intros Hall o Ho. apply HL in Ho. specialize (Hall o Ho).
      destruct (decide (φ o = o)); [done | by exfalso; apply Hall].
    + intros Hall o Ho Hne. apply Hne, Hall, HL, Ho.
Qed.

Lemma entry_collect_slides_witness :
  100 ≤ new_address (three_object_heap 0) 108 ≤ 108
  ∧ new_address (three_object_heap 0) 100 + 4
    ≤ new_address (three_object_heap 0) 108.
Proof.
  destruct (entry_collect_slides sliding_globals os_all_fine
              (three_object_heap 0) three_object_heap_collected _
              three_object_heap_wf three_object_cycle)
    as (Hdown & Horder & _).
  split.
  - exact (proj1 (Hdown 108 three_object_live_C)).
  - exact (Horder 100 108 three_object_live_A three_object_live_C
             ltac:(lia)).
Defined.

(** X16. Mark words survive a cycle: every live object has at its new
    address the mark word it had before, whether it was moved or not and
    whether its mark had to be saved or not, and no forwarding pattern is
    left on it. *)
Theorem entry_collect_keeps_marks (g : Globals) (os : OsAnswers)
    (h h' : EpsilonHeap) (s : GCStats) :
  heap_wf (h_space h) (h_mem h) (h_roots h) →
  entry_collect g os h = (Completed s, h') →
  ∀ o, live h o →
    obj_mark (h_mem h') (new_address h o) = obj_mark (h_mem h) o
    ∧ is_forwarded (h_mem h') (new_address h o) = false.
Proof.
  intros Hwf Hrun o Ho.
  destruct (entry_collect_cycle g os h h' s Hwf Hrun)
    as (_ & L & Hsorted & HL & _ & _ & _ & _ & Hslid & _ & _ & Hmarks & _).
  apply HL in Ho. split; [by apply Hmarks |].
  by destruct (slid_size _ _ _ _ _ Hslid o Ho) as (_ & _ & ?).
Qed.

Lemma entry_collect_keeps_marks_witness :
  obj_mark (h_mem three_object_heap_collected)
    (new_address (three_object_heap 0) 108)
  = mark_must_be_preserved 7.
Proof.
  exact (proj1 (entry_collect_keeps_marks sliding_globals os_all_fine
                  (three_object_heap 0) three_object_heap_collected _
                  three_object_heap_wf three_object_cycle
                  108 three_object_live_C)).
Defined.

(** X17. What the statistics of a completed cycle count: the live
    objects; among them those whose address changes; and among those the
    ones whose mark word must be preserved. So no more marks are
    preserved than objects moved, no more objects moved than are live,
    and no more objects pushed from the roots than are live. *)
Theorem entry_collect_statistics (g : Globals) (os : OsAnswers)
    (h h' : EpsilonHeap) (s : GCStats) :
  heap_wf (h_space h) (h_mem h) (h_roots h) →
  entry_collect g os h = (Completed s, h') →
  (∃ L, NoDup L
        ∧ (∀ o, o ∈ L ↔ live h o)
        ∧ stat_reachable_heap s = Z.of_nat (length L)
        ∧ stat_moved s
          = Z.of_nat (length (filter (λ o, new_address h o ≠ o) L))
        ∧ stat_preserved_marks s
          = Z.of_nat
              (length
                 (filter (λ o, new_address h o ≠ o
                               ∧ must_be_preserved (obj_mark (h_mem h) o)
                                 = true) L)))
  ∧ 0 ≤ stat_preserved_marks s ≤ stat_moved s
  ∧ stat_moved s ≤ stat_reachable_heap s
  ∧ 0 ≤ stat_reachable_roots s ≤ stat_reachable_heap s.
Proof.
  intros Hwf Hrun.
  destruct (entry_collect_cycle g os h h' s Hwf Hrun)
    as (_ & L & Hsorted & HL & _ & _ & _ & _ & _ & _ & _ & _ & Hheap & Hmoved
        & Hpreserved).
  split.
  { exists L. split; [by apply sorted_lt_NoDup |]. split; [exact HL |].
    split; [exact Hheap |]. split; [exact Hmoved | exact Hpreserved]. }
  pose proof (length_filter_and (λ o, new_address h o ≠ o)
                (λ o, must_be_preserved (obj_mark (h_mem h) o) = true) L)
    as Hfewer.
  cbv beta in Hfewer. apply Nat2Z.inj_le in Hfewer.
  rewrite <- Hpreserved, <- Hmoved in Hfewer.
  pose proof (length_filter (λ o, new_address h o ≠ o) L) as Hfew.
  apply Nat2Z.inj_le in Hfew. rewrite <- Hmoved, <- Hheap in Hfew.
  split; [lia |]. split; [lia |].
  destruct (entry_collect_completed _ _ _ _ _ Hrun)
    as (_ & bitmap & Hmark & _).
  destruct (mark_phase_marks_reachable (h_mem h) (h_roots h))
    as (bm & nr & nh & Hmark' & _ & _ & Hroots).
  rewrite Hmark in Hmark'. injection Hmark' as _ -> ->. exact Hroots.
Qed.

Lemma entry_collect_statistics_witness :
  ∃ s, entry_collect sliding_globals os_all_fine (three_object_heap 0)
       = (Completed s, three_object_heap_collected)
    ∧ 0 ≤ stat_preserved_marks s ≤ stat_moved s
    ∧ stat_moved s ≤ stat_reachable_heap s.
Proof.
  eexists. split; [exact three_object_cycle |].
  destruct (entry_collect_statistics sliding_globals os_all_fine
              (three_object_heap 0) three_object_heap_collected _
              three_object_heap_wf three_object_cycle)
    as (_ & Hpreserved & Hmoved & _).
  split; [exact Hpreserved | exact Hmoved].
Defined.

(** ** The committed space after a cycle *)

Lemma laid_out_total_nonneg mem lo hi L :
  laid_out mem lo hi L → 0 ≤ total_size mem L.
Proof. intros Hlay. by apply total_size_nonneg, (laid_out_positive _ lo hi). Qed.

(** Where [top] is after a completed cycle. *)
Lemma entry_collect_top (g : Globals) (os : OsAnswers)
    (h h' : EpsilonHeap) (s : GCStats) :
  heap_wf (h_space h) (h_mem h) (h_roots h) →
  entry_collect g os h = (Completed s, h') →
  cs_bottom (h_space h') = cs_bottom (h_space h)
  ∧ cs_bottom (h_space h) ≤ cs_top (h_space h') ≤ cs_top (h_space h).
Proof.
  intros Hwf Hrun.
  destruct (entry_collect_cycle g os h h' s Hwf Hrun)
    as (_ & L & _ & _ & Hlay & Hbottom & Htop & _).
  pose proof (laid_out_total_nonneg _ _ _ _ Hlay).
  destruct (laid_out_bounds _ _ _ _ Hlay). split; [done | lia].
Qed.

(** The committed space a completed cycle leaves. *)
Lemma entry_collect_spaces (g : Globals) (os : OsAnswers)
    (h h' : EpsilonHeap) (s : GCStats) :
  0 < HeapWordSize g →
  (EpsilonUncommit g = true → 0 < os_vm_page_size g) →
  vs_low (h_virtual_space h) = cs_bottom (h_space h) * HeapWordSize g →
  cs_end (h_space h) = vs_high (h_virtual_space h) / HeapWordSize g →
  cs_top (h_space h) ≤ cs_end (h_space h) →
  heap_wf (h_space h) (h_mem h) (h_roots h) →
  entry_collect g os h = (Completed s, h') →
  let asked := vs_high (h_virtual_space h)
               - (cs_end (h_space h) - cs_top (h_space h'))
                 * HeapWordSize g in
  cs_end (h_space h') = vs_high (h_virtual_space h') / HeapWordSize g
  ∧ h_virtual_space h'
    = {| vs_low_boundary := vs_low_boundary (h_virtual_space h);
         vs_high_boundary := vs_high_boundary (h_virtual_space h);
         vs_low := vs_low (h_virtual_space h);
         vs_high :=
           if EpsilonUncommit g
           then MIN2 (vs_high (h_virtual_space h))
                  (align_up asked (os_vm_page_size g))
           else vs_high (h_virtual_space h) |}
  ∧ cs_top (h_space h') ≤ cs_end (h_space h') ≤ cs_end (h_space h)
  ∧ cs_top (h_space h') * HeapWordSize g ≤ asked
  ∧ asked ≤ vs_high (h_virtual_space h).
Proof.
  intros Hword Hpage Hlow Hend Htop Hwf Hrun asked.
  destruct (entry_collect_top g os h h' s Hwf Hrun) as [Hbottom Htop'].
  destruct (entry_collect_completed_full _ _ _ _ _ Hrun)
    as (bitmap & _ & _ & _ & Hvs & Hend' & _).
  pose proof (Z.mul_div_le (vs_high (h_virtual_space h)) (HeapWordSize g) Hword)
    as Hfloor.
  rewrite <- Hend in Hfloor.
  assert (cs_top (h_space h') * HeapWordSize g ≤ asked
          ∧ asked ≤ vs_high (h_virtual_space h)) as [Hasked Hasked'].
  { subst asked. nia. }
  destruct (EpsilonUncommit g).
  2:{ rewrite Hend', Hvs. split; [exact Hend |]. split.
      { by destruct (h_virtual_space h). }
      split; [lia | done]. }
  specialize (Hpage eq_refl).
  assert (h_virtual_space h'
          = {| vs_low_boundary := vs_low_boundary (h_virtual_space h);
               vs_high_boundary := vs_high_boundary (h_virtual_space h);
               vs_low := vs_low (h_virtual_space h);
               vs_high := MIN2 (vs_high (h_virtual_space h))
                            (align_up asked (os_vm_page_size g)) |}) as Hvs'.
  { rewrite Hvs. unfold shrink_by, committed_size.
    destruct (Z.ltb_spec (vs_high (h_virtual_space h) - vs_low (h_virtual_space h))
                ((cs_end (h_space h) - cs_top (h_space h')) * HeapWordSize g));
      [nia | done]. }
  split; [exact Hend' |]. split; [exact Hvs' |]. split; [| done].
  destruct (align_up_bounds asked (os_vm_page_size g) Hpage) as [[Hup _] _].
  rewrite Hend', Hvs'. cbn [vs_high]. rewrite Hend. split.
  - apply Z.div_le_lower_bound; [lia |].
    unfold MIN2.
    destruct (Z.ltb_spec (vs_high (h_virtual_space h))
                (align_up asked (os_vm_page_size g))); lia.
  - apply Z.div_le_mono; [lia |].
    unfold MIN2.
    destruct (Z.ltb_spec (vs_high (h_virtual_space h))
                (align_up asked (os_vm_page_size g))); lia.
Qed.

(** X18. With [EpsilonUncommit], a completed cycle gives back the
    committed memory above the new [top], in whole pages: the committed
    range is cut at the byte where the compacted objects end, rounded up
    to the page size, and never grows, so that less than a page stays
    committed above what was asked for; [end] follows the committed
    range and stays between the new [top] and the old [end]. The
    reservation is not touched. Without [EpsilonUncommit], [end] and
    the virtual space are left as they were. *)
Theorem entry_collect_uncommits (g : Globals) (os : OsAnswers)
    (h h' : EpsilonHeap) (s : GCStats) :
  0 < HeapWordSize g →
  0 < os_vm_page_size g →
  vs_low (h_virtual_space h) = cs_bottom (h_space h) * HeapWordSize g →
  cs_end (h_space h) = vs_high (h_virtual_space h) / HeapWordSize g →
  cs_top (h_space h) ≤ cs_end (h_space h) →
  heap_wf (h_space h) (h_mem h) (h_roots h) →
  entry_collect g os h = (Completed s, h') →
  if EpsilonUncommit g
  then let asked := vs_high (h_virtual_space h)
                    - (cs_end (h_space h) - cs_top (h_space h'))
                      * HeapWordSize g in
       vs_high (h_virtual_space h')
       = MIN2 (vs_high (h_virtual_space h))
           (align_up asked (os_vm_page_size g))
       ∧ asked ≤ vs_high (h_virtual_space h') < asked + os_vm_page_size g
       ∧ cs_end (h_space h')
         = vs_high (h_virtual_space h') / HeapWordSize g
       ∧ cs_top (h_space h') ≤ cs_end (h_space h') ≤ cs_end (h_space h)
       ∧ (vs_high (h_virtual_space h)
          = cs_end (h_space h) * HeapWordSize g →
          (cs_end (h_space h') - cs_top (h_space h')) * HeapWordSize g
          < os_vm_page_size g)
       ∧ vs_low (h_virtual_space h') = vs_low (h_virtual_space h)
       ∧ reserved_size (h_virtual_space h')
         = reserved_size (h_virtual_space h)
       ∧ committed_size (h_virtual_space h')
         ≤ committed_size (h_virtual_space h)
  else cs_end (h_space h') = cs_end (h_space h)
       ∧ h_virtual_space h' = h_virtual_space h.
Proof.
  intros Hword Hpage Hlow Hend Htop Hwf Hrun.
  destruct (entry_collect_spaces g os h h' s Hword ltac:(done) Hlow Hend Htop
              Hwf Hrun) as (Hend' & Hvs' & Hbetween & Hasked & Hasked').
  cbv zeta in Hvs', Hasked, Hasked'.
  destruct (EpsilonUncommit g).
  - cbv zeta.
    set (asked := vs_high (h_virtual_space h)
                  - (cs_end (h_space h) - cs_top (h_space h'))
                    * HeapWordSize g) in *.
    destruct (align_up_bounds asked (os_vm_page_size g) Hpage)
      as [[Hup Hup'] _].
    assert (vs_high (h_virtual_space h')
            = MIN2 (vs_high (h_virtual_space h))
                (align_up asked (os_vm_page_size g))) as Hhigh.
    { by rewrite Hvs'. }
    assert (asked ≤ vs_high (h_virtual_space h') < asked + os_vm_page_size g
            ∧ vs_high (h_virtual_space h') ≤ vs_high (h_virtual_space h))
      as [Hnear Hle].
    { rewrite Hhigh. unfold MIN2.
      destruct (Z.ltb_spec (vs_high (h_virtual_space h))
                  (align_up asked (os_vm_page_size g))); lia. }
    split; [exact Hhigh |]. split; [exact Hnear |].
    split; [exact Hend' |]. split; [exact Hbetween |].
    split.
    { intros Hwhole.
      pose proof (Z.mul_div_le (vs_high (h_virtual_space h'))
                    (HeapWordSize g) Hword) as Hfloor.
      rewrite <- Hend' in Hfloor. subst asked. nia. }
    rewrite Hvs' in Hle |- *. unfold reserved_size, committed_size.
    cbn [vs_high vs_low vs_low_boundary vs_high_boundary] in *.
    split; [done |]. split; [done |]. lia.
  - destruct Hbetween as [_ Hbetween]. split.
    + rewrite Hend', Hvs'. cbn [vs_high]. by rewrite Hend.
    + rewrite Hvs'. by destruct (h_virtual_space h).
Qed.

Lemma entry_collect_uncommits_witness :
  let g := {| HeapWordSize := 8; MinObjAlignment := 1;
              os_vm_page_size := 64; EpsilonMinHeapExpand := 1024;
              EpsilonElasticTLAB := true; EpsilonElasticTLABDecay := true;
              elastic_scale := λ e, e * 11 / 10;
              EpsilonSlidingGC := true; EpsilonImplicitGC := true;
              EpsilonVerify := true; EpsilonUncommit := true |} in
  let h' := snd (entry_collect g os_all_fine (three_object_heap 0)) in
  cs_top (h_space h') = 108
  ∧ vs_high (h_virtual_space h') = 896
  ∧ cs_end (h_space h') = 112.
Proof.
  intros g h'.
  assert (entry_collect g os_all_fine (three_object_heap 0)
          = (Completed {| stat_reachable_roots := 1; stat_reachable_heap := 2;
                          stat_moved := 1; stat_preserved_marks := 1 |}, h'))
    as Hrun.
  { rewrite (surjective_pairing
               (entry_collect g os_all_fine (three_object_heap 0))).
    f_equal; vm_compute; reflexivity. }
  pose proof (entry_collect_uncommits g os_all_fine (three_object_heap 0) h' _
                ltac:(simpl; lia) ltac:(simpl; lia) ltac:(reflexivity)
                ltac:(reflexivity) ltac:(simpl; lia) three_object_heap_wf
                Hrun) as Hun.
  change (EpsilonUncommit g) with true in Hun. cbv zeta in Hun.
  destruct Hun as (Hhigh & _ & Hend & _).
  assert (cs_top (h_space h') = 108) as Htop by (vm_compute; reflexivity).
  rewrite Htop in Hhigh.
  assert (vs_high (h_virtual_space h') = 896) as Hhigh'.
  { rewrite Hhigh. vm_compute. reflexivity. }
  split; [exact Htop |]. split; [exact Hhigh' |].
  rewrite Hend, Hhigh'. reflexivity.
Defined.

(** X19. On a well-formed heap, with no object pinned and the bitmap
    committed, a cycle runs to completion whatever the flags: neither
    marking loop runs out of rounds and, with [EpsilonVerify], every
    guarantee of the verification holds. The GC locker is left as it
    was, and if the bitmap is uncommitted it is clear afterwards and no
    warning is logged. *)
Theorem entry_collect_verification_passes (g : Globals) (os : OsAnswers)
    (h : EpsilonHeap) :
  heap_wf (h_space h) (h_mem h) (h_roots h) →
  gcl_readers (h_gc_locker h) = 0 →
  commit_memory_ok os = true →
  ∃ s h', entry_collect g os h = (Completed s, h')
    ∧ h_gc_locker h' = h_gc_locker h
    ∧ (uncommit_memory_ok os = true →
         h_bitmap h' = ∅ ∧ h_warnings h' = h_warnings h).
Proof.
  intros Hwf Hidle Hcommit.
  destruct (entry_collect_completes g os h Hwf Hidle Hcommit)
    as (s & h' & Hrun).
  exists s, h'. split; [exact Hrun |].
  destruct (entry_collect_completed _ _ _ _ _ Hrun)
    as (_ & _ & _ & _ & _ & _ & _ & Hlock).
  destruct (entry_collect_completed_full _ _ _ _ _ Hrun)
    as (_ & _ & _ & _ & _ & _ & Hbitmap).
  split; [exact Hlock | exact Hbitmap].
Qed.

Lemma entry_collect_verification_passes_witness :
  ∃ s h', entry_collect sliding_globals os_all_fine (three_object_heap 0)
          = (Completed s, h')
    ∧ h_bitmap h' = ∅.
Proof.
  destruct (entry_collect_verification_passes sliding_globals os_all_fine
              (three_object_heap 0) three_object_heap_wf eq_refl eq_refl)
    as (s & h' & Hrun & _ & Hclear).
  exists s, h'. split; [exact Hrun |]. exact (proj1 (Hclear eq_refl)).
Defined.

(** ** Pinning and collecting *)

Lemma set_gc_locker_same h : set_gc_locker (h_gc_locker h) h = h.
Proof. by destruct h. Qed.

(** X20. With the sliding collector on, a pinned object keeps the
    collector out and unpinning it lets the collector in again: on a heap
    that a cycle would compact, the cycle requested between [pin_object]
    and [unpin_object] is skipped and leaves the heap as it is, and the
    cycle requested after [unpin_object] completes. *)
Theorem pin_object_blocks_entry_collect (g : Globals) (os : OsAnswers)
    (h : EpsilonHeap) (thread obj : Z) :
  EpsilonSlidingGC g = true →
  heap_wf (h_space h) (h_mem h) (h_roots h) →
  gcl_readers (h_gc_locker h) = 0 →
  commit_memory_ok os = true →
  let pinned := set_gc_locker (pin_object g thread obj (h_gc_locker h)) h in
  let unpinned :=
    set_gc_locker (unpin_object g thread obj (h_gc_locker pinned)) pinned in
  entry_collect g os pinned = (SkippedLockerActive, pinned)
  ∧ unpinned = h
  ∧ ∃ s h', entry_collect g os unpinned = (Completed s, h').
Proof.
  intros Hsliding Hwf Hidle Hcommit pinned unpinned.
  assert (unpinned = h) as Hback.
  { subst unpinned pinned. cbn [set_gc_locker h_gc_locker h_space
                                h_virtual_space h_mem h_roots h_bitmap
                                h_warnings].
    rewrite unpin_pin_object. by destruct h. }
  split; [| split; [exact Hback |]].
  - unfold entry_collect, GCLocker_is_active.
    subst pinned. cbn [set_gc_locker h_gc_locker].
    unfold pin_object. rewrite Hsliding. cbn [GCLocker_enter gcl_readers].
    rewrite Hidle. reflexivity.
  - rewrite Hback. by apply entry_collect_completes.
Qed.

Lemma pin_object_blocks_entry_collect_witness :
  let pinned :=
    set_gc_locker
      (pin_object sliding_globals 1 108 (h_gc_locker (three_object_heap 0)))
      (three_object_heap 0) in
  entry_collect sliding_globals os_all_fine pinned
  = (SkippedLockerActive, pinned).
Proof.
  exact (proj1 (pin_object_blocks_entry_collect sliding_globals os_all_fine
                  (three_object_heap 0) 1 108 eq_refl three_object_heap_wf
                  eq_refl eq_refl)).
Defined.

(** ** A bitmap that cannot be uncommitted *)

(** X21. When the bitmap cannot be uncommitted at the end of a cycle on
    a well-formed heap, the cycle ends the same way and leaves the same
    objects, roots, spaces and GC locker as when the uncommit succeeds.
    A cycle that got to its epilogue logs the warning and leaves the
    bitmap with its marks set, where a successful uncommit leaves it
    clear: with [EpsilonVerify] the marks are those of the verification,
    the live objects at their new addresses; without it those of step 1,
    the live objects at their old addresses. A cycle that returned
    before marking leaves the heap exactly as with a successful
    uncommit. *)
Theorem entry_collect_uncommit_failure_keeps_marks (g : Globals)
    (commit_ok : bool) (h : EpsilonHeap) :
  heap_wf (h_space h) (h_mem h) (h_roots h) →
  let fine := entry_collect g {| commit_memory_ok := commit_ok;
                                 uncommit_memory_ok := true |} h in
  let failing := entry_collect g {| commit_memory_ok := commit_ok;
                                    uncommit_memory_ok := false |} h in
  fst failing = fst fine
  ∧ h_mem (snd failing) = h_mem (snd fine)
  ∧ h_roots (snd failing) = h_roots (snd fine)
  ∧ h_space (snd failing) = h_space (snd fine)
  ∧ h_virtual_space (snd failing) = h_virtual_space (snd fine)
  ∧ h_gc_locker (snd failing) = h_gc_locker (snd fine)
  ∧ match fst fine with
    | Completed _ =>
        h_warnings (snd failing)
        = h_warnings (snd fine)
          ++ ["Could not uncommit native memory for marking bitmap"]
        ∧ h_bitmap (snd fine) = ∅
        ∧ ∀ o, o ∈ h_bitmap (snd failing)
               ↔ (if EpsilonVerify g then live (snd fine) o else live h o)
    | SkippedLockerActive | BitmapCommitFailed => snd failing = snd fine
    | GuaranteeFailed | Diverged => False
    end.
Proof.
  intros Hwf fine failing. subst fine failing. unfold entry_collect.
  cbn [commit_memory_ok uncommit_memory_ok].
  destruct (GCLocker_is_active (h_gc_locker h)); [done |].
  destruct (negb commit_ok); [done |].
  destruct (mark_phase_marks_reachable (h_mem h) (h_roots h))
    as (bitmap & nr & nh & Hmark & Hreach1 & _).
  destruct (mark_phase_after_phases _ _ _ _ _ _ Hwf Hmark)
    as (bitmap' & Hmark' & _).
  destruct (phases_compact _ bitmap _ _ Hwf Hreach1)
    as (_ & _ & _ & _ & _ & _ & Htight & Hreach).
  cbv zeta in Hmark', Htight, Hreach.
  rewrite Hmark.
  revert Hmark' Htight Hreach.
  match goal with
  | |- context [adjust_phase ?a ?b ?c ?d ?e] =>
      destruct (adjust_phase a b c d e) as [[mem3 roots3] pm3]
  end.
  cbn [fst snd]. intros Hmark' Htight Hreach.
  match goal with
  | |- context [verify_phase ?sp ?m ?r nr nh] =>
      assert (verify_phase sp m r nr nh = Returned (bitmap', true))
        as Hverify
  end.
  { apply verify_phase_passes; [| exact Hmark'].
    destruct (tight_bounds _ _ _ _ Htight) as (_ & _ & Hall).
    intros o Ho. apply Hreach, Hall in Ho. exact Ho. }
  rewrite Hverify.
  destruct (EpsilonVerify g);
    cbn [fst snd h_mem h_roots h_space h_virtual_space h_gc_locker
         h_warnings h_bitmap];
    (do 8 (split; [reflexivity |])).
  - intros o. unfold live. cbn [h_mem h_roots].
    destruct (mark_phase_marks_reachable
                (restore pm3
                   (EpsilonMoveObjectsObjectClosure.mem
                      (move_phase (h_space h) bitmap mem3))) roots3)
      as (bitmap2 & nr2 & nh2 & Hmark2 & Hreach2 & _).
    rewrite Hmark' in Hmark2. injection Hmark2 as <- _ _. apply Hreach2.
  - exact Hreach1.
Qed.

Lemma entry_collect_uncommit_failure_keeps_marks_witness :
  let failing := entry_collect sliding_globals
                   {| commit_memory_ok := true;
                      uncommit_memory_ok := false |} (three_object_heap 0) in
  h_warnings (snd failing)
  = ["Could not uncommit native memory for marking bitmap"]
  ∧ ∀ o, o ∈ h_bitmap (snd failing) ↔ live three_object_heap_collected o.
Proof.
  intros failing.
  pose proof (entry_collect_uncommit_failure_keeps_marks sliding_globals true
                (three_object_heap 0) three_object_heap_wf) as Hkept.
  cbv zeta in Hkept. fold failing in Hkept.
  destruct Hkept as (_ & _ & _ & _ & _ & _ & Hkept).
  change {| commit_memory_ok := true; uncommit_memory_ok := true |}
    with os_all_fine in Hkept.
  rewrite three_object_cycle in Hkept. cbn [fst snd] in Hkept.
  change (EpsilonVerify sliding_globals) with true in Hkept.
  destruct Hkept as (Hwarn & _ & Hmarks).
  split; [| exact Hmarks]. rewrite Hwarn. reflexivity.
Defined.

(** ** Allocating with the collector behind *)

Lemma set_alloc_view_same vm : set_alloc_view (alloc_view vm) vm = vm.
Proof. by destruct vm as [[] [] ?]. Qed.

Lemma alloc_view_set a vm : alloc_view (set_alloc_view a vm) = a.
Proof. by destruct a. Qed.

(** With no other request in between, a collection request runs the
    cycle, which prints the occupancy line if it gets to its end,
    advances the request id and releases [Heap_lock]. *)
Lemma vmentry_collect_runs g os vm :
  vmentry_collect g os vm
  = (Some (fst (entry_collect g os (vm_heap vm))),
     {| vm_heap := snd (entry_collect g os (vm_heap vm));
        vm_monitoring :=
          match fst (entry_collect g os (vm_heap vm)) with
          | Completed _ => print_heap_info (vm_monitoring vm)
          | _ => vm_monitoring vm
          end;
        vm_requests :=
          {| req_id := size_t_add (req_id (vm_requests vm)) 1;
             heap_lock_held := false |} |}).
Proof.
  unfold vmentry_collect, VMThread_execute, entry_collect_in, doit_prologue,
    doit_epilogue.
  cbn [heap_lock_lock req_id]. rewrite Z.ltb_irrefl.
  cbn [set_vm_requests vm_heap vm_monitoring vm_requests].
  by destruct (entry_collect g os (vm_heap vm)).
Qed.

(** One call of [allocate_work] on the whole heap. *)
Lemma allocate_work_in_outcome (g : Globals) (size : Z) (verbose : bool)
    (vm : VM) (fuel : nat) :
  alloc_inv g (alloc_view vm) →
  0 ≤ size → size * HeapWordSize g < size_t_modulus →
  ∃ res vm',
    allocate_work_in (S (S fuel)) g size verbose vm = Returned (res, vm')
    ∧ (res = None
       ↔ cs_end (h_space (vm_heap vm)) - cs_top (h_space (vm_heap vm)) < size
         ∧ max_capacity (alloc_view vm) - used g (alloc_view vm)
           ≤ size * HeapWordSize g)
    ∧ (res = None → vm' = vm)
    ∧ (∀ a, res = Some a →
         a = cs_top (h_space (vm_heap vm))
         ∧ cs_top (h_space (vm_heap vm')) = a + size)
    ∧ h_mem (vm_heap vm') = h_mem (vm_heap vm)
    ∧ h_roots (vm_heap vm') = h_roots (vm_heap vm)
    ∧ h_gc_locker (vm_heap vm') = h_gc_locker (vm_heap vm)
    ∧ vm_requests vm' = vm_requests vm.
Proof.
  intros Hinv Hsize Hbytes.
  destruct (allocate_work_outcome g size verbose (alloc_view vm) fuel Hinv
              Hsize Hbytes)
    as (res & a' & Hrun & Hnone & Hsame & Hsome & _).
  exists res, (set_alloc_view a' vm).
  unfold allocate_work_in. rewrite Hrun.
  split; [done |]. split; [exact Hnone |].
  split.
  { intros Hres. rewrite (Hsame Hres). apply set_alloc_view_same. }
  split; [exact Hsome |]. done.
Qed.

(** The allocator's invariant survives a completed cycle. *)
Lemma entry_collect_alloc_inv (g : Globals) (os : OsAnswers) (vm : VM)
    (h' : EpsilonHeap) (s : GCStats) (mon : Monitoring)
    (rq : CollectRequests) :
  (EpsilonUncommit g = true → 0 < os_vm_page_size g) →
  alloc_inv g (alloc_view vm) →
  heap_wf (h_space (vm_heap vm)) (h_mem (vm_heap vm)) (h_roots (vm_heap vm)) →
  entry_collect g os (vm_heap vm) = (Completed s, h') →
  let vm' := {| vm_heap := h'; vm_monitoring := mon; vm_requests := rq |} in
  alloc_inv g (alloc_view vm')
  ∧ max_capacity (alloc_view vm') = max_capacity (alloc_view vm).
Proof.
  intros Hpage [Hword Hlow Hlowb Hend Htop Hres Hfits] Hwf Hrun vm'.
  cbn [alloc_view a_space a_virtual_space] in Hlow, Hlowb, Hend, Htop, Hres.
  unfold max_capacity in Hfits. cbn [alloc_view a_virtual_space] in Hfits.
  destruct (entry_collect_top g os _ h' s Hwf Hrun) as [Hbottom Htop'].
  destruct (entry_collect_spaces g os _ h' s Hword Hpage Hlow Hend
              ltac:(lia) Hwf Hrun) as (Hend1 & Hvs & Hbetween & _ & _).
  cbv zeta in Hvs.
  assert (vs_high (h_virtual_space h') ≤ vs_high (h_virtual_space (vm_heap vm)))
    as Hhigh.
  { rewrite Hvs. cbn [vs_high]. unfold MIN2.
    destruct (EpsilonUncommit g); [| lia].
    match goal with |- context [?a <? ?b] => destruct (Z.ltb_spec a b) end;
      lia. }
  assert (max_capacity (alloc_view vm') = max_capacity (alloc_view vm)) as Hmax.
  { unfold max_capacity, reserved_size. subst vm'.
    cbn [alloc_view a_virtual_space vm_heap]. by rewrite Hvs. }
  split; [| exact Hmax].
  constructor; try rewrite Hmax; subst vm';
    cbn [alloc_view a_space a_virtual_space vm_heap]; try done.
  - rewrite Hvs, Hbottom. done.
  - rewrite Hvs. done.
  - lia.
  - rewrite Hvs in Hhigh |- *. cbn [vs_high vs_high_boundary] in *. lia.
Qed.

(** X22. [allocate_or_collect_work] with implicit collections on, on a
    well-formed heap with nothing pinned, when the bitmap can be
    committed: it returns. A block it hands out ends at the new [top];
    it either starts at the old [top], with no collection run, or, when
    the first attempt has failed, right after the live objects, which
    the collection has packed from [bottom] on. It returns [nullptr]
    exactly when the first attempt fails and, after the collection, the
    request is larger than what is committed above the live objects and
    not smaller than what the reservation has left above them: as in
    [allocate_work], a request that would fill the reservation exactly
    fails. *)
Theorem allocate_or_collect_work_reclaims (g : Globals) (os : OsAnswers)
    (size : Z) (verbose : bool) (vm : VM) (fuel : nat) :
  EpsilonSlidingGC g = true → EpsilonImplicitGC g = true →
  0 < os_vm_page_size g →
  alloc_inv g (alloc_view vm) →
  heap_wf (h_space (vm_heap vm)) (h_mem (vm_heap vm)) (h_roots (vm_heap vm)) →
  gcl_readers (h_gc_locker (vm_heap vm)) = 0 →
  commit_memory_ok os = true →
  0 ≤ size → size * HeapWordSize g < size_t_modulus →
  let h := vm_heap vm in
  let h1 := snd (entry_collect g os h) in
  ∃ res vm' L,
    allocate_or_collect_work (S (S fuel)) g os size verbose vm
    = Returned (res, vm')
    ∧ StronglySorted Z.lt L
    ∧ (∀ o, o ∈ L ↔ live h o)
    ∧ cs_top (h_space h1) = cs_bottom (h_space h) + total_size (h_mem h) L
    ∧ (res = None
       ↔ cs_end (h_space h) - cs_top (h_space h) < size
         ∧ cs_end (h_space h1) - cs_top (h_space h1) < size
         ∧ max_capacity (alloc_view vm)
           - total_size (h_mem h) L * HeapWordSize g
           ≤ size * HeapWordSize g)
    ∧ ∀ a, res = Some a →
        cs_top (h_space (vm_heap vm')) = a + size
        ∧ ((a = cs_top (h_space h)
            ∧ h_mem (vm_heap vm') = h_mem h
            ∧ h_roots (vm_heap vm') = h_roots h)
           ∨ (cs_end (h_space h) - cs_top (h_space h) < size
              ∧ a = cs_top (h_space h1)
              ∧ tight (h_mem (vm_heap vm')) (cs_bottom (h_space h)) a
                  (map (new_address h) L))).
Proof.
  intros Hsliding Himplicit Hpage Hinv Hwf Hidle Hcommit Hsize Hbytes h h1.
  destruct (entry_collect_completes g os h Hwf Hidle Hcommit)
    as (s & h' & Hrun).
  assert (h1 = h') as Hh1 by (subst h1; by rewrite Hrun).
  destruct (entry_collect_cycle g os h h' s Hwf Hrun)
    as (_ & L & Hsorted & HL & Hlay & Hbottom & Htop & _ & _ & Htight & _).
  destruct (entry_collect_top g os h h' s Hwf Hrun) as [_ Htop'].
  destruct (allocate_work_in_outcome g size default_verbose vm fuel Hinv
              Hsize Hbytes)
    as (res1 & vm1 & Hrun1 & Hnone1 & Hsame1 & Hsome1 & Hmem1 & Hroots1 & _).
  assert (used g (alloc_view vm)
          = (cs_top (h_space h) - cs_bottom (h_space h)) * HeapWordSize g)
    as Hused by reflexivity.
  pose proof (ainv_word _ _ Hinv) as Hword.
  unfold allocate_or_collect_work. rewrite Hrun1.
  destruct res1 as [a |].
  { exists (Some a), vm1, L. split; [done |]. split; [done |].
    split; [done |]. split; [by rewrite Hh1 |]. split.
    { split; [done |]. intros (Hfull & _ & Hleft). apply Hnone1.
      split; [exact Hfull |]. rewrite Hused. rewrite Htop in Htop'. nia. }
    intros a' [= <-]. destruct (Hsome1 a eq_refl) as [-> Htop1].
    split; [done |]. left. by repeat split. }
  rewrite (Hsame1 eq_refl). rewrite Hsliding, Himplicit. cbn [andb].
  rewrite vmentry_collect_runs. cbn [snd]. fold h. rewrite Hrun.
  cbn [fst snd].
  set (vm2 := {| vm_heap := h';
                 vm_monitoring := print_heap_info (vm_monitoring vm);
                 vm_requests :=
                   {| req_id := size_t_add (req_id (vm_requests vm)) 1;
                      heap_lock_held := false |} |}).
  assert (alloc_inv g (alloc_view vm2)
          ∧ max_capacity (alloc_view vm2) = max_capacity (alloc_view vm))
    as [Hinv2 Hmax2].
  { exact (entry_collect_alloc_inv g os vm h' s
             (print_heap_info (vm_monitoring vm)) (vm_requests vm2)
             ltac:(done) Hinv Hwf Hrun). }
  destruct (allocate_work_in_outcome g size verbose vm2 fuel Hinv2
              Hsize Hbytes)
    as (res2 & vm3 & Hrun2 & Hnone2 & Hsame2 & Hsome2 & Hmem2 & _).
  exists res2, vm3, L. split; [exact Hrun2 |]. split; [done |].
  split; [done |]. split; [by rewrite Hh1 |].
  assert (used g (alloc_view vm2)
          = total_size (h_mem h) L * HeapWordSize g) as Hused2.
  { unfold used. cbn [alloc_view a_space vm2 vm_heap].
    rewrite Htop, Hbottom. f_equal. lia. }
  rewrite Hmax2, Hused2 in Hnone2. cbn [vm2 vm_heap] in Hnone2.
  rewrite Hh1. split.
  - rewrite Hnone2. split.
    + intros [Hfull2 Hleft2]. split; [by apply Hnone1 |]. done.
    + intros (_ & Hfull2 & Hleft2). done.
  - intros a ->. destruct (Hsome2 a eq_refl) as [Ha Htop2].
    split; [exact Htop2 |]. right. split; [by apply Hnone1 |].
    cbn [vm2 vm_heap] in Ha. split; [exact Ha |].
    rewrite Hmem2. cbn [vm2 vm_heap]. rewrite Ha, Htop. by rewrite <- Htop.
Qed.

Lemma three_object_vm_inv : alloc_inv sliding_globals (alloc_view (three_object_vm 0)).
Proof. constructor; vm_compute; try split; congruence. Qed.

Lemma allocate_or_collect_work_reclaims_witness :
  ∃ vm', allocate_or_collect_work 2 sliding_globals os_all_fine 390 true
           (three_object_vm 0)
         = Returned (Some 108, vm')
    ∧ cs_top (h_space (vm_heap vm')) = 498.
Proof.
  destruct (allocate_or_collect_work_reclaims sliding_globals os_all_fine
              390 true (three_object_vm 0) 0 eq_refl eq_refl
              ltac:(reflexivity) three_object_vm_inv three_object_heap_wf
              eq_refl eq_refl ltac:(lia) ltac:(vm_compute; reflexivity))
    as (res & vm' & L & Hrun & _ & _ & _ & _ & Hres).
  assert (res = Some 108) as ->.
  { pose proof Hrun as Hc. vm_compute in Hc. by injection Hc as <- _. }
  exists vm'. split; [exact Hrun |]. exact (proj1 (Hres 108 eq_refl)).
Defined.

(** X23. While an object is pinned, [allocate_or_collect_work] reclaims
    nothing: it hands out memory exactly when [allocate_work] alone
    would, and the objects, the roots and the GC locker are as before,
    whether implicit collections are on or not. When it fails, the heap
    is left as it was. *)
Theorem allocate_or_collect_work_while_pinned (g : Globals) (os : OsAnswers)
    (size : Z) (verbose : bool) (vm : VM) (fuel : nat) :
  gcl_readers (h_gc_locker (vm_heap vm)) ≠ 0 →
  alloc_inv g (alloc_view vm) →
  0 ≤ size → size * HeapWordSize g < size_t_modulus →
  ∃ res vm',
    allocate_or_collect_work (S (S fuel)) g os size verbose vm
    = Returned (res, vm')
    ∧ (res = None
       ↔ cs_end (h_space (vm_heap vm)) - cs_top (h_space (vm_heap vm)) < size
         ∧ max_capacity (alloc_view vm) - used g (alloc_view vm)
           ≤ size * HeapWordSize g)
    ∧ (res = None → vm_heap vm' = vm_heap vm)
    ∧ h_mem (vm_heap vm') = h_mem (vm_heap vm)
    ∧ h_roots (vm_heap vm') = h_roots (vm_heap vm)
    ∧ h_gc_locker (vm_heap vm') = h_gc_locker (vm_heap vm).
Proof.
  intros Hpinned Hinv Hsize Hbytes.
  destruct (allocate_work_in_outcome g size default_verbose vm fuel Hinv
              Hsize Hbytes)
    as (res1 & vm1 & Hrun1 & Hnone1 & Hsame1 & Hsome1 & Hmem1 & Hroots1
        & Hlock1 & _).
  unfold allocate_or_collect_work. rewrite Hrun1.
  destruct res1 as [a |].
  { exists (Some a), vm1. split; [done |]. split; [exact Hnone1 |].
    split; [done |]. done. }
  rewrite (Hsame1 eq_refl).
  destruct (EpsilonSlidingGC g && EpsilonImplicitGC g).
  2:{ exists None, vm. split; [done |]. split; [exact Hnone1 |]. done. }
  rewrite vmentry_collect_runs. cbn [snd].
  assert (entry_collect g os (vm_heap vm) = (SkippedLockerActive, vm_heap vm))
    as Hskip.
  { unfold entry_collect, GCLocker_is_active.
    destruct (Z.eqb_spec (gcl_readers (h_gc_locker (vm_heap vm))) 0);
      [done | reflexivity]. }
  rewrite Hskip. cbn [fst snd].
  set (vm2 := {| vm_heap := vm_heap vm; vm_monitoring := vm_monitoring vm;
                 vm_requests :=
                   {| req_id := size_t_add (req_id (vm_requests vm)) 1;
                      heap_lock_held := false |} |}).
  assert (alloc_view vm2 = alloc_view vm) as Hview by reflexivity.
  destruct (allocate_work_in_outcome g size verbose vm2 fuel
              ltac:(by rewrite Hview) Hsize Hbytes)
    as (res2 & vm3 & Hrun2 & Hnone2 & Hsame2 & _ & Hmem2 & Hroots2 & Hlock2
        & _).
  exists res2, vm3. split; [exact Hrun2 |].
  split; [exact Hnone2 |].
  split; [intros Hres; by rewrite (Hsame2 Hres) |]. done.
Qed.

Lemma allocate_or_collect_work_while_pinned_witness :
  ∃ vm', mem_allocate 2 sliding_globals os_all_fine 390 (three_object_vm 1)
         = Returned (None, vm')
    ∧ vm_heap vm' = three_object_heap 1.
Proof.
  assert (alloc_inv sliding_globals (alloc_view (three_object_vm 1))) as Hinv.
  { constructor; vm_compute; try split; congruence. }
  destruct (allocate_or_collect_work_while_pinned sliding_globals os_all_fine
              390 true (three_object_vm 1) 0 ltac:(simpl; lia) Hinv
              ltac:(lia) ltac:(vm_compute; reflexivity))
    as (res & vm' & Hrun & Hnone & Hsame & _).
  assert (res = None) as ->.
  { apply Hnone. vm_compute. split; [reflexivity | congruence]. }
  exists vm'. split; [exact Hrun |]. exact (Hsame eq_refl).
Defined.

(** ** Explicit requests *)

(** X24. [collect] updates the monitoring counters exactly once,
    whatever the cause. For the two metadata causes, and with the sliding
    collector off, the heap, the request id and the count of occupancy
    lines are left alone. Any other cause with the sliding collector on,
    on a well-formed heap with nothing pinned, when the bitmap can be
    committed, runs a cycle to its end: the cycle prints its occupancy
    line before the counters are updated, and leaves the same compacted
    heap whether the caller is at a safepoint or goes through the VM
    operation; only the latter advances the request id, and [Heap_lock]
    is not held afterwards unless it was before. *)
Theorem collect_compacts_on_request (g : Globals) (os : OsAnswers)
    (at_safepoint : bool) (cause : GCCause) (vm : VM) :
  heap_wf (h_space (vm_heap vm)) (h_mem (vm_heap vm)) (h_roots (vm_heap vm)) →
  gcl_readers (h_gc_locker (vm_heap vm)) = 0 →
  commit_memory_ok os = true →
  let vm' := collect g os at_safepoint cause vm in
  match cause with
  | _metadata_GC_threshold | _metadata_GC_clear_soft_refs =>
      vm_monitoring vm' = update_counters (vm_monitoring vm)
      ∧ vm_heap vm' = vm_heap vm ∧ vm_requests vm' = vm_requests vm
  | _other_cause =>
      if EpsilonSlidingGC g
      then (∃ s, fst (entry_collect g os (vm_heap vm)) = Completed s)
           ∧ vm_monitoring vm'
             = update_counters (print_heap_info (vm_monitoring vm))
           ∧ m_heap_prints (vm_monitoring vm')
             = S (m_heap_prints (vm_monitoring vm))
           ∧ vm_heap vm' = snd (entry_collect g os (vm_heap vm))
           ∧ compacted (h_space (vm_heap vm')) (h_mem (vm_heap vm'))
               (h_roots (vm_heap vm'))
           ∧ vm_requests vm'
             = (if at_safepoint then vm_requests vm
                else {| req_id := size_t_add (req_id (vm_requests vm)) 1;
                        heap_lock_held := false |})
      else vm_monitoring vm' = update_counters (vm_monitoring vm)
           ∧ vm_heap vm' = vm_heap vm ∧ vm_requests vm' = vm_requests vm
  end.
Proof.
  intros Hwf Hidle Hcommit vm'. subst vm'. unfold collect.
  destruct cause; cbn [vm_heap vm_monitoring vm_requests]; [done | done |].
  destruct (EpsilonSlidingGC g); [| done].
  destruct (entry_collect_completes g os (vm_heap vm) Hwf Hidle Hcommit)
    as (s & h' & Hrun).
  assert (compacted (h_space h') (h_mem h') (h_roots h')) as Hcompacted.
  { destruct (entry_collect_cycle g os _ h' s Hwf Hrun)
      as (_ & L & _ & _ & _ & Hbottom & _ & _ & _ & Htight & Hlive & _).
    split; [rewrite Hbottom; apply Hwf |].
    exists (map (new_address (vm_heap vm)) L). rewrite Hbottom. by split. }
  split; [exists s; by rewrite Hrun |].
  destruct at_safepoint.
  - unfold entry_collect_in. rewrite Hrun.
    cbn [fst snd vm_heap vm_monitoring vm_requests]. done.
  - rewrite vmentry_collect_runs. cbn [snd vm_heap vm_monitoring vm_requests].
    rewrite Hrun. cbn [fst snd]. done.
Qed.

Lemma collect_compacts_on_request_witness :
  let vm' := do_full_collection sliding_globals os_all_fine false
               _other_cause (three_object_vm 0) in
  vm_heap vm' = three_object_heap_collected
  ∧ req_id (vm_requests vm') = 5
  ∧ m_heap_prints (vm_monitoring vm')
    = S (m_heap_prints (vm_monitoring (three_object_vm 0))).
Proof.
  intros vm'.
  destruct (collect_compacts_on_request sliding_globals os_all_fine false
              _other_cause (three_object_vm 0) three_object_heap_wf
              eq_refl eq_refl) as (_ & _ & Hprints & Hheap & _ & Hrequests).
  split; [exact Hheap |]. subst vm'. unfold do_full_collection.
  rewrite Hrequests. split; [reflexivity | exact Hprints].
Defined.

(** ** Heap set-up *)

Lemma multiple_div_mul x n : 0 < n → x mod n = 0 → x / n * n = x.
Proof.
  intros Hn Hmod. apply Z.mod_divide in Hmod as [k ->]; [| lia].
  by rewrite Z.div_mul by lia.
Qed.

Lemma multiple_trans x n m : 0 < n → 0 < m →
  x mod n = 0 → n mod m = 0 → x mod m = 0.
Proof.
  intros Hn Hm Hx Hnm.
  apply Z.mod_divide in Hx as [k ->]; [| lia].
  apply Z.mod_divide in Hnm as [j ->]; [| lia].
  rewrite Z.mul_assoc. by apply Z.mod_mul; lia.
Qed.

Lemma align_up_mono a b n : 0 < n → a ≤ b → align_up a n ≤ align_up b n.
Proof.
  intros Hn Hle. unfold align_up.
  apply Z.mul_le_mono_nonneg_r; [lia |]. apply Z.div_le_mono; lia.
Qed.

Lemma MIN2_le_l a b : MIN2 a b ≤ a.
Proof. unfold MIN2. destruct (Z.ltb_spec a b); lia. Qed.

Lemma MIN2_cases a b : MIN2 a b = a ∨ MIN2 a b = b.
Proof. unfold MIN2. destruct (a <? b); auto. Qed.

(** X25. [initialize] sets up a heap the allocator can work on: with the
    heap alignment and the base of the reservation whole words, the space
    is empty and sits on the virtual space, the initial size rounded up
    to the alignment is committed and the maximal size rounded up is
    reserved, so the allocator's invariant holds from the first call on.
    The counters are updated at least every sixteenth of the heap, and
    the TLAB limit is object aligned and within the host's limit. The set-up
    fails only if the sliding collector is on and the bitmap cannot be
    reserved. *)
Theorem initialize_establishes_invariant (g : Globals) (f : HeapFlags) :
  0 < HeapWordSize g →
  0 < HeapAlignment f → HeapAlignment f mod HeapWordSize g = 0 →
  heap_rs_base f mod HeapWordSize g = 0 →
  0 ≤ InitialHeapSize f ≤ MaxHeapSize f →
  align_up (MaxHeapSize f) (HeapAlignment f) < size_t_modulus →
  (EpsilonSlidingGC g = true → bitmap_is_reserved f = true) →
  ∃ a ts, initialize g f = Some (a, ts)
    ∧ alloc_wf g a
    ∧ alloc_inv g a
    ∧ used g a = 0
    ∧ capacity a = align_up (InitialHeapSize f) (HeapAlignment f)
    ∧ max_capacity a = align_up (MaxHeapSize f) (HeapAlignment f)
    ∧ InitialHeapSize f ≤ capacity a ≤ max_capacity a
    ∧ a_step_counter_update a ≤ max_capacity a / 16
    ∧ ts_max_tlab_size ts ≤ CollectedHeap_max_tlab_size f
    ∧ (0 < MinObjAlignment g →
       CollectedHeap_max_tlab_size f mod MinObjAlignment g = 0 →
       ts_max_tlab_size ts mod MinObjAlignment g = 0).
Proof.
  intros Hword Halign Haligned Hbase Hsizes Hfits Hbitmap.
  unfold initialize. cbv zeta.
  assert (EpsilonSlidingGC g && negb (bitmap_is_reserved f) = false) as ->.
  { destruct (EpsilonSlidingGC g); [| done]. by rewrite Hbitmap. }
  set (init_byte_size := align_up (InitialHeapSize f) (HeapAlignment f)).
  set (max_byte_size := align_up (MaxHeapSize f) (HeapAlignment f)) in *.
  destruct (align_up_bounds (InitialHeapSize f) (HeapAlignment f) Halign)
    as [[Hinit_ge _] Hinit_mod].
  destruct (align_up_bounds (MaxHeapSize f) (HeapAlignment f) Halign)
    as [[Hmax_ge _] Hmax_mod].
  fold init_byte_size in Hinit_ge, Hinit_mod.
  fold max_byte_size in Hmax_ge, Hmax_mod.
  assert (init_byte_size ≤ max_byte_size) as Hle.
  { apply align_up_mono; lia. }
  assert (init_byte_size mod HeapWordSize g = 0) as Hinit_words.
  { by apply (multiple_trans _ (HeapAlignment f)). }
  assert ((heap_rs_base f + init_byte_size) mod HeapWordSize g = 0)
    as Hhigh_words.
  { rewrite Z.add_mod, Hbase, Hinit_words by lia. done. }
  eexists _, _. split; [reflexivity |].
  assert (alloc_wf g
            {| a_space :=
                 ContiguousSpace_initialize
                   (vs_low (VirtualSpace_initialize (heap_rs_base f)
                              max_byte_size init_byte_size) / HeapWordSize g)
                   (vs_high (VirtualSpace_initialize (heap_rs_base f)
                               max_byte_size init_byte_size) / HeapWordSize g);
               a_virtual_space :=
                 VirtualSpace_initialize (heap_rs_base f) max_byte_size
                   init_byte_size;
               a_last_counter_update := 0; a_last_heap_print := 0;
               a_step_counter_update :=
                 MIN2 (max_byte_size / 16) (EpsilonUpdateCountersStep f);
               a_step_heap_print :=
                 if EpsilonPrintHeapSteps f =? 0 then SIZE_MAX
                 else max_byte_size / EpsilonPrintHeapSteps f;
               a_counter_updates := 0; a_heap_prints := 0 |}) as Hwf.
  { constructor; unfold max_capacity, reserved_size;
      cbn [a_space a_virtual_space VirtualSpace_initialize
           ContiguousSpace_initialize vs_low vs_high vs_low_boundary
           vs_high_boundary cs_bottom cs_top cs_end].
    - done.
    - by rewrite multiple_div_mul.
    - done.
    - by rewrite multiple_div_mul.
    - split; [lia |]. apply Z.div_le_mono; lia.
    - lia.
    - lia. }
  split; [exact Hwf |]. split; [by apply alloc_wf_inv |].
  unfold used, capacity, max_capacity, committed_size, reserved_size.
  cbn [a_space a_virtual_space a_step_counter_update VirtualSpace_initialize
       ContiguousSpace_initialize vs_low vs_high vs_low_boundary
       vs_high_boundary cs_bottom cs_top cs_end ts_max_tlab_size].
  split; [lia |]. split; [lia |]. split; [lia |]. split; [lia |].
  split.
  { replace (heap_rs_base f + max_byte_size - heap_rs_base f)
      with max_byte_size by lia. apply MIN2_le_l. }
  split; [apply MIN2_le_l |].
  intros Hobj Hhost. unfold align_object_size.
  destruct (MIN2_cases (CollectedHeap_max_tlab_size f)
              (align_up (EpsilonMaxTLABSize f / HeapWordSize g)
                 (MinObjAlignment g))) as [-> | ->]; [done |].
  by apply align_up_bounds.
Qed.

Lemma initialize_establishes_invariant_witness :
  ∃ a ts, initialize sliding_globals small_heap_flags = Some (a, ts)
    ∧ alloc_inv sliding_globals a
    ∧ capacity a = 4096
    ∧ max_capacity a = 12288.
Proof.
  destruct (initialize_establishes_invariant sliding_globals small_heap_flags
              ltac:(simpl; lia) ltac:(simpl; lia) ltac:(reflexivity)
              ltac:(reflexivity) ltac:(simpl; lia)
              ltac:(vm_compute; reflexivity) ltac:(reflexivity))
    as (a & ts & Hinit & _ & Hinv & _ & Hcap & Hmax & _).
  exists a, ts. split; [exact Hinit |]. split; [exact Hinv |].
  split; [rewrite Hcap | rewrite Hmax]; reflexivity.
Defined.
